(** * lunchbox: the resumable ROM-source scraper (scripts/scrape_rom_sources.py)

    A shallow embedding of the orchestrator in [scripts/scrape_rom_sources.py]
    (with [platform_to_filename] shared verbatim by
    [scripts/scrape_all_emulators.py]): the filename key, the completion
    check, the aggregator, the worker executor with its temp-file protocol,
    the task selection of [main] and its two scheduling loops; and of the
    executor, the search name and the task selection of the sibling script
    [scripts/scrape_all_emulators.py] ([Emulators]).

    Modelling conventions.
    - Python [str] values are Rocq [string]s (byte strings); [str.lower] is
      modelled on the ASCII letters, every byte outside [a-z0-9] is a
      non-alphanumeric character for the regular expressions.
    - The directory [OUTPUT_DIR] is a finite map from file names to file
      contents, [gmap string file].
    - A file's content is what [csv.reader] yields when it is read: the
      list of tokenised lines, ending either at end of file or with a raised
      exception ([open] failing, a decoding error, [csv.Error]).
    - The external [claude] process is an opaque worker: one call is
      described by what it leaves at the path it was told to write and by
      how [Popen]/[communicate] return.  A worker process is counted as
      started when [Popen] returns; a raising [Popen] starts none.
    - A [KeyboardInterrupt] reaches a run either while a worker is waited
      for (an outcome of [communicate]) or in the body of the sequential
      loop ([signal]).
    - [process_platform] is given twice: as a function from the state to
      the effects of a whole call, and one effect at a time ([thread_step]),
      so that calls running in the pool can be interleaved; [thread_alone]
      relates the two. *)

From Stdlib Require Import Strings.String Strings.Ascii ZArith Lia Sorting.Sorted.
From stdpp Require Import base option list gmap strings fin_maps sorting.

Local Open Scope string_scope.
Local Open Scope list_scope.

(** ** Strings: the pieces of Python's [str] and [re] API the scripts use *)

Module Str.

(** [c.isascii() and c.isupper()], on bytes. *)
Definition is_upper (c : ascii) : bool :=
  (Ascii.leb "A" c && Ascii.leb c "Z")%char.

(** One character of [str.lower()]. *)
Definition lower_char (c : ascii) : ascii :=
  if is_upper c then ascii_of_nat (nat_of_ascii c + 32) else c.

(** [s.lower()]. *)
Fixpoint lower (s : string) : string :=
  match s with
  | EmptyString => EmptyString
  | String c s' => String (lower_char c) (lower s')
  end.

(** Membership in the character class [[a-z0-9]]. *)
Definition is_alnum (c : ascii) : bool :=
  ((Ascii.leb "a" c && Ascii.leb c "z") || (Ascii.leb "0" c && Ascii.leb c "9"))%char.

Definition underscore : ascii := "_"%char.

(** [re.sub(r'[^a-z0-9]+', '_', s)]: every maximal run of characters
    outside the class becomes one underscore.  [in_run] tells that the
    previous character already belonged to the run being replaced. *)
Fixpoint sub_non_alnum (in_run : bool) (s : string) : string :=
  match s with
  | EmptyString => EmptyString
  | String c s' =>
      if is_alnum c then String c (sub_non_alnum false s')
      else if in_run then sub_non_alnum true s'
      else String underscore (sub_non_alnum true s')
  end.

(** [re.sub(r'_+', '_', s)]: every maximal run of underscores becomes one. *)
Fixpoint sub_underscores (in_run : bool) (s : string) : string :=
  match s with
  | EmptyString => EmptyString
  | String c s' =>
      if Ascii.eqb c underscore then
        if in_run then sub_underscores true s'
        else String underscore (sub_underscores true s')
      else String c (sub_underscores false s')
  end.

(** [s.lstrip('_')]. *)
Fixpoint lstrip (s : string) : string :=
  match s with
  | EmptyString => EmptyString
  | String c s' => if Ascii.eqb c underscore then lstrip s' else s
  end.

(** [s.rstrip('_')]: the result is empty exactly when nothing but
    underscores is left. *)
Fixpoint rstrip (s : string) : string :=
  match s with
  | EmptyString => EmptyString
  | String c s' =>
      match rstrip s' with
      | EmptyString => if Ascii.eqb c underscore then EmptyString else String c EmptyString
      | r => String c r
      end
  end.

(** [s.strip('_')]. *)
Definition strip (s : string) : string := rstrip (lstrip s).

(** [s.endswith(suffix)]. *)
Fixpoint endswith (s suffix : string) : bool :=
  String.eqb s suffix ||
  match s with
  | EmptyString => false
  | String _ s' => endswith s' suffix
  end.

(** [s.startswith(p)]. *)
Fixpoint startswith (s p : string) {struct p} : bool :=
  match p, s with
  | EmptyString, _ => true
  | String _ _, EmptyString => false
  | String b p', String a s' => Ascii.eqb a b && startswith s' p'
  end.

End Str.

(** ** Constants of the script *)

(** [CSV_HEADER.split(',')]. *)
Definition CSV_HEADER : list string :=
  ["platform"; "source_name"; "url"; "content_type"; "set_format";
   "download_method"; "size"; "requires_login"; "requires_bios";
   "bios_included"; "bios_source"; "recommended"; "notes"].

(** [COMBINED_CSV.name]; all paths below are names inside [OUTPUT_DIR]. *)
Definition COMBINED_CSV : string := "all_rom_sources.csv".

(** [SKIP_PLATFORMS]. *)
Definition SKIP_PLATFORMS : list string :=
  ["Windows"; "Linux"; "Sony Playstation 5"; "Microsoft Xbox Series X/S";
   "Android"; "Apple iOS"; "Apple Mac OS"; "Web Browser"].

(** ** The filename key *)

(** [platform_to_filename], without the extension. *)
Definition platform_slug (platform : string) : string :=
  let name := Str.lower platform in
  let name := Str.sub_non_alnum false name in
  let name := Str.sub_underscores false name in
  Str.strip name.

(** [platform_to_filename(platform)]. *)
Definition platform_to_filename (platform : string) : string :=
  platform_slug platform +:+ ".csv".

(** [tmp_path] of [process_platform]: [f".{filename}.tmp"]. *)
Definition tmp_name (filename : string) : string :=
  "." +:+ filename +:+ ".tmp".

(** ** Files and the artifact store *)

(** How reading a file ends: at end of file, or with a raised exception. *)
Inductive read_end := Eof | Raises.

(** The content of a file as [csv.reader] delivers it: [file_lines] are the
    lines tokenised before [file_end].  A file that cannot even be opened or
    decoded is [File [] Raises]. *)
Record file := File { file_lines : list (list string); file_end : read_end }.

Global Instance read_end_eq_dec : EqDecision read_end.
Proof. solve_decision. Defined.

Global Instance file_eq_dec : EqDecision file.
Proof. solve_decision. Defined.

(** [OUTPUT_DIR]: file name to content. *)
Abbreviation store := (gmap string file).

(** ** [csv.DictReader] and [csv.DictWriter] *)

(** Values of a [DictReader] row: a cell, [None] ([restval]) for a field
    the line is too short for, or the list of surplus cells stored under the
    key [None] ([restkey]). *)
Inductive value := VStr (s : string) | VNone | VList (l : list string).

(** A row dictionary; its keys are field names or [None]. *)
Abbreviation dict := (gmap (option string) value).

(** [dict(zip(fieldnames, row))]: a later duplicate of a key wins. *)
Definition dict_zip (fieldnames row : list string) : dict :=
  foldl (λ d kv, <[Some kv.1 := VStr kv.2]> d) ∅ (zip fieldnames row).

(** The body of [DictReader.__next__] for one non-empty line. *)
Definition dict_row (fieldnames row : list string) : dict :=
  let d := dict_zip fieldnames row in
  let lf := length fieldnames in
  let lr := length row in
  if Nat.ltb lf lr then <[None := VList (drop lf row)]> d
  else if Nat.ltb lr lf then foldl (λ d key, <[Some key := VNone]> d) d (drop lr fieldnames)
  else d.

(** [reader.fieldnames]: the first line, [None] on an empty file. *)
Definition fieldnames (f : file) : option (list string) := head (file_lines f).

(** The rows [for row in reader] yields before the read ends: the lines
    after the header, empty lines skipped. *)
Definition dict_rows (f : file) : list dict :=
  match file_lines f with
  | [] => []
  | h :: t => dict_row h <$> filter (λ r, r ≠ []) t
  end.

(** [row.get(k, '')], then the cell [csv.writer] emits for it ([None] is
    written as the empty string). *)
Definition get_cell (row : dict) (k : string) : string :=
  match default (VStr "") (row !! Some k) with
  | VStr s => s
  | VNone => ""
  | VList _ => ""
  end.

(** [clean_row = {k: row.get(k, '') for k in fieldnames}] as
    [DictWriter.writerow] lays it out. *)
Definition clean_row (row : dict) : list string := get_cell row <$> CSV_HEADER.

(** ** The completion oracle *)

(** [is_done(platform)]. *)
Definition is_done (fs : store) (platform : string) : bool :=
  bool_decide (is_Some (fs !! platform_to_filename platform)).

(** ** The aggregator *)

(** Insertion into a list sorted on [key] by [String.leb] (the order of
    Python's [sorted] on names and of SQLite's [ORDER BY] on text). *)
Fixpoint insert_sorted {A} (key : A → string) (x : A) (l : list A) : list A :=
  match l with
  | [] => [x]
  | y :: l' => if String.leb (key x) (key y) then x :: l else y :: insert_sorted key x l'
  end.

(** The order the sort establishes: [x] before [y] when [key x <= key y]. *)
Definition key_le {A} (key : A → string) (x y : A) : Prop :=
  String.leb (key x) (key y) = true.

(** A stable sort on [key]. *)
Definition sort_by {A} (key : A → string) (l : list A) : list A :=
  foldr (insert_sorted key) [] l.

(** [sorted(OUTPUT_DIR.glob("*.csv"))]. *)
Definition glob_csv (fs : store) : list string :=
  sort_by id (filter (λ n, Str.endswith n ".csv" = true) (elements (dom fs))).

(** The loop of [combine_all_csvs] over one file: the rows read before the
    read ends are appended to [all_rows]; an exception prints a warning
    naming the file. *)
Definition combine_read (fs : store) (acc : list dict * list string) (name : string)
  : list dict * list string :=
  if String.eqb name COMBINED_CSV then acc
  else match fs !! name with
       | None => acc
       | Some f =>
           (acc.1 ++ dict_rows f,
            match file_end f with Raises => acc.2 ++ [name] | Eof => acc.2 end)
       end.

(** What one aggregation returns besides the store. *)
Record combined := Combined {
  combined_store : store;
  combined_warnings : list string;
  combined_count : nat }.

(** [combine_all_csvs()]. *)
Definition combine_all_csvs (fs : store) : combined :=
  let '(all_rows, warnings) := foldl (combine_read fs) ([], []) (glob_csv fs) in
  match all_rows with
  | [] => Combined fs warnings 0
  | _ =>
      Combined (<[COMBINED_CSV := File (CSV_HEADER :: (clean_row <$> all_rows)) Eof]> fs)
               warnings (length all_rows)
  end.

(** ** The worker executor *)

(** The machine state one call acts on: the directory, the number of worker
    processes started (the [subprocess.Popen] calls that returned a process)
    and the number of [proc.kill()] calls. *)
Record world := World { w_fs : store; w_spawned : nat; w_killed : nat }.

(** The primitive effects of [process_platform]. *)
Inductive action :=
| AUnlink (path : string)                 (* [path.unlink(missing_ok=True)] *)
| ASpawn                                  (* [subprocess.Popen([...])] returns:
                                             a worker process exists *)
| AWorkerWrite (path : string) (content : option file)
                                          (* the running worker leaves [content]
                                             at [path] ([None]: removes it) *)
| AKill                                   (* [proc.kill(); proc.wait()] *)
| ARename (src dst : string).             (* [src.rename(dst)] *)

(** [Path.rename] replaces an existing destination; it raises when the
    source is missing, which the executor excludes by testing [exists()]
    first: the model leaves the directory alone there. *)
Definition rename (src dst : string) (fs : store) : store :=
  match fs !! src with
  | Some f => <[dst := f]> (delete src fs)
  | None => fs
  end.

Definition step (a : action) (w : world) : world :=
  match a with
  | AUnlink p => World (delete p (w_fs w)) (w_spawned w) (w_killed w)
  | ASpawn => World (w_fs w) (S (w_spawned w)) (w_killed w)
  | AWorkerWrite p (Some f) => World (<[p := f]> (w_fs w)) (w_spawned w) (w_killed w)
  | AWorkerWrite p None => World (delete p (w_fs w)) (w_spawned w) (w_killed w)
  | AKill => World (w_fs w) (w_spawned w) (S (w_killed w))
  | ARename s d => World (rename s d (w_fs w)) (w_spawned w) (w_killed w)
  end.

(** The state after a sequence of effects. *)
Definition exec (l : list action) (w : world) : world := foldl (λ w a, step a w) w l.

(** How [proc.communicate(timeout=600)] comes back. *)
Inductive communicate :=
| Exited (returncode : Z) (stderr : string)
| TimeoutExpired
| KeyboardInterrupt
| OtherError.                             (* any other [Exception] *)

(** One run of the external worker, as the executor sees it: [Popen] itself
    may raise; otherwise the process, told to write to one path, leaves
    there a succession of contents (a file still being written is any of
    them) until [communicate] returns. *)
Inductive worker :=
| PopenRaises
| Runs (writes : list (option file)) (ret : communicate).

(** The messages of [process_platform]. *)
Inductive message :=
| WouldProcess (filename : string)
| Created (filename : string) (sources : nat)
| Failed (error : string)
| MissingColumns (missing : gset string)   (* the set [expected - actual] *)
| NoDataRows
| InvalidCsv
| TimeoutMsg
| ErrorMsg.

(** What a call produces: its returned triple, or the re-raised
    [KeyboardInterrupt]. *)
Inductive outcome :=
| Return (platform : string) (success : bool) (msg : message)
| Raise_KeyboardInterrupt.

(** The validation block of [process_platform], on the content found at
    [tmp_path]: [inl] the failure message, [inr] the number of rows. *)
Definition validate (f : file) : message + nat :=
  match file_lines f with
  | [] =>
      match file_end f with
      | Raises => inl InvalidCsv                      (* [open]/first read raises *)
      | Eof => inl (MissingColumns (list_to_set CSV_HEADER))
                                                      (* [reader.fieldnames] is [None] *)
      end
  | actual :: _ =>
      if forallb (λ k, bool_decide (k ∈ actual)) CSV_HEADER then
        match file_end f with
        | Raises => inl InvalidCsv                    (* [list(reader)] raises *)
        | Eof =>
            match dict_rows f with
            | [] => inl NoDataRows
            | rows => inr (length rows)
            end
        end
      else inl (MissingColumns (list_to_set CSV_HEADER ∖ list_to_set actual))
  end.

(** [stderr.decode()[:200] if stderr else "No output file created"]. *)
Definition stderr_message (stderr : string) : string :=
  match stderr with
  | EmptyString => "No output file created"
  | _ => String.substring 0 200 stderr
  end.

(** [process_platform(platform, dry_run)] run against the worker [wk] from
    the state [w]: the effects performed, in order, and the outcome.
    [told] is the path interpolated into the prompt as [output_path]. *)
Definition process_platform (platform : string) (dry_run : bool) (wk : worker) (w : world)
  : list action * outcome :=
  let filename := platform_to_filename platform in
  let output_path := filename in
  let tmp_path := tmp_name filename in
  let told := tmp_path in
  if dry_run then ([], Return platform true (WouldProcess filename)) else
  match wk with
  | PopenRaises =>
      ([AUnlink tmp_path; AUnlink tmp_path], Return platform false ErrorMsg)
  | Runs writes ret =>
      let ran := [AUnlink tmp_path; ASpawn] ++ (AWorkerWrite told <$> writes) in
      match ret with
      | TimeoutExpired =>
          (ran ++ [AKill; AUnlink tmp_path], Return platform false TimeoutMsg)
      | KeyboardInterrupt =>
          (ran ++ [AKill; AUnlink tmp_path], Raise_KeyboardInterrupt)
      | OtherError =>
          (ran ++ [AUnlink tmp_path], Return platform false ErrorMsg)
      | Exited _ stderr =>
          match w_fs (exec ran w) !! tmp_path with
          | None =>
              (ran ++ [AUnlink tmp_path],
               Return platform false (Failed (stderr_message stderr)))
          | Some f =>
              match validate f with
              | inl msg => (ran ++ [AUnlink tmp_path], Return platform false msg)
              | inr n =>
                  (ran ++ [ARename tmp_path output_path],
                   Return platform true (Created filename n))
              end
          end
      end
  end.

(** [cleanup_temp_files()]: the names matching [".*.tmp"] are removed. *)
Definition is_temp_name (n : string) : bool :=
  Str.startswith n "." && Str.endswith n ".tmp" && Nat.leb 5 (String.length n).

Definition cleanup_temp_files (fs : store) : store :=
  filter (λ kv, is_temp_name kv.1 = false) fs.

(** ** The task enumerator and the selection made by [main] *)

(** The external catalog: the groups of the query of [get_platforms], one
    [(name, game_count)] pair per platform name, before [ORDER BY]. *)
Abbreviation catalog := (list (string * Z)).

(** [get_platforms(min_games)]: the groups ordered by name, then the
    comprehension [if count >= min_games]. *)
Definition get_platforms (db : catalog) (min_games : Z) : list (string * Z) :=
  filter (λ nc, (min_games ≤ nc.2)%Z) (sort_by fst db).

(** The command line of [main]. *)
Record args := Args {
  parallel : Z;
  dry_run : bool;
  platform : option string;
  combine_only : bool;
  min_games : Z;
  limit : Z }.

(** The defaults of the argument parser. *)
Definition default_args : args := Args 1 false None false 10 0.

(** What [main] decides before it schedules anything. *)
Inductive plan :=
| CombineOnly                                   (* [--combine-only] *)
| NotFound                                      (* [sys.exit(1)] *)
| AllProcessed                                  (* nothing remaining *)
| DryRun (remaining_names : list string)        (* print and return *)
| Process (remaining_names : list string).      (* run the workers *)

(** [platforms] of [main]: the skip filter over [get_platforms]. *)
Definition eligible (db : catalog) (min_games : Z) : list (string * Z) :=
  filter (λ nc, nc.1 ∉ SKIP_PLATFORMS) (get_platforms db min_games).

(** Truthiness of [args.platform]: [None] and the empty string are false. *)
Definition given (o : option string) : option string :=
  match o with
  | Some EmptyString => None
  | o => o
  end.

(** How the single platform of [--platform] was found. *)
Inductive found := Normal | ForceIncluded.

(** The [if args.platform] branch: the match among the eligible
    platforms, else among [all_platforms] with the note printed. *)
Definition find_platform (db : catalog) (min_games : Z) (p : string)
  : option (string * found) :=
  match filter (λ nc, nc.1 = p) (eligible db min_games) with
  | m :: _ => Some (m.1, Normal)
  | [] =>
      match filter (λ nc, nc.1 = p) (get_platforms db min_games) with
      | m :: _ => Some (m.1, ForceIncluded)
      | [] => None
      end
  end.

(** [remaining_names[:args.limit]] under [if args.limit > 0]. *)
Definition apply_limit (lim : Z) (names : list string) : list string :=
  if (0 <? lim)%Z then take (Z.to_nat lim) names else names.

(** [remaining_names] in the normal mode. *)
Definition pending_names (db : catalog) (min_games : Z) (fs : store) : list string :=
  fst <$> filter (λ nc, is_done fs nc.1 = false) (eligible db min_games).

(** [main] up to the point where it starts the workers. *)
Definition main_plan (a : args) (db : catalog) (fs : store) : plan :=
  if combine_only a then CombineOnly else
  let selected :=
    match given (platform a) with
    | Some p =>
        match find_platform db (min_games a) p with
        | Some (name, _) => Some [name]
        | None => None
        end
    | None => Some (pending_names db (min_games a) fs)
    end in
  match selected with
  | None => NotFound
  | Some remaining_names =>
      let remaining_names := apply_limit (limit a) remaining_names in
      match remaining_names with
      | [] => AllProcessed
      | _ => if dry_run a then DryRun remaining_names else Process remaining_names
      end
  end.

(** ** The sequential loop *)

(** The running totals of [main] and the machine state. *)
Record run := Run {
  r_world : world;
  r_dispatched : list string;         (* the calls to [process_platform] made *)
  success_count : nat;
  fail_count : nat }.

(** The [for i, platform in enumerate(remaining_names, 1)] loop under
    [args.parallel == 1], as long as a [KeyboardInterrupt] arrives only
    while a worker is waited for; [oracle i] is the worker met by the
    [i]-th call.  A [KeyboardInterrupt] leaves the loop for
    [cleanup_temp_files()]. *)
Fixpoint run_sequential (oracle : nat → worker) (i : nat) (names : list string) (r : run) : run :=
  match names with
  | [] => r
  | p :: rest =>
      let '(acts, out) := process_platform p false (oracle i) (r_world r) in
      let w' := exec acts (r_world r) in
      match out with
      | Return _ true _ =>
          run_sequential oracle (S i) rest
            (Run w' (r_dispatched r ++ [p]) (S (success_count r)) (fail_count r))
      | Return _ false _ =>
          run_sequential oracle (S i) rest
            (Run w' (r_dispatched r ++ [p]) (success_count r) (S (fail_count r)))
      | Raise_KeyboardInterrupt =>
          Run (World (cleanup_temp_files (w_fs w')) (w_spawned w') (w_killed w'))
              (r_dispatched r ++ [p]) (success_count r) (fail_count r)
      end
  end.

(** A [KeyboardInterrupt] can also reach the loop body outside
    [process_platform], all of which is inside the [try] of [main].  Where
    one arrives in an iteration: *)
Inductive signal :=
| NoSignal
| AtPrint                 (* in the [print] that announces the platform *)
| AtMessage               (* in [print(msg)], before the counters are updated *)
| AtSleep.                (* in [time.sleep(1)] *)

(** [except KeyboardInterrupt: ... cleanup_temp_files()]. *)
Definition cancelled (r : run) : run :=
  Run (World (cleanup_temp_files (w_fs (r_world r)))
             (w_spawned (r_world r)) (w_killed (r_world r)))
      (r_dispatched r) (success_count r) (fail_count r).

(** The sequential loop with the interrupts that reach its body:
    [signals i] tells where one arrives in the [i]-th iteration. *)
Fixpoint sequential_loop (oracle : nat → worker) (signals : nat → signal) (i : nat)
    (names : list string) (r : run) : run :=
  match names with
  | [] => r
  | p :: rest =>
      match signals i with
      | AtPrint => cancelled r
      | sig =>
          let '(acts, out) := process_platform p false (oracle i) (r_world r) in
          let w' := exec acts (r_world r) in
          let called :=
            Run w' (r_dispatched r ++ [p]) (success_count r) (fail_count r) in
          match out with
          | Raise_KeyboardInterrupt => cancelled called
          | Return _ success _ =>
              let counted :=
                Run w' (r_dispatched r ++ [p])
                    (if success then S (success_count r) else success_count r)
                    (if success then fail_count r else S (fail_count r)) in
              match sig with
              | AtMessage => cancelled called
              | AtSleep => cancelled counted
              | _ => sequential_loop oracle signals (S i) rest counted
              end
          end
      end
  end.

(** ** The pool loop *)

Module Pool.

(** The state of the [ThreadPoolExecutor] branch.  A future is named by its
    submission number; [pending] is the dictionary from futures to
    platforms, [remaining_iter] what the iterator has not yielded yet,
    [submitted] the platforms handed to [executor.submit], oldest first. *)
Record state := State {
  pending : list (nat * string);
  remaining_iter : list string;
  submitted : list string;
  completed : nat;
  successes : nat;
  failures : nat }.

(** [p = next(remaining_iter, None); if p: pending[executor.submit(...)] = p].
    The test is Python truthiness: the empty name is dropped like [None]. *)
Definition submit_next (s : state) : state :=
  match remaining_iter s with
  | [] => s
  | p :: rest =>
      if String.eqb p "" then
        State (pending s) rest (submitted s) (completed s) (successes s) (failures s)
      else
        State (pending s ++ [(length (submitted s), p)]) rest (submitted s ++ [p])
              (completed s) (successes s) (failures s)
  end.

(** The state after [# Submit initial batch]. *)
Definition initial (k : nat) (remaining_names : list string) : state :=
  Nat.iter k submit_next (State [] remaining_names [] 0 0 0).

(** The body of [for future in done_futures] for one finished future and
    the success flag of its result. *)
Definition handle (s : state) (done : nat * bool) : state :=
  let s' := State (filter (λ fp, fp.1 ≠ done.1) (pending s)) (remaining_iter s)
                  (submitted s) (S (completed s))
                  (if done.2 then S (successes s) else successes s)
                  (if done.2 then failures s else S (failures s)) in
  submit_next s'.

(** One iteration of [while pending]: [wait] returns a non-empty set of
    finished futures, all of them pending, and the body runs for each. *)
Inductive tick : state → state → Prop :=
| tick_intro s (done_futures : list (nat * bool)) :
    done_futures ≠ [] →
    NoDup (done_futures.*1) →
    (∀ f, f ∈ done_futures.*1 → f ∈ (pending s).*1) →
    tick s (foldl handle s done_futures).

(** The states the loop can be in at the head of [while pending]. *)
Inductive reachable (k : nat) (remaining_names : list string) : state → Prop :=
| reach_initial : reachable k remaining_names (initial k remaining_names)
| reach_tick s s' :
    reachable k remaining_names s → tick s s' → reachable k remaining_names s'.

End Pool.

(** ** [main] *)

(** How a run of [main] ends. *)
Record main_result := MainResult {
  exit_status : Z;
  final : world;
  dispatched : list string;
  warnings : list string }.

Section Main.

(** The machine-level result of the [ThreadPoolExecutor] branch; its
    scheduling is [Pool] above. *)
Variable run_pool : Z → list string → world → run.
(** The worker met by the [i]-th sequential call. *)
Variable oracle : nat → worker.
(** The keyboard interrupt that reaches the [i]-th iteration of the
    sequential loop outside its call, if any. *)
Variable signals : nat → signal.

(** The tail shared by the ends of [main]: [combine_all_csvs()]. *)
Definition finish (status : Z) (r : run) : main_result :=
  let w := r_world r in
  let c := combine_all_csvs (w_fs w) in
  MainResult status (World (combined_store c) (w_spawned w) (w_killed w))
             (r_dispatched r) (combined_warnings c).

(** [main()], from the parsed arguments. *)
Definition main (a : args) (db : catalog) (w : world) : main_result :=
  let idle := Run w [] 0 0 in
  match main_plan a db (w_fs w) with
  | CombineOnly => finish 0 idle
  | NotFound => MainResult 1 w [] []
  | AllProcessed => finish 0 idle
  | DryRun _ => MainResult 0 w [] []
  | Process remaining_names =>
      if (parallel a =? 1)%Z
      then finish 0 (sequential_loop oracle signals 0 remaining_names idle)
      else finish 0 (run_pool (parallel a) remaining_names w)
  end.

End Main.

(** ** Alphanumeric runs, to describe the filename key *)

(** Whether [s] starts with a character of [[a-z0-9]]. *)
Definition starts_alnum (s : string) : bool :=
  match s with
  | EmptyString => false
  | String c _ => Str.is_alnum c
  end.

(** [c] opens a run: it joins the first run of the rest when the rest
    continues with an alphanumeric character. *)
Definition push_char (c : ascii) (continues : bool) (runs : list string) : list string :=
  if continues then
    match runs with
    | r :: runs' => String c r :: runs'
    | [] => [String c EmptyString]
    end
  else String c EmptyString :: runs.

(** [re.findall(r'[a-z0-9]+', s)]: the maximal runs of [[a-z0-9]]. *)
Fixpoint alnum_runs (s : string) : list string :=
  match s with
  | EmptyString => []
  | String c s' =>
      if Str.is_alnum c then push_char c (starts_alnum s') (alnum_runs s')
      else alnum_runs s'
  end.

(** ['_'.join(runs)]. *)
Fixpoint join (runs : list string) : string :=
  match runs with
  | [] => EmptyString
  | r :: runs' =>
      match runs' with
      | [] => r
      | _ => r +:+ String Str.underscore (join runs')
      end
  end.

(** A non-empty string of [[a-z0-9]] characters. *)
Fixpoint all_alnum (s : string) : bool :=
  match s with
  | EmptyString => true
  | String c s' => Str.is_alnum c && all_alnum s'
  end.

Definition is_run (r : string) : Prop := r ≠ EmptyString ∧ all_alnum r = true.

(** No two adjacent underscores; [prev] tells that an underscore precedes. *)
Fixpoint single_underscores (prev : bool) (s : string) : bool :=
  match s with
  | EmptyString => true
  | String c s' =>
      if Ascii.eqb c Str.underscore then negb prev && single_underscores true s'
      else single_underscores false s'
  end.

(** ** Vocabulary for the properties of the executor *)

(** Every state a sequence of effects passes through, the first included. *)
Fixpoint trace (l : list action) (w : world) : list world :=
  match l with
  | [] => [w]
  | a :: l' => w :: trace l' (step a w)
  end.

(** The validation block accepts the file. *)
Definition is_valid (f : file) : bool :=
  match validate f with
  | inr _ => true
  | inl _ => false
  end.

(** The success flag of an outcome; a re-raised interrupt carries none. *)
Definition succeeded (o : outcome) : bool :=
  match o with
  | Return _ success _ => success
  | Raise_KeyboardInterrupt => false
  end.

(** What the worker has left at [tmp_path] once [communicate] is over. *)
Definition worker_output (platform : string) (wk : worker) (w : world) : option file :=
  let tmp_path := tmp_name (platform_to_filename platform) in
  match wk with
  | PopenRaises => None
  | Runs writes _ =>
      w_fs (exec ([AUnlink tmp_path; ASpawn] ++ (AWorkerWrite tmp_path <$> writes)) w)
        !! tmp_path
  end.

(** A store whose every file at a platform's canonical path is a valid
    artifact. *)
Definition store_ok (fs : store) : Prop :=
  ∀ q f, fs !! platform_to_filename q = Some f → is_valid f = true.

(** The effects that touch no file but [tmp]. *)
Definition tame (tmp : string) (a : action) : Prop :=
  match a with
  | AUnlink p => p = tmp
  | AWorkerWrite p _ => p = tmp
  | ARename _ _ => False
  | ASpawn | AKill => True
  end.

(** The number of [Popen] calls and of kills in a sequence of effects. *)
Fixpoint count_spawn (l : list action) : nat :=
  match l with
  | [] => 0
  | ASpawn :: l' => S (count_spawn l')
  | _ :: l' => count_spawn l'
  end.

Fixpoint count_kill (l : list action) : nat :=
  match l with
  | [] => 0
  | AKill :: l' => S (count_kill l')
  | _ :: l' => count_kill l'
  end.

(** The last character of a string. *)
Fixpoint last_char (s : string) : option ascii :=
  match s with
  | EmptyString => None
  | String c s' =>
      match last_char s' with
      | None => Some c
      | Some d => Some d
      end
  end.

(** The contents a worker leaves behind, none when [Popen] raised. *)
Definition writes_of (wk : worker) : list (option file) :=
  match wk with
  | PopenRaises => []
  | Runs writes _ => writes
  end.

(** The process a call starts: none when [Popen] raised. *)
Definition spawn_of (wk : worker) : list action :=
  match wk with
  | PopenRaises => []
  | Runs _ _ => [ASpawn]
  end.

(** The effects of a call up to the return of [communicate]. *)
Definition ran (tmp : string) (wk : worker) : list action :=
  [AUnlink tmp] ++ spawn_of wk ++ (AWorkerWrite tmp <$> writes_of wk).

(** ** Sample data for the examples *)

(** A valid artifact for platform "B": the header and two sources. *)
Definition sample_artifact : file :=
  File [CSV_HEADER;
        ["B"; "Myrient"; "https://myrient.erista.me/b"; "full_set"; "No-Intro";
         "direct"; "2.1 GB"; "no"; "no"; ""; ""; "yes"; "Updated monthly"];
        ["B"; "Vimm's Lair"; "https://vimm.net/b"; "individual"; "";
         "direct"; ""; "no"; "no"; ""; ""; "no"; ""]] Eof.

(** A header-only file. *)
Definition header_only : file := File [CSV_HEADER] Eof.

(** The effects a call for platform [p] can have on the directory: those
    on its temporary file, and the rename onto its canonical name. *)
Definition call_effect (p : string) (a : action) : Prop :=
  tame (tmp_name (platform_to_filename p)) a
  ∨ a = ARename (tmp_name (platform_to_filename p)) (platform_to_filename p).

(** Another valid artifact for platform "B", with one source. *)
Definition other_artifact : file :=
  File [CSV_HEADER;
        ["B"; "Internet Archive"; "https://archive.org/details/b"; "full_set"; "Redump";
         "torrent"; "450 MB"; "no"; "yes"; "yes"; ""; "yes"; ""]] Eof.

(** ** Vocabulary for the properties of the aggregator *)

(** The files the aggregator reads: the [*.csv] names in sorted order,
    the combined file left out. *)
Definition scanned (fs : store) : list string :=
  filter (λ n, n ≠ COMBINED_CSV) (glob_csv fs).

(** The records read from the file called [n]. *)
Definition read_rows (fs : store) (n : string) : list dict :=
  match fs !! n with
  | Some f => dict_rows f
  | None => []
  end.

(** Reading the file called [n] ends with an exception. *)
Definition read_raises (fs : store) (n : string) : Prop :=
  ∃ f, fs !! n = Some f ∧ file_end f = Raises.

Global Instance read_raises_dec fs n : Decision (read_raises fs n).
Proof.
  unfold read_raises. destruct (fs !! n) as [f|].
  - destruct (decide (file_end f = Raises)).
    + left. by exists f.
    + right. intros (f' & [= <-] & ?). done.
  - right. by intros (f' & ? & _).
Defined.

(** The order of names used by [sorted]. *)
Definition name_le (a b : string) : Prop := String.leb a b = true.

(** A combined file left by an earlier aggregation. *)
Definition stale_combined : file :=
  File [CSV_HEADER;
        ["Old"; "Gone"; "https://example.org/old"; "full_set"; ""; "direct"; "";
         "no"; "no"; ""; ""; "no"; ""]] Eof.

(** A file that cannot be opened or decoded. *)
Definition unreadable : file := File [] Raises.

(** A file whose third line makes the reader raise. *)
Definition breaks_midway : file :=
  File [CSV_HEADER;
        ["Z"; "Half"; "https://example.org/z"; "individual"; ""; "direct"; "";
         "no"; "no"; ""; ""; "no"; ""]] Raises.

(** ** Vocabulary for the properties of the pool loop *)

(** The futures in flight. *)
Definition in_flight (s : Pool.state) : list nat := (Pool.pending s).*1.

(** Futures are distinct and were numbered when submitted. *)
Definition futures_ok (s : Pool.state) : Prop :=
  NoDup (in_flight s) ∧ ∀ f, f ∈ in_flight s → f < length (Pool.submitted s).

(** The state before the future [f] is looked at: [pending.pop(future)]
    and the counters. *)
Definition popped (s : Pool.state) (done : nat * bool) : Pool.state :=
  Pool.State (filter (λ fp, fp.1 ≠ done.1) (Pool.pending s)) (Pool.remaining_iter s)
             (Pool.submitted s) (S (Pool.completed s))
             (if done.2 then S (Pool.successes s) else Pool.successes s)
             (if done.2 then Pool.failures s else S (Pool.failures s)).

(** The pool is saturated: nothing is left to submit, or [k] futures are in
    flight. *)
Definition saturated (k : nat) (s : Pool.state) : Prop :=
  Pool.remaining_iter s = [] ∨ length (in_flight s) = k.

(** The platforms are submitted in the order of [names]. *)
Definition in_order (names : list string) (s : Pool.state) : Prop :=
  Pool.submitted s ++ Pool.remaining_iter s = names.

(** A worker that first leaves a header-only file and then the finished
    one, and exits. *)
Definition slow_writer : worker :=
  Runs [Some header_only; Some sample_artifact] (Exited 0 "").

(** A worker that has written half a file when the time limit strikes. *)
Definition stuck_writer : worker := Runs [Some header_only] TimeoutExpired.

(** Stores for the examples. *)
Definition store_b : store := {[ "b.csv" := sample_artifact ]}.
Definition store_a : store := {[ "a.csv" := other_artifact ]}.
Definition store_b_unreadable : store := <["z.csv" := unreadable]> store_b.
Definition store_b_breaks : store := <["z.csv" := breaks_midway]> store_b.

(** ** The executor, one effect at a time *)

(** Where a call of [process_platform] stands.  The directory is read at
    [AtExists] ([tmp_path.exists()]), at [AtValidate] (the file is opened and
    read through) and at [AtRename]; between two of these points other calls
    running in the pool may act. *)
Inductive pc :=
| AtStart                                  (* before the first [unlink] *)
| AtPopen                                  (* before [subprocess.Popen] *)
| Running (writes : list (option file)) (ret : communicate)
                                           (* inside [communicate] *)
| AtExists (stderr : string)               (* before [tmp_path.exists()] *)
| AtValidate                               (* before [open(tmp_path)] *)
| AtRename (n : nat)                       (* before [tmp_path.rename] *)
| AtCleanup (kill : bool) (out : outcome)  (* before the closing [unlink] *)
| Finished (out : outcome).

(** The next step of the call for [platform] against the worker [wk].  A
    file that vanished between [exists()] and [open] makes [open] raise
    (caught as an invalid CSV); one that vanished before [rename] makes
    [rename] raise (caught by [except Exception]). *)
Definition thread_step (platform : string) (wk : worker) (c : pc) (w : world) : pc * world :=
  let filename := platform_to_filename platform in
  let output_path := filename in
  let tmp_path := tmp_name filename in
  match c with
  | AtStart => (AtPopen, step (AUnlink tmp_path) w)
  | AtPopen =>
      match wk with
      | PopenRaises => (AtCleanup false (Return platform false ErrorMsg), w)
      | Runs writes ret => (Running writes ret, step ASpawn w)
      end
  | Running (content :: writes) ret =>
      (Running writes ret, step (AWorkerWrite tmp_path content) w)
  | Running [] ret =>
      match ret with
      | TimeoutExpired => (AtCleanup true (Return platform false TimeoutMsg), w)
      | KeyboardInterrupt => (AtCleanup true Raise_KeyboardInterrupt, w)
      | OtherError => (AtCleanup false (Return platform false ErrorMsg), w)
      | Exited _ stderr => (AtExists stderr, w)
      end
  | AtExists stderr =>
      match w_fs w !! tmp_path with
      | None => (AtCleanup false (Return platform false (Failed (stderr_message stderr))), w)
      | Some _ => (AtValidate, w)
      end
  | AtValidate =>
      match w_fs w !! tmp_path with
      | None => (AtCleanup false (Return platform false InvalidCsv), w)
      | Some f =>
          match validate f with
          | inl msg => (AtCleanup false (Return platform false msg), w)
          | inr n => (AtRename n, w)
          end
      end
  | AtRename n =>
      match w_fs w !! tmp_path with
      | None => (AtCleanup false (Return platform false ErrorMsg), w)
      | Some _ =>
          (Finished (Return platform true (Created filename n)),
           step (ARename tmp_path output_path) w)
      end
  | AtCleanup kill out =>
      (Finished out, exec ((if kill then [AKill] else []) ++ [AUnlink tmp_path]) w)
  | Finished out => (Finished out, w)
  end.

(** [n] steps of one call with nothing else running. *)
Fixpoint run_alone (n : nat) (platform : string) (wk : worker) (c : pc) (w : world)
  : pc * world :=
  match n with
  | 0 => (c, w)
  | S n' =>
      let '(c', w') := thread_step platform wk c w in
      run_alone n' platform wk c' w'
  end.

(** A call in flight in the pool. *)
Record thread := Thread { th_platform : string; th_worker : worker; th_pc : pc }.

(** The calls in flight and the machine they share. *)
Abbreviation config := (list thread * world)%type.

(** The call number [i] takes its next step. *)
Definition pool_step (cfg : config) (i : nat) : config :=
  match cfg.1 !! i with
  | None => cfg
  | Some t =>
      let '(c', w') := thread_step (th_platform t) (th_worker t) (th_pc t) cfg.2 in
      (<[i := Thread (th_platform t) (th_worker t) c']> cfg.1, w')
  end.

(** An interleaving: the calls step in the order [schedule] names them. *)
Definition run_schedule (schedule : list nat) (cfg : config) : config :=
  foldl pool_step cfg schedule.

(** Every configuration an interleaving passes through. *)
Fixpoint configs (schedule : list nat) (cfg : config) : list config :=
  match schedule with
  | [] => [cfg]
  | i :: schedule' => cfg :: configs schedule' (pool_step cfg i)
  end.

(** A call about to rename has a validated file at its temporary path. *)
Definition thread_ok (w : world) (t : thread) : Prop :=
  match th_pc t with
  | AtRename _ =>
      ∃ f, w_fs w !! tmp_name (platform_to_filename (th_platform t)) = Some f
           ∧ is_valid f = true
  | _ => True
  end.

(** The calls in flight have pairwise distinct filename keys. *)
Definition keys_distinct (ts : list thread) : Prop :=
  NoDup (platform_to_filename ∘ th_platform <$> ts).

(** The invariant of the commit protocol across the pool. *)
Definition config_ok (cfg : config) : Prop :=
  store_ok (w_fs cfg.2) ∧ Forall (thread_ok cfg.2) cfg.1.

(** Two calls for names with the same key: the first worker delivers a
    valid file, the second a header-only one. *)
Definition colliding_calls : list thread :=
  [Thread "Sega CD" (Runs [Some sample_artifact] (Exited 0 "")) AtStart;
   Thread "Sega-CD" (Runs [Some header_only] (Exited 0 "")) AtStart].

(** The second call starts its worker; the first runs up to its rename;
    the second worker writes; the first renames; the second finishes. *)
Definition colliding_schedule : list nat :=
  [1; 1; 0; 0; 0; 0; 0; 0; 1; 0; 1; 1; 1].

(** ** Vocabulary for further properties *)

(** A character of a safe file name: [[a-z0-9_]]. *)
Definition safe_char (c : ascii) : bool :=
  Str.is_alnum c || Ascii.eqb c Str.underscore.

(** Every character is safe. *)
Fixpoint all_safe (s : string) : bool :=
  match s with
  | EmptyString => true
  | String c s' => safe_char c && all_safe s'
  end.

(** The lines after the header of the file called [n], as the reader
    tokenised them. *)
Definition data_lines (fs : store) (n : string) : list (list string) :=
  match fs !! n with
  | Some f => tail (file_lines f)
  | None => []
  end.

(** A store with the artifacts of two platforms. *)
Definition store_ab : store := <["a.csv" := other_artifact]> store_b.

(** The bookkeeping of the pool loop: the counters agree with each other
    and with the futures in flight, what was submitted is what the iterator
    has yielded (the empty name apart), and [pending] maps every future to
    the platform it was submitted for. *)
Definition accounted (names : list string) (s : Pool.state) : Prop :=
  Pool.completed s = Pool.successes s + Pool.failures s
  ∧ Pool.completed s + length (Pool.pending s) = length (Pool.submitted s)
  ∧ (∃ consumed, names = consumed ++ Pool.remaining_iter s
       ∧ Pool.submitted s = filter (λ p, p ≠ "") consumed)
  ∧ (∀ f p, (f, p) ∈ Pool.pending s → Pool.submitted s !! f = Some p).

(** The pool of two workers over three names, after the first future has
    finished with success. *)
Definition pool_after_first : Pool.state :=
  foldl Pool.handle (Pool.initial 2 ["A"; "B"; "C"]) [(0, true)].

(** * The sibling script [scrape_all_emulators.py] *)

(** The script shares [platform_to_filename], [is_done] and the shape of
    [main] with [scrape_rom_sources.py]; its executor and its selection
    differ and are embedded here. *)
Module Emulators.

(** [mappings] of [platform_to_search_name]. *)
Definition mappings : list (string * string) :=
  [("Nintendo Entertainment System", "Nintendo_Entertainment_System");
   ("Super Nintendo Entertainment System", "Super_Nintendo_Entertainment_System");
   ("Sony Playstation", "PlayStation");
   ("Sony Playstation 2", "PlayStation_2");
   ("Sony Playstation 3", "PlayStation_3");
   ("Sony Playstation 4", "PlayStation_4");
   ("Sony Playstation 5", "PlayStation_5");
   ("Sony PSP", "PlayStation_Portable");
   ("Sony Playstation Vita", "PlayStation_Vita");
   ("Sega Genesis", "Sega_Genesis");
   ("Sega Dreamcast", "Dreamcast");
   ("Sega Saturn", "Sega_Saturn");
   ("Sega Master System", "Master_System");
   ("Sega Game Gear", "Master_System/Game_Gear");
   ("Microsoft Xbox", "Xbox");
   ("Microsoft Xbox 360", "Xbox_360");
   ("Microsoft Xbox One", "Xbox_One");
   ("NEC TurboGrafx-16", "PC_Engine_(TurboGrafx-16)");
   ("NEC TurboGrafx-CD", "PC_Engine_(TurboGrafx-16)");
   ("Commodore Amiga", "Amiga");
   ("Commodore 64", "Commodore_64");
   ("Atari 2600", "Atari_2600");
   ("Atari 5200", "Atari_5200");
   ("Atari 7800", "Atari_7800");
   ("Atari Jaguar", "Atari_Jaguar");
   ("Atari Lynx", "Atari_Lynx");
   ("Atari ST", "Atari_ST");
   ("SNK Neo Geo AES", "Neo_Geo");
   ("SNK Neo Geo MVS", "Neo_Geo");
   ("SNK Neo Geo CD", "Neo_Geo");
   ("SNK Neo Geo Pocket", "Neo_Geo_Pocket");
   ("SNK Neo Geo Pocket Color", "Neo_Geo_Pocket")].

(** [s.replace(a, b)] for one-character strings [a] and [b]. *)
Fixpoint replace_char (a b : ascii) (s : string) : string :=
  match s with
  | EmptyString => EmptyString
  | String c s' => String (if Ascii.eqb c a then b else c) (replace_char a b s')
  end.

(** [platform_to_search_name(platform)]: the table entry, else spaces and
    hyphens replaced by underscores. *)
Definition platform_to_search_name (platform : string) : string :=
  match filter (λ kv, kv.1 = platform) mappings with
  | kv :: _ => kv.2
  | [] => replace_char "-" "_" (replace_char " " "_" platform)
  end.

(** The messages of this script's [process_platform]. *)
Inductive message :=
| WouldProcess (filename : string)
| Created (filename : string)
| Failed (error : string)
| TimeoutMsg
| ErrorMsg.

(** What a call produces: its returned triple, or the [KeyboardInterrupt]
    that no handler of the script catches. *)
Inductive outcome :=
| Return (platform : string) (success : bool) (msg : message)
| Raise_KeyboardInterrupt.

Definition succeeded (o : outcome) : bool :=
  match o with
  | Return _ success _ => success
  | Raise_KeyboardInterrupt => false
  end.

(** [result.stderr[:200] if result.stderr else "Unknown error"]. *)
Definition stderr_message (stderr : string) : string :=
  match stderr with
  | EmptyString => "Unknown error"
  | _ => String.substring 0 200 stderr
  end.

(** [process_platform(platform, dry_run)]: the worker is told to write to
    [output_path] itself, and the file is not looked into.
    [subprocess.run] kills the child when its [communicate] raises. *)
Definition process_platform (platform : string) (dry_run : bool) (wk : worker) (w : world)
  : list action * outcome :=
  let filename := platform_to_filename platform in
  let output_path := filename in
  if dry_run then ([], Return platform true (WouldProcess filename)) else
  match wk with
  | PopenRaises => ([], Return platform false ErrorMsg)
  | Runs writes ret =>
      let ran := ASpawn :: (AWorkerWrite output_path <$> writes) in
      match ret with
      | TimeoutExpired => (ran ++ [AKill], Return platform false TimeoutMsg)
      | KeyboardInterrupt => (ran ++ [AKill], Raise_KeyboardInterrupt)
      | OtherError => (ran ++ [AKill], Return platform false ErrorMsg)
      | Exited returncode stderr =>
          if (returncode =? 0)%Z
             && bool_decide (is_Some (w_fs (exec ran w) !! output_path))
          then (ran, Return platform true (Created filename))
          else (ran, Return platform false (Failed (stderr_message stderr)))
      end
  end.

(** [get_platforms()]: the platform names, ordered by name. *)
Definition get_platforms (db : list string) : list string := sort_by id db.

(** The command line of this script's [main]. *)
Record args := Args {
  parallel : Z;
  dry_run : bool;
  platform : option string;
  combine_only : bool }.

(** [main] up to the point where it starts the workers; [AllProcessed]
    returns without aggregating. *)
Definition main_plan (a : args) (db : list string) (fs : store) : plan :=
  if combine_only a then CombineOnly else
  let platforms := get_platforms db in
  let selected :=
    match given (platform a) with
    | Some p => if bool_decide (p ∈ platforms) then Some [p] else None
    | None => Some (filter (λ p, is_done fs p = false) platforms)
    end in
  match selected with
  | None => NotFound
  | Some [] => AllProcessed
  | Some remaining => if dry_run a then DryRun remaining else Process remaining
  end.

End Emulators.

(** What a worker told to write to one path leaves there, over the
    content [prev] the path had. *)
Definition last_written (writes : list (option file)) (prev : option file) : option file :=
  default prev (last writes).

(** Whether the character [c] occurs in [s]. *)
Fixpoint has_char (c : ascii) (s : string) : bool :=
  match s with
  | EmptyString => false
  | String d s' => Ascii.eqb d c || has_char c s'
  end.

(** * Properties *)

(** ** The order on names *)

Lemma compare_le_trans (s1 s2 s3 : string) :
  String.compare s1 s2 ≠ Gt → String.compare s2 s3 ≠ Gt → String.compare s1 s3 ≠ Gt.
Proof.
  revert s2 s3. induction s1 as [|a s1 IH]; intros [|b s2] [|c s3]; simpl; try congruence.
  unfold Ascii.compare.
  destruct (N.compare_spec (N_of_ascii a) (N_of_ascii b)) as [E1|L1|G1];
    destruct (N.compare_spec (N_of_ascii b) (N_of_ascii c)) as [E2|L2|G2];
    try congruence; intros H1 H2.
  - rewrite E1, E2, N.compare_refl. by apply (IH s2).
  - rewrite E1. by rewrite (proj2 (N.compare_lt_iff _ _) L2).
  - rewrite <- E2. by rewrite (proj2 (N.compare_lt_iff _ _) L1).
  - assert (N_of_ascii a < N_of_ascii c)%N as L by lia.
    by rewrite (proj2 (N.compare_lt_iff _ _) L).
Qed.

Lemma leb_trans (s1 s2 s3 : string) :
  String.leb s1 s2 = true → String.leb s2 s3 = true → String.leb s1 s3 = true.
Proof.
  unfold String.leb. intros H1 H2.
  pose proof (compare_le_trans s1 s2 s3) as H.
  destruct (String.compare s1 s2), (String.compare s2 s3), (String.compare s1 s3);
    try done; exfalso; by apply H.
Qed.

Lemma leb_refl (s : string) : String.leb s s = true.
Proof. by destruct (String.leb_total s s). Qed.

(** ** The sort *)

Section Sort.
Context {A : Type} (key : A → string).

Lemma insert_sorted_perm (x : A) (l : list A) : insert_sorted key x l ≡ₚ x :: l.
Proof.
  induction l as [|y l IH]; simpl; [done|].
  destruct (String.leb (key x) (key y)); [done|].
  rewrite IH. apply Permutation_swap.
Qed.

Lemma sort_by_perm (l : list A) : sort_by key l ≡ₚ l.
Proof.
  induction l as [|x l IH]; simpl; [done|].
  rewrite insert_sorted_perm. by rewrite IH.
Qed.

Lemma insert_sorted_sorted (x : A) (l : list A) :
  StronglySorted (key_le key) l → StronglySorted (key_le key) (insert_sorted key x l).
Proof.
  induction 1 as [|y l Hs IH Hall]; simpl.
  - repeat constructor.
  - destruct (String.leb (key x) (key y)) eqn:E.
    + constructor; [by constructor|].
      constructor; [done|].
      eapply Forall_impl; [exact Hall|]. intros z Hz. by eapply leb_trans.
    + constructor; [done|].
      rewrite insert_sorted_perm. constructor; [|done].
      unfold key_le. by destruct (String.leb_total (key x) (key y)) as [H|H]; [congruence|].
Qed.

Lemma sort_by_sorted (l : list A) : StronglySorted (key_le key) (sort_by key l).
Proof.
  induction l as [|x l IH]; simpl; [constructor|]. by apply insert_sorted_sorted.
Qed.

Lemma elem_of_sort_by (x : A) (l : list A) : x ∈ sort_by key l ↔ x ∈ l.
Proof. by rewrite sort_by_perm. Qed.

End Sort.

(** ** The filename key on examples *)

Example platform_to_filename_genesis :
  platform_to_filename "Sega Genesis" = "sega_genesis.csv".
Proof. reflexivity. Qed.

Example platform_to_filename_xbox :
  platform_to_filename "Microsoft Xbox Series X/S" = "microsoft_xbox_series_x_s.csv".
Proof. reflexivity. Qed.

Example platform_to_filename_punct :
  platform_to_filename "__NEC  TurboGrafx-16!" = "nec_turbografx_16.csv".
Proof. reflexivity. Qed.

Lemma StronglySorted_filter {A} (R : relation A) (P : A → Prop) `{!∀ x, Decision (P x)}
    (l : list A) :
  StronglySorted R l → StronglySorted R (filter P l).
Proof.
  induction 1 as [|x l Hs IH Hall]; [constructor|].
  rewrite filter_cons. case_decide; [|done].
  constructor; [done|].
  apply Forall_forall. intros y [_ Hy]%list_elem_of_filter.
  by eapply Forall_forall in Hall.
Qed.

(** ** The task enumerator *)

Lemma eligible_filter (db : catalog) (m : Z) :
  eligible db m =
  filter (λ nc, (m ≤ nc.2)%Z ∧ nc.1 ∉ SKIP_PLATFORMS) (sort_by fst db).
Proof.
  unfold eligible, get_platforms. rewrite list_filter_filter.
  apply list_filter_iff. intros [name count]; simpl. tauto.
Qed.

Lemma elem_of_eligible (db : catalog) (m : Z) (nc : string * Z) :
  nc ∈ eligible db m ↔ nc ∈ db ∧ (m ≤ nc.2)%Z ∧ nc.1 ∉ SKIP_PLATFORMS.
Proof. rewrite eligible_filter, list_elem_of_filter, elem_of_sort_by. tauto. Qed.

(** C6. The task enumerator yields exactly the catalog entries whose weight
    reaches the minimum and whose name is not in the skip set, in the
    catalog's order by ascending name; the catalog [("A",5); ("B",40);
    ("C",2)] with minimum weight 10 yields exactly ["B"]. *)
Theorem C6_enumerator_eligible (db : catalog) (min_weight : Z) :
  (∀ nc, nc ∈ eligible db min_weight ↔
         nc ∈ db ∧ (min_weight ≤ nc.2)%Z ∧ nc.1 ∉ SKIP_PLATFORMS)
  ∧ eligible db min_weight `sublist_of` sort_by fst db
  ∧ sort_by fst db ≡ₚ db
  ∧ StronglySorted (λ a b, String.leb a b = true) (eligible db min_weight).*1
  ∧ (eligible [("A", 5%Z); ("B", 40%Z); ("C", 2%Z)] 10).*1 = ["B"].
Proof.
  split; [apply elem_of_eligible|].
  rewrite eligible_filter. split; [|split; [|split]].
  - apply sublist_filter.
  - apply sort_by_perm.
  - apply (StronglySorted_fmap fst (key_le fst)); [by intros x y|].
    apply StronglySorted_filter, sort_by_sorted.
  - reflexivity.
Qed.

(** ** The single-platform override *)

Lemma first_named (p : string) (l : list (string * Z)) :
  match filter (λ nc, nc.1 = p) l with
  | [] => ∀ count, (p, count) ∉ l
  | m :: _ => m.1 = p ∧ m ∈ l
  end.
Proof.
  destruct (filter (λ nc, nc.1 = p) l) as [|m t] eqn:E.
  - intros count Hin.
    assert ((p, count) ∈ filter (λ nc, nc.1 = p) l) as H
      by by apply list_elem_of_filter.
    rewrite E in H. by apply not_elem_of_nil in H.
  - assert (m ∈ filter (λ nc, nc.1 = p) l) as H by (rewrite E; left).
    by apply list_elem_of_filter in H.
Qed.

Lemma find_platform_spec (db : catalog) (m : Z) (p : string) :
  match find_platform db m p with
  | Some (name, how) =>
      name = p
      ∧ (∃ count, (p, count) ∈ db ∧ (m ≤ count)%Z)
      ∧ how = (if decide (p ∈ SKIP_PLATFORMS) then ForceIncluded else Normal)
  | None => ∀ count, (p, count) ∈ db → ¬ (m ≤ count)%Z
  end.
Proof.
  unfold find_platform.
  pose proof (first_named p (eligible db m)) as He.
  pose proof (first_named p (get_platforms db m)) as Hg.
  pose proof (elem_of_eligible db m) as Hel.
  assert (∀ nc, nc ∈ get_platforms db m ↔ nc ∈ db ∧ (m ≤ nc.2)%Z) as Hgp.
  { intros nc. unfold get_platforms. rewrite list_elem_of_filter, elem_of_sort_by. tauto. }
  destruct (filter _ (eligible db m)) as [|[n c] t].
  - destruct (filter _ (get_platforms db m)) as [|[n c] t]; simpl in *.
    + intros count Hin Hle. apply (Hg count), Hgp. done.
    + destruct Hg as [-> Hin]. apply Hgp in Hin as [Hin Hle].
      split; [done|]. split; [by exists c|].
      case_decide; [done|]. exfalso. apply (He c), Hel. done.
  - simpl in *. destruct He as [-> Hin]. apply Hel in Hin as (Hin & Hle & Hskip).
    split; [done|]. split; [by exists c|]. by case_decide.
Qed.

(** C7, as the code has it.  The override is in force when the run is not
    combine-only and [--platform] names a non-empty platform.  It then
    accepts a platform that has a catalog entry reaching the minimum game
    count, also when it is in the skip set, and tells the two cases apart
    (the note is printed for a skipped platform only).  [main] leaves with
    status 1 exactly when the override is in force and no catalog entry of
    that name reaches the minimum game count.  An empty name is no
    override: the run is the normal one; and a combine-only run does not
    look at the name. *)
Theorem C7_override_accepts (a : args) (db : catalog) (fs : store) :
  (combine_only a = true → main_plan a db fs = CombineOnly)
  ∧ (combine_only a = false → platform a = None ∨ platform a = Some "" →
     main_plan a db fs ≠ NotFound
     ∧ main_plan a db fs
       = main_plan (Args (parallel a) (dry_run a) None false (min_games a) (limit a))
                   db fs)
  ∧ (∀ p, combine_only a = false → platform a = Some p → p ≠ "" →
     ((∃ count, (p, count) ∈ db ∧ (min_games a ≤ count)%Z) →
        find_platform db (min_games a) p
          = Some (p, if decide (p ∈ SKIP_PLATFORMS) then ForceIncluded else Normal)
        ∧ main_plan a db fs = (if dry_run a then DryRun [p] else Process [p]))
     ∧ (main_plan a db fs = NotFound ↔
        ¬ ∃ count, (p, count) ∈ db ∧ (min_games a ≤ count)%Z))
  ∧ (main_plan a db fs = NotFound ↔
     combine_only a = false
     ∧ ∃ p, platform a = Some p ∧ p ≠ ""
            ∧ ¬ ∃ count, (p, count) ∈ db ∧ (min_games a ≤ count)%Z).
Proof.
  assert (combine_only a = false → given (platform a) = None →
          main_plan a db fs ≠ NotFound
          ∧ main_plan a db fs
            = main_plan (Args (parallel a) (dry_run a) None false (min_games a) (limit a))
                        db fs) as Hnormal.
  { intros Hc Hg. unfold main_plan. rewrite Hc, Hg.
    cbn [combine_only platform given min_games limit dry_run]. split; [|done].
    destruct (apply_limit _ _); [done|]. by destruct (dry_run a). }
  assert (∀ p, combine_only a = false → given (platform a) = Some p →
     ((∃ count, (p, count) ∈ db ∧ (min_games a ≤ count)%Z) →
        find_platform db (min_games a) p
          = Some (p, if decide (p ∈ SKIP_PLATFORMS) then ForceIncluded else Normal)
        ∧ main_plan a db fs = (if dry_run a then DryRun [p] else Process [p]))
     ∧ (main_plan a db fs = NotFound ↔
        ¬ ∃ count, (p, count) ∈ db ∧ (min_games a ≤ count)%Z)) as Hover.
  { intros p Hc Hp. unfold main_plan. rewrite Hc, Hp.
    pose proof (find_platform_spec db (min_games a) p) as H.
    assert (apply_limit (limit a) [p] = [p]) as Hl.
    { unfold apply_limit. destruct (0 <? limit a)%Z eqn:E; [|done].
      apply Z.ltb_lt in E. rewrite take_ge; [done|simpl; lia]. }
    destruct (find_platform db (min_games a) p) as [[name how]|].
    - destruct H as (-> & Hex & ->). rewrite Hl. split.
      + done.
      + split; [by destruct (dry_run a)|]. intros Hn. by destruct Hn.
    - split.
      + intros (count & Hin & Hle). by destruct (H count).
      + split; [|done]. intros _ (count & Hin & Hle). by apply (H count). }
  assert (∀ p, platform a = Some p → p ≠ "" → given (platform a) = Some p) as Hgiven.
  { intros p -> Hp. by destruct p. }
  split; [|split; [|split]].
  - intros Hc. unfold main_plan. by rewrite Hc.
  - intros Hc [Hp|Hp]; apply Hnormal; try done; by rewrite Hp.
  - intros p Hc Hp Hne. apply Hover; [done|]. by apply Hgiven.
  - split.
    + intros Hnf. destruct (combine_only a) eqn:Hc.
      { unfold main_plan in Hnf. by rewrite Hc in Hnf. }
      split; [done|].
      destruct (platform a) as [p|] eqn:Hp.
      * destruct (decide (p = "")) as [->|Hne].
        -- exfalso. by apply (proj1 (Hnormal eq_refl eq_refl)).
        -- exists p. split; [done|]. split; [done|].
           apply (proj2 (Hover p eq_refl (Hgiven p eq_refl Hne))). done.
      * exfalso. by apply (proj1 (Hnormal eq_refl eq_refl)).
    + intros (Hc & p & Hp & Hne & Hno).
      by apply (proj2 (Hover p Hc (Hgiven p Hp Hne))).
Qed.

(** The witness of C7: ["Windows"], skipped but in the catalog with 50
    games, is force-included. *)
Lemma C7_override_accepts_witness :
  find_platform [("Windows", 50%Z)] 10 "Windows" = Some ("Windows", ForceIncluded)
  ∧ main_plan (Args 1 false (Some "Windows") false 10 0) [("Windows", 50%Z)] ∅
    = Process ["Windows"].
Proof.
  pose proof (C7_override_accepts (Args 1 false (Some "Windows") false 10 0)
                [("Windows", 50%Z)] ∅) as (_ & _ & H & _).
  refine (proj1 (H "Windows" eq_refl eq_refl _) _); [discriminate|].
  exists 50%Z. split; [by apply list_elem_of_singleton | simpl; lia].
Defined.

(** C7 as stated fails: a platform that is in the catalog below the minimum
    game count is reported as not found. *)
Lemma C7_counterexample :
  ¬ (∀ (a : args) (db : catalog) (fs : store) (p : string),
       combine_only a = false → given (platform a) = Some p →
       (main_plan a db fs = NotFound ↔ p ∉ db.*1)).
Proof.
  intros H.
  specialize (H (Args 1 false (Some "A") false 10 0) [("A", 5%Z)] ∅ "A" eq_refl eq_refl).
  apply (proj1 H); [reflexivity|]. by apply list_elem_of_singleton.
Qed.

(** ** The filename key *)

Lemma alnum_not_underscore (c : ascii) :
  Str.is_alnum c = true → Ascii.eqb c Str.underscore = false.
Proof. destruct c as [[] [] [] [] [] [] [] []]; vm_compute; congruence. Qed.

Lemma sub_non_alnum_single (b : bool) (s : string) :
  single_underscores b (Str.sub_non_alnum b s) = true.
Proof.
  revert b. induction s as [|c s IH]; intros b; simpl; [done|].
  destruct (Str.is_alnum c) eqn:E; simpl.
  - by rewrite (alnum_not_underscore c E).
  - destruct b; simpl; [done|]. apply IH.
Qed.

Lemma sub_underscores_id (b : bool) (s : string) :
  single_underscores b s = true → Str.sub_underscores b s = s.
Proof.
  revert b. induction s as [|c s IH]; intros b; simpl; [done|].
  destruct (Ascii.eqb c Str.underscore) eqn:E.
  - apply Ascii.eqb_eq in E as ->. destruct b; simpl; [done|].
    intros H. by rewrite IH.
  - intros H. by rewrite IH.
Qed.

Lemma lstrip_sub_in_run (s : string) :
  Str.lstrip (Str.sub_non_alnum true s) = Str.sub_non_alnum true s.
Proof.
  induction s as [|c s IH]; simpl; [done|].
  destruct (Str.is_alnum c) eqn:E; simpl; [|done].
  by rewrite (alnum_not_underscore c E).
Qed.

Lemma lstrip_sub_non_alnum (b : bool) (s : string) :
  Str.lstrip (Str.sub_non_alnum b s) = Str.sub_non_alnum true s.
Proof.
  destruct s as [|c s]; simpl; [done|].
  destruct (Str.is_alnum c) eqn:E; simpl.
  - by rewrite (alnum_not_underscore c E).
  - destruct b; simpl; apply lstrip_sub_in_run.
Qed.

Lemma platform_slug_rstrip (p : string) :
  platform_slug p = Str.rstrip (Str.sub_non_alnum true (Str.lower p)).
Proof.
  unfold platform_slug, Str.strip.
  rewrite sub_underscores_id by apply sub_non_alnum_single.
  by rewrite lstrip_sub_non_alnum.
Qed.

Lemma push_char_runs (c : ascii) (b : bool) (rs : list string) :
  Str.is_alnum c = true → Forall is_run rs → Forall is_run (push_char c b rs).
Proof.
  intros Hc Hrs. unfold push_char.
  destruct b; [destruct Hrs as [|r rs [Hr1 Hr2] Hrs]|];
    repeat constructor; simpl; try done; by rewrite Hc.
Qed.

Lemma alnum_runs_are_runs (s : string) : Forall is_run (alnum_runs s).
Proof.
  induction s as [|c s IH]; simpl; [constructor|].
  destruct (Str.is_alnum c) eqn:E; [by apply push_char_runs|done].
Qed.

Lemma alnum_runs_starts (s : string) : starts_alnum s = true → alnum_runs s ≠ [].
Proof.
  destruct s as [|c s]; simpl; [done|]. intros ->.
  unfold push_char. by destruct (starts_alnum s), (alnum_runs s).
Qed.

Lemma join_cons_char (c : ascii) (r : string) (rs : list string) :
  join (String c r :: rs) = String c (join (r :: rs)).
Proof. simpl. by destruct rs. Qed.

Lemma join_run_nonempty (r : string) (rs : list string) :
  r ≠ EmptyString → join (r :: rs) ≠ EmptyString.
Proof. destruct r as [|c r]; [done|]. intros _. by rewrite join_cons_char. Qed.

Lemma rstrip_sub_runs (s : string) :
  Str.rstrip (Str.sub_non_alnum true s) = join (alnum_runs s)
  ∧ Str.rstrip (Str.sub_non_alnum false s) =
      (if starts_alnum s then join (alnum_runs s)
       else match alnum_runs s with
            | [] => EmptyString
            | rs => String Str.underscore (join rs)
            end).
Proof.
  induction s as [|c s [IHt IHf]]; simpl; [done|].
  pose proof (alnum_runs_are_runs s) as Hruns.
  destruct (Str.is_alnum c) eqn:E; simpl.
  - rewrite IHf, (alnum_not_underscore c E). unfold push_char.
    pose proof (alnum_runs_starts s) as Hne.
    destruct (starts_alnum s).
    + destruct Hruns as [|r rs [Hr _] _]; [by destruct Hne|].
      rewrite join_cons_char.
      pose proof (join_run_nonempty r rs Hr).
      by destruct (join (r :: rs)).
    + by destruct (alnum_runs s).
  - split; [done|]. rewrite IHt.
    destruct Hruns as [|r rs [Hr _] _]; [done|].
    pose proof (join_run_nonempty r rs Hr).
    destruct (join (r :: rs)) eqn:Ej; [done|]. simpl in Ej. by rewrite Ej.
Qed.

Lemma platform_slug_runs (p : string) :
  platform_slug p = join (alnum_runs (Str.lower p)).
Proof. rewrite platform_slug_rstrip. apply rstrip_sub_runs. Qed.

Lemma alnum_runs_app_run (r t : string) :
  is_run r → starts_alnum t = false → alnum_runs (r +:+ t) = r :: alnum_runs t.
Proof.
  intros [Hne Hall] Ht. induction r as [|c r IH]; [done|].
  simpl in Hall. apply andb_true_iff in Hall as [Hc Hall].
  change (String c r +:+ t) with (String c (r +:+ t)). simpl. rewrite Hc.
  destruct r as [|c' r].
  - change (EmptyString +:+ t) with t. by rewrite Ht.
  - rewrite IH by done.
    change (String c' r +:+ t) with (String c' (r +:+ t)). simpl.
    simpl in Hall. apply andb_true_iff in Hall as [-> _]. done.
Qed.

Lemma append_empty_r (s : string) : s +:+ EmptyString = s.
Proof.
  induction s as [|c s IH]; [done|].
  change (String c s +:+ EmptyString) with (String c (s +:+ EmptyString)). by rewrite IH.
Qed.

Lemma alnum_runs_join (rs : list string) :
  Forall is_run rs → alnum_runs (join rs) = rs.
Proof.
  induction 1 as [|r rs Hr Hrs IH]; [done|].
  destruct rs as [|r' rs].
  - simpl. rewrite <- (append_empty_r r) at 1. by rewrite alnum_runs_app_run.
  - change (join (r :: r' :: rs)) with (r +:+ String Str.underscore (join (r' :: rs))).
    rewrite alnum_runs_app_run by done.
    change (alnum_runs (String Str.underscore (join (r' :: rs))))
      with (alnum_runs (join (r' :: rs))).
    by rewrite IH.
Qed.

Lemma length_append (s t : string) :
  String.length (s +:+ t) = String.length s + String.length t.
Proof.
  induction s as [|c s IH]; [done|].
  change (String c s +:+ t) with (String c (s +:+ t)). simpl. by rewrite IH.
Qed.

Lemma append_inj_l (s1 s2 t : string) : s1 +:+ t = s2 +:+ t → s1 = s2.
Proof.
  revert s2. induction s1 as [|c s1 IH]; intros [|d s2] H.
  - done.
  - exfalso. apply (f_equal String.length) in H.
    change (String d s2 +:+ t) with (String d (s2 +:+ t)) in H.
    change (EmptyString +:+ t) with t in H. simpl in H.
    rewrite length_append in H. lia.
  - exfalso. apply (f_equal String.length) in H.
    change (String c s1 +:+ t) with (String c (s1 +:+ t)) in H.
    change (EmptyString +:+ t) with t in H. simpl in H.
    rewrite length_append in H. lia.
  - change (String c s1 +:+ t) with (String c (s1 +:+ t)) in H.
    change (String d s2 +:+ t) with (String d (s2 +:+ t)) in H.
    injection H as -> H. f_equal. by apply IH.
Qed.

(** C9, as the code has it.  Two platform names get the same file name
    exactly when their lowercased names have the same sequence of maximal
    [[a-z0-9]] runs: the key ignores letter case and whatever stands
    between, before and after the runs, and tells apart any two names whose
    run sequences differ. *)
Theorem C9_key_equal_iff_runs (p q : string) :
  platform_to_filename p = platform_to_filename q ↔
  alnum_runs (Str.lower p) = alnum_runs (Str.lower q).
Proof.
  unfold platform_to_filename. rewrite !platform_slug_runs. split.
  - intros H%append_inj_l.
    rewrite <- (alnum_runs_join (alnum_runs (Str.lower p)))
      by apply alnum_runs_are_runs.
    rewrite H. apply alnum_runs_join, alnum_runs_are_runs.
  - by intros ->.
Qed.

(** C9 as stated fails: the key is not injective, "Sega CD" and "Sega-CD"
    share the file [sega_cd.csv]. *)
Lemma C9_counterexample :
  ¬ (∀ p q : string, p ≠ q → platform_to_filename p ≠ platform_to_filename q).
Proof. intros H. by apply (H "Sega CD" "Sega-CD"). Qed.

(** ** Temporary names against canonical names *)

Lemma last_char_append (s t : string) :
  t ≠ EmptyString → last_char (s +:+ t) = last_char t.
Proof.
  intros Ht. induction s as [|c s IH]; [done|].
  change (String c s +:+ t) with (String c (s +:+ t)). simpl. rewrite IH.
  destruct t as [|d t]; [done|]. simpl. by destruct (last_char t).
Qed.

Lemma endswith_unfold (s suffix : string) :
  Str.endswith s suffix =
  String.eqb s suffix ||
  match s with
  | EmptyString => false
  | String _ s' => Str.endswith s' suffix
  end.
Proof. by destruct s. Qed.

Lemma endswith_append (s suffix : string) :
  Str.endswith s suffix = true → ∃ pre, s = pre +:+ suffix.
Proof.
  induction s as [|c s IH]; rewrite endswith_unfold.
  - rewrite orb_false_r. intros ->%String.eqb_eq. by exists EmptyString.
  - intros [->%String.eqb_eq | H]%orb_true_iff; [by exists EmptyString|].
    destruct (IH H) as [pre ->]. by exists (String c pre).
Qed.

Lemma last_char_tmp_name (n : string) : last_char (tmp_name n) = Some "p"%char.
Proof.
  unfold tmp_name.
  rewrite last_char_append; [|by destruct n].
  by rewrite last_char_append.
Qed.

Lemma last_char_filename (q : string) :
  last_char (platform_to_filename q) = Some "v"%char.
Proof. unfold platform_to_filename. by rewrite last_char_append. Qed.

Lemma tmp_name_not_canonical (n q : string) : tmp_name n ≠ platform_to_filename q.
Proof.
  intros H. apply (f_equal last_char) in H.
  by rewrite last_char_tmp_name, last_char_filename in H.
Qed.

Lemma tmp_name_not_csv (n : string) : Str.endswith (tmp_name n) ".csv" = false.
Proof.
  destruct (Str.endswith (tmp_name n) ".csv") eqn:E; [|done].
  apply endswith_append in E as [pre E]. apply (f_equal last_char) in E.
  rewrite last_char_tmp_name in E. by rewrite last_char_append in E.
Qed.

(** ** Effects *)

Lemma exec_app (l1 l2 : list action) (w : world) :
  exec (l1 ++ l2) w = exec l2 (exec l1 w).
Proof. apply foldl_app. Qed.

Lemma elem_of_trace_app (l1 l2 : list action) (w w' : world) :
  w' ∈ trace (l1 ++ l2) w ↔ w' ∈ trace l1 w ∨ w' ∈ trace l2 (exec l1 w).
Proof.
  revert w. induction l1 as [|a l1 IH]; intros w; simpl.
  - split; [by right|]. intros [H|H]; [|done].
    apply list_elem_of_singleton in H as ->. destruct l2; left.
  - rewrite !elem_of_cons, IH. tauto.
Qed.

Lemma exec_in_trace (l : list action) (w : world) : exec l w ∈ trace l w.
Proof.
  revert w. induction l as [|a l IH]; intros w; simpl; [left|]. right. apply IH.
Qed.

Lemma step_tame (tmp : string) (a : action) (w : world) (n : string) :
  tame tmp a → n ≠ tmp → w_fs (step a w) !! n = w_fs w !! n.
Proof.
  destruct a as [p| |p [f|]| |s d]; simpl; try done; intros -> Hn.
  - by rewrite lookup_delete_ne.
  - by rewrite lookup_insert_ne.
  - by rewrite lookup_delete_ne.
Qed.

Lemma trace_tame (tmp : string) (l : list action) (w w' : world) (n : string) :
  Forall (tame tmp) l → w' ∈ trace l w → n ≠ tmp → w_fs w' !! n = w_fs w !! n.
Proof.
  intros Hl. revert w. induction Hl as [|a l Ha Hl IH]; intros w; simpl.
  - by intros ->%list_elem_of_singleton.
  - intros [->|H]%elem_of_cons Hn; [done|].
    rewrite (IH _ H Hn). by apply (step_tame tmp).
Qed.

Lemma exec_tame (tmp : string) (l : list action) (w : world) (n : string) :
  Forall (tame tmp) l → n ≠ tmp → w_fs (exec l w) !! n = w_fs w !! n.
Proof. intros Hl. apply (trace_tame tmp l); [done|apply exec_in_trace]. Qed.

Lemma exec_counts (l : list action) (w : world) :
  w_spawned (exec l w) = w_spawned w + count_spawn l
  ∧ w_killed (exec l w) = w_killed w + count_kill l.
Proof.
  revert w. induction l as [|a l IH]; intros w; simpl; [lia|].
  destruct (IH (step a w)) as [-> ->].
  destruct a as [p| |p [f|]| |s d]; simpl; lia.
Qed.

Lemma tame_writes (tmp : string) (writes : list (option file)) :
  Forall (tame tmp) (AWorkerWrite tmp <$> writes).
Proof. apply Forall_fmap, Forall_forall. by intros c _. Qed.

Lemma count_writes (tmp : string) (writes : list (option file)) :
  count_spawn (AWorkerWrite tmp <$> writes) = 0
  ∧ count_kill (AWorkerWrite tmp <$> writes) = 0.
Proof. induction writes as [|c writes IH]; simpl; done. Qed.

(** ** The shape of a call of [process_platform] *)

Lemma worker_output_ran (platform : string) (wk : worker) (w : world) :
  worker_output platform wk w
  = w_fs (exec (ran (tmp_name (platform_to_filename platform)) wk) w)
      !! tmp_name (platform_to_filename platform).
Proof.
  destruct wk as [|writes ret]; [|done].
  simpl. by rewrite lookup_delete_eq.
Qed.

Local Ltac fail_case ks :=
  right; split; [done|]; exists ks; split; [done|];
  split; [first [by left | by right]|]; intros ? ?; simplify_eq; done.

Lemma process_platform_shape (platform : string) (wk : worker) (w : world) :
  let outp := platform_to_filename platform in
  let tmp := tmp_name outp in
  let acts := (process_platform platform false wk w).1 in
  let out := (process_platform platform false wk w).2 in
  (∃ writes rc stderr f n,
      wk = Runs writes (Exited rc stderr)
      ∧ worker_output platform wk w = Some f
      ∧ validate f = inr n
      ∧ acts = ran tmp wk ++ [ARename tmp outp]
      ∧ out = Return platform true (Created outp n))
  ∨ (succeeded out = false
     ∧ ∃ kills, acts = ran tmp wk ++ kills ++ [AUnlink tmp]
       ∧ (kills = [] ∨ kills = [AKill])
       ∧ (∀ writes, wk = Runs writes TimeoutExpired →
            kills = [AKill] ∧ out = Return platform false TimeoutMsg)).
Proof.
  intros outp tmp acts out. subst acts out.
  destruct wk as [|writes ret].
  { fail_case (@nil action). }
  pose proof (worker_output_ran platform (Runs writes ret) w) as Hout.
  unfold process_platform, ran in *. simpl writes_of in *. fold outp tmp in Hout |- *.
  destruct ret as [rc stderr| | |].
  - destruct (w_fs (exec _ w) !! tmp) as [f|] eqn:E.
    + destruct (validate f) as [msg|n] eqn:Ev.
      * fail_case (@nil action).
      * left. by exists writes, rc, stderr, f, n.
    + fail_case (@nil action).
  - fail_case [AKill].
  - fail_case [AKill].
  - fail_case (@nil action).
Qed.

Lemma ran_tame (tmp : string) (wk : worker) : Forall (tame tmp) (ran tmp wk).
Proof. unfold ran. destruct wk; repeat constructor; apply tame_writes. Qed.

Lemma ran_counts (tmp : string) (wk : worker) :
  count_spawn (ran tmp wk) = length (spawn_of wk) ∧ count_kill (ran tmp wk) = 0.
Proof.
  unfold ran. destruct (count_writes tmp (writes_of wk)) as [Hs Hk].
  destruct wk; simpl in *; by rewrite ?Hs, ?Hk.
Qed.

Lemma count_app (l1 l2 : list action) :
  count_spawn (l1 ++ l2) = count_spawn l1 + count_spawn l2
  ∧ count_kill (l1 ++ l2) = count_kill l1 + count_kill l2.
Proof.
  induction l1 as [|a l1 [IH1 IH2]]; simpl; [done|].
  destruct a; simpl; lia.
Qed.

Lemma exec_unlink_last (tmp : string) (l : list action) (w : world) :
  Forall (tame tmp) l →
  w_fs (exec (l ++ [AUnlink tmp]) w) = delete tmp (w_fs w).
Proof.
  intros Hl. rewrite exec_app. simpl. apply map_eq. intros n.
  destruct (decide (n = tmp)) as [->|Hn].
  - by rewrite !lookup_delete_eq.
  - rewrite !lookup_delete_ne by done. by apply (exec_tame tmp).
Qed.

Lemma tame_kills (tmp : string) (kills : list action) :
  kills = [] ∨ kills = [AKill] → Forall (tame tmp) kills.
Proof. intros [->| ->]; repeat constructor. Qed.

Lemma failed_call_store (platform : string) (wk : worker) (w : world) :
  succeeded (process_platform platform false wk w).2 = false →
  w_fs (exec (process_platform platform false wk w).1 w)
  = delete (tmp_name (platform_to_filename platform)) (w_fs w).
Proof.
  intros Hs.
  pose proof (process_platform_shape platform wk w) as Hshape. cbv zeta in Hshape.
  destruct Hshape as
    [(writes & rc & stderr & f & n & Hwk & Hout & Hv & Hacts & Hres)
    |(Hfail & kills & Hacts & Hkills & Htimeout)].
  - by rewrite Hres in Hs.
  - rewrite Hacts, app_assoc. apply exec_unlink_last.
    apply Forall_app. split; [apply ran_tame|]. by apply tame_kills.
Qed.

(** ** C4: failure paths *)

(** C4, as the code has it.  A call of the executor starts at most one
    worker process: exactly one when [Popen] returns, none when [Popen]
    itself raises, and that too is a failure path.  On every failure path
    ([Popen] raising, timeout, any other error of [communicate], no output
    file, a rejected file, also a re-raised interrupt) the directory
    afterwards is the one before with the temporary file removed: no
    temporary file is left, the file at the final artifact path is untouched
    and the platform is done exactly if it was before.  On a timeout and on
    an interrupt the process is killed once; on a timeout the timeout
    failure is reported. *)
Theorem C4_failure_leaves_nothing (platform : string) (wk : worker) (w : world) :
  let outp := platform_to_filename platform in
  let tmp := tmp_name outp in
  let acts := (process_platform platform false wk w).1 in
  let out := (process_platform platform false wk w).2 in
  let w' := exec acts w in
  (wk = PopenRaises →
     out = Return platform false ErrorMsg ∧ w_spawned w' = w_spawned w)
  ∧ (wk ≠ PopenRaises → w_spawned w' = S (w_spawned w))
  ∧ (succeeded out = false →
       w_fs w' = delete tmp (w_fs w)
       ∧ w_fs w' !! tmp = None
       ∧ w_fs w' !! outp = w_fs w !! outp
       ∧ is_done (w_fs w') platform = is_done (w_fs w) platform)
  ∧ (∀ writes, wk = Runs writes TimeoutExpired →
       out = Return platform false TimeoutMsg
       ∧ w_killed w' = S (w_killed w))
  ∧ (∀ writes, wk = Runs writes KeyboardInterrupt →
       out = Raise_KeyboardInterrupt ∧ w_killed w' = S (w_killed w))
  ∧ (∀ writes, wk = Runs writes OtherError → out = Return platform false ErrorMsg)
  ∧ (∀ writes rc stderr, wk = Runs writes (Exited rc stderr) →
       (worker_output platform wk w = None →
          out = Return platform false (Failed (stderr_message stderr)))
       ∧ (∀ f msg, worker_output platform wk w = Some f → validate f = inl msg →
            out = Return platform false msg)).
Proof.
  cbv zeta.
  pose proof (process_platform_shape platform wk w) as Hshape. cbv zeta in Hshape.
  assert (platform_to_filename platform ≠ tmp_name (platform_to_filename platform))
    as Hne by (intros H; by apply (tmp_name_not_canonical
                                     (platform_to_filename platform) platform)).
  assert (w_spawned (exec (process_platform platform false wk w).1 w)
          = w_spawned w + length (spawn_of wk)) as Hspawned.
  { pose proof (ran_counts (tmp_name (platform_to_filename platform)) wk) as [Hs _].
    destruct Hshape as
      [(writes & rc & stderr & f & n & -> & Hout & Hv & Hacts & Hres)
      |(Hfail & kills & Hacts & Hkills & Htimeout)];
      rewrite Hacts, (proj1 (exec_counts _ _)), !(proj1 (count_app _ _)), Hs.
    - simpl. lia.
    - destruct Hkills as [-> | ->]; simpl; lia. }
  split; [|split; [|split; [|split; [|split; [|split]]]]].
  - intros ->. split; [done|]. rewrite Hspawned. simpl. lia.
  - intros Hwk. rewrite Hspawned. destruct wk; [done|]. simpl. lia.
  - intros Hfail. rewrite (failed_call_store platform wk w Hfail).
    split; [done|]. split; [apply lookup_delete_eq|].
    split; [by apply lookup_delete_ne|].
    unfold is_done. by rewrite lookup_delete_ne.
  - intros writes ->. split; [done|].
    unfold process_platform. cbv zeta. cbn [fst].
    rewrite (proj2 (exec_counts _ _)), !(proj2 (count_app _ _)).
    rewrite (proj2 (count_writes _ _)). simpl. lia.
  - intros writes ->. split; [done|].
    unfold process_platform. cbv zeta. cbn [fst].
    rewrite (proj2 (exec_counts _ _)), !(proj2 (count_app _ _)).
    rewrite (proj2 (count_writes _ _)). simpl. lia.
  - by intros writes ->.
  - intros writes rc stderr ->. unfold process_platform, worker_output. cbv zeta.
    destruct (w_fs _ !! _) as [f0|]; split.
    + intros H. discriminate H.
    + intros f msg [= <-] Hv. by rewrite Hv.
    + done.
    + intros f msg H. discriminate H.
Qed.

(** C4 as stated fails: when [Popen] itself raises the call fails and no
    process has been started. *)
Lemma C4_counterexample :
  ¬ (∀ (platform : string) (wk : worker) (w : world),
       succeeded (process_platform platform false wk w).2 = false →
       w_spawned (exec (process_platform platform false wk w).1 w) = S (w_spawned w)).
Proof.
  intros H. specialize (H "B" PopenRaises (World ∅ 0 0) eq_refl).
  vm_compute in H. discriminate H.
Qed.

(** ** C1: the commit protocol *)

Lemma endswith_app (s t : string) : Str.endswith (s +:+ t) t = true.
Proof.
  induction s as [|c s IH].
  - change (EmptyString +:+ t) with t. rewrite endswith_unfold.
    by rewrite String.eqb_refl.
  - change (String c s +:+ t) with (String c (s +:+ t)). rewrite endswith_unfold.
    cbv beta iota. rewrite IH. apply orb_true_r.
Qed.

Lemma tmp_name_is_temp (n : string) : is_temp_name (tmp_name n) = true.
Proof.
  unfold is_temp_name. rewrite !andb_true_iff. split; [split|].
  - reflexivity.
  - unfold tmp_name.
    change ("." +:+ n +:+ ".tmp") with (String "." (n +:+ ".tmp")).
    rewrite endswith_unfold. cbv beta iota.
    rewrite (endswith_app n ".tmp"). apply orb_true_r.
  - apply Nat.leb_le. unfold tmp_name. rewrite !length_append. simpl. lia.
Qed.

Lemma elem_of_trace_singleton (a : action) (w w' : world) :
  w' ∈ trace [a] w ↔ w' = w ∨ w' = step a w.
Proof. simpl. by rewrite elem_of_cons, list_elem_of_singleton. Qed.

Lemma call_states (platform : string) (wk : worker) (w w' : world) (n : string) :
  w' ∈ trace (process_platform platform false wk w).1 w →
  n ≠ tmp_name (platform_to_filename platform) →
  w_fs w' !! n = w_fs w !! n
  ∨ (n = platform_to_filename platform
     ∧ ∃ f, w_fs w' !! n = Some f ∧ is_valid f = true).
Proof.
  intros Hin Hn.
  pose proof (process_platform_shape platform wk w) as Hshape. cbv zeta in Hshape.
  pose proof (worker_output_ran platform wk w) as Hran.
  set (outp := platform_to_filename platform) in *.
  set (tmp := tmp_name outp) in *. clearbody tmp.
  pose proof (ran_tame tmp wk) as Htame.
  destruct Hshape as
    [(writes & rc & stderr & f & m & Hwk & Hout & Hv & Hacts & Hres)
    |(Hfail & kills & Hacts & Hkills & Htimeout)]; rewrite Hacts in Hin.
  - apply elem_of_trace_app in Hin as [Hin|Hin].
    { left. by apply (trace_tame tmp (ran tmp wk)). }
    apply elem_of_trace_singleton in Hin as [->| ->].
    { left. by apply (exec_tame tmp). }
    cbn [step w_fs]. unfold rename. rewrite <- Hran, Hout.
    destruct (decide (n = outp)) as [->|Hno].
    + right. split; [done|]. exists f. rewrite lookup_insert_eq.
      split; [done|]. unfold is_valid. by rewrite Hv.
    + left. rewrite lookup_insert_ne, lookup_delete_ne by done.
      by apply (exec_tame tmp).
  - left. apply (trace_tame tmp (ran tmp wk ++ kills ++ [AUnlink tmp])); [|done..].
    apply Forall_app. split; [done|]. apply Forall_app.
    split; [by apply tame_kills|]. by repeat constructor.
Qed.

(** The commit protocol of one call.  The executor tells the worker to
    write to [.<name>.csv.tmp], a name that matches the clean-up pattern, is
    no platform's canonical name and is not seen by the aggregator's
    [*.csv] scan; every write and every removal of a call is at that name.
    The only other effect is one rename of that name to the canonical name,
    made last and only for a file that passed validation.  Hence, when
    nothing else acts in between, each file other than the temporary one
    is, in every state the call passes through, as it was before the call
    or the validated artifact at the canonical path; a store whose
    canonical files are all valid stays so at every moment. *)
Lemma call_commit_protocol (platform : string) (wk : worker) (w : world) :
  let outp := platform_to_filename platform in
  let tmp := tmp_name outp in
  let acts := (process_platform platform false wk w).1 in
  let out := (process_platform platform false wk w).2 in
  is_temp_name tmp = true
  ∧ (∀ q, tmp ≠ platform_to_filename q)
  ∧ Str.endswith tmp ".csv" = false
  ∧ Forall (tame tmp) (ran tmp wk)
  ∧ ((Forall (tame tmp) acts ∧ succeeded out = false)
     ∨ (acts = ran tmp wk ++ [ARename tmp outp]
        ∧ succeeded out = true
        ∧ ∃ f, w_fs (exec (ran tmp wk) w) !! tmp = Some f ∧ is_valid f = true))
  ∧ (∀ w' n, w' ∈ trace acts w → n ≠ tmp →
       w_fs w' !! n = w_fs w !! n
       ∨ (n = outp ∧ ∃ f, w_fs w' !! n = Some f ∧ is_valid f = true))
  ∧ (store_ok (w_fs w) → ∀ w', w' ∈ trace acts w → store_ok (w_fs w')).
Proof.
  cbv zeta.
  split; [apply tmp_name_is_temp|].
  split; [intros q; apply tmp_name_not_canonical|].
  split; [apply tmp_name_not_csv|].
  split; [apply ran_tame|].
  split; [|split].
  - pose proof (process_platform_shape platform wk w) as Hshape. cbv zeta in Hshape.
    destruct Hshape as
      [(writes & rc & stderr & f & m & Hwk & Hout & Hv & Hacts & Hres)
      |(Hfail & kills & Hacts & Hkills & Htimeout)].
    + right. split; [done|]. rewrite Hres. split; [done|].
      exists f. rewrite <- worker_output_ran. split; [done|].
      unfold is_valid. by rewrite Hv.
    + left. split; [|done]. rewrite Hacts.
      apply Forall_app. split; [apply ran_tame|]. apply Forall_app.
      split; [by apply tame_kills|]. by repeat constructor.
  - intros w' n. apply call_states.
  - intros Hok w' Hin q f Hq.
    destruct (call_states platform wk w w' (platform_to_filename q) Hin) as [H|H].
    + intros H. symmetry in H. by apply tmp_name_not_canonical in H.
    + rewrite H in Hq. by apply (Hok q).
    + destruct H as (_ & f' & Hf' & Hvalid). congruence.
Qed.

(** ** C2: what decides success *)

Lemma is_valid_spec (f : file) :
  is_valid f = true ↔
  file_end f = Eof
  ∧ (∃ h, fieldnames f = Some h ∧ ∀ k, k ∈ CSV_HEADER → k ∈ h)
  ∧ dict_rows f ≠ [].
Proof.
  unfold is_valid, validate, fieldnames, dict_rows.
  destruct f as [[|h t] e]; cbn [file_lines file_end head].
  - split; [by destruct e|]. by intros (_ & (h & ? & _) & _).
  - destruct (forallb (λ k, bool_decide (k ∈ h)) CSV_HEADER) eqn:Eh.
    + assert (∀ k, k ∈ CSV_HEADER → k ∈ h) as Hh.
      { intros k Hk%list_elem_of_In. rewrite forallb_forall in Eh.
        by apply (bool_decide_eq_true_1 _), Eh. }
      destruct e.
      * destruct (dict_row h <$> filter _ t) eqn:Er.
        -- split; [done|]. by intros (_ & _ & ?).
        -- split; [|done]. intros _. split; [done|]. split; [by exists h|done].
      * split; [done|]. by intros [? _].
    + split; [done|]. intros (_ & (h' & [= <-] & Hh) & _).
      apply not_true_iff_false in Eh. destruct Eh.
      apply forallb_forall. intros k Hk%list_elem_of_In.
      by apply bool_decide_eq_true_2, Hh.
Qed.

Lemma process_platform_exited (platform : string) (writes : list (option file))
    (rc : Z) (stderr : string) (w : world) :
  (process_platform platform false (Runs writes (Exited rc stderr)) w).2 =
  match worker_output platform (Runs writes (Exited rc stderr)) w with
  | None => Return platform false (Failed (stderr_message stderr))
  | Some f =>
      match validate f with
      | inl msg => Return platform false msg
      | inr n => Return platform true (Created (platform_to_filename platform) n)
      end
  end.
Proof.
  unfold process_platform, worker_output. cbv zeta.
  destruct (w_fs _ !! _) as [f|]; [|done]. by destruct (validate f).
Qed.

(** C2, as the code has it.  A call reports success exactly when
    [communicate] returned within the time limit with the process exited
    (no timeout, interrupt or other error, and [Popen] did not raise) and
    the file the worker left at the temporary path exists, is read to its
    end without an exception, has a header containing every required field
    and has at least one data row.  The return code and the standard error
    text play no role, and a call that fails leaves the final artifact path
    as it was. *)
Theorem C2_success_iff (platform : string) (wk : worker) (w : world) :
  let outp := platform_to_filename platform in
  let acts := (process_platform platform false wk w).1 in
  let out := (process_platform platform false wk w).2 in
  (succeeded out = true ↔
     (∃ writes rc stderr, wk = Runs writes (Exited rc stderr))
     ∧ ∃ f, worker_output platform wk w = Some f
            ∧ file_end f = Eof
            ∧ (∃ h, fieldnames f = Some h ∧ ∀ k, k ∈ CSV_HEADER → k ∈ h)
            ∧ dict_rows f ≠ [])
  ∧ (∀ writes rc rc' stderr stderr',
       succeeded (process_platform platform false (Runs writes (Exited rc stderr)) w).2
       = succeeded (process_platform platform false (Runs writes (Exited rc' stderr')) w).2)
  ∧ (succeeded out = false → w_fs (exec acts w) !! outp = w_fs w !! outp).
Proof.
  cbv zeta. split; [|split].
  - split.
    + intros Hs.
      destruct wk as [|writes [rc stderr| | |]]; try done.
      split; [by exists writes, rc, stderr|].
      rewrite process_platform_exited in Hs.
      destruct (worker_output _ _ w) as [f|]; [|done].
      exists f. split; [done|]. apply is_valid_spec.
      unfold is_valid. by destruct (validate f).
    + intros [(writes & rc & stderr & ->) (f & Hout & Hvalid)].
      apply is_valid_spec in Hvalid. unfold is_valid in Hvalid.
      rewrite process_platform_exited, Hout. by destruct (validate f).
  - intros writes rc rc' stderr stderr'. rewrite !process_platform_exited.
    change (worker_output platform (Runs writes (Exited rc' stderr')) w)
      with (worker_output platform (Runs writes (Exited rc stderr)) w).
    destruct (worker_output _ _ w) as [f|]; [|done]. by destruct (validate f).
  - intros Hs. rewrite (failed_call_store platform wk w Hs).
    apply lookup_delete_ne. intros H. symmetry in H.
    by apply (tmp_name_not_canonical (platform_to_filename platform) platform).
Qed.

(** C2 as stated fails: on a timeout the worker may have left a valid file,
    and the call still fails. *)
Lemma C2_counterexample :
  ¬ (∀ (platform : string) (wk : worker) (w : world),
       succeeded (process_platform platform false wk w).2 = true ↔
       ∃ f, worker_output platform wk w = Some f ∧ is_valid f = true).
Proof.
  intros H.
  specialize (H "B" (Runs [Some sample_artifact] TimeoutExpired) (World ∅ 0 0)).
  assert (false = true) as Habs; [|done].
  apply (proj2 H). exists sample_artifact. split; reflexivity.
Qed.

(** A zero return code does not help a header-only file. *)
Example header_only_fails :
  process_platform "B" false (Runs [Some header_only] (Exited 0 "")) (World ∅ 0 0)
  = ([AUnlink ".b.csv.tmp"; ASpawn; AWorkerWrite ".b.csv.tmp" (Some header_only);
      AUnlink ".b.csv.tmp"],
     Return "B" false NoDataRows).
Proof. reflexivity. Qed.

(** A non-zero return code does not hurt a valid file. *)
Example nonzero_exit_succeeds :
  (process_platform "B" false (Runs [Some sample_artifact] (Exited 1 "boom")) (World ∅ 0 0)).2
  = Return "B" true (Created "b.csv" 2).
Proof. reflexivity. Qed.

(** ** C8: what a run may overwrite *)

Lemma call_effects (p : string) (wk : worker) (w : world) :
  Forall (call_effect p) (process_platform p false wk w).1.
Proof.
  pose proof (process_platform_shape p wk w) as Hshape. cbv zeta in Hshape.
  assert (Forall (call_effect p) (ran (tmp_name (platform_to_filename p)) wk)) as Hran.
  { apply (Forall_impl (tame (tmp_name (platform_to_filename p))));
      [apply ran_tame|]. intros a Ha. by left. }
  destruct Hshape as
    [(writes & rc & stderr & f & m & Hwk & Hout & Hv & -> & Hres)
    |(Hfail & kills & -> & Hkills & Htimeout)].
  - apply Forall_app. split; [done|]. apply Forall_singleton. by right.
  - apply Forall_app. split; [done|]. apply Forall_app. split.
    + apply (Forall_impl (tame (tmp_name (platform_to_filename p))));
        [by apply tame_kills|]. intros a Ha. by left.
    + apply Forall_singleton. by left.
Qed.

Lemma step_call_effect (fs : store) (p : string) (a : action) (w : world) (n : string) :
  call_effect p a →
  fs !! platform_to_filename p = None →
  is_Some (fs !! n) → is_temp_name n = false →
  w_fs (step a w) !! n = w_fs w !! n.
Proof.
  intros Ha Hp Hn Ht.
  assert (n ≠ tmp_name (platform_to_filename p)) as Hne.
  { intros ->. by rewrite tmp_name_is_temp in Ht. }
  destruct Ha as [Ha| ->]; [by apply (step_tame (tmp_name (platform_to_filename p)))|].
  simpl. unfold rename. destruct (w_fs w !! tmp_name _) as [f|]; [|done].
  rewrite lookup_insert_ne, lookup_delete_ne; [done..|].
  intros <-. rewrite Hp in Hn. by destruct Hn.
Qed.

Lemma exec_call_effects (fs : store) (names : list string) (acts : list action)
    (w : world) (n : string) :
  (∀ p, p ∈ names → fs !! platform_to_filename p = None) →
  Forall (λ a, ∃ p, p ∈ names ∧ call_effect p a) acts →
  is_Some (fs !! n) → is_temp_name n = false →
  w_fs (exec acts w) !! n = w_fs w !! n.
Proof.
  intros Hnames Hacts Hn Ht. revert w.
  induction Hacts as [|a acts (p & Hp & Ha) _ IH]; intros w; [done|].
  simpl. rewrite IH. by apply (step_call_effect fs p); [|apply Hnames|..].
Qed.

Lemma elem_of_apply_limit (lim : Z) (names : list string) (p : string) :
  p ∈ apply_limit lim names → p ∈ names.
Proof.
  unfold apply_limit. destruct (0 <? lim)%Z; [|done].
  intros H. by apply (subseteq_take (Z.to_nat lim) names).
Qed.

Lemma elem_of_pending_names (db : catalog) (m : Z) (fs : store) (p : string) :
  p ∈ pending_names db m fs ↔
  (∃ count, (p, count) ∈ eligible db m) ∧ fs !! platform_to_filename p = None.
Proof.
  unfold pending_names. rewrite list_elem_of_fmap. split.
  - intros ([name count] & -> & [Hd Hin]%list_elem_of_filter). simpl in *.
    split; [by exists count|]. unfold is_done in Hd.
    apply bool_decide_eq_false in Hd. by apply eq_None_not_Some.
  - intros [[count Hin] Hnone]. exists (p, count). split; [done|].
    apply list_elem_of_filter. split; [|done]. simpl. unfold is_done.
    apply bool_decide_eq_false. rewrite Hnone. by intros [? ?].
Qed.

Lemma main_plan_normal (a : args) (db : catalog) (fs : store) (names : list string) :
  given (platform a) = None →
  main_plan a db fs = Process names →
  names = apply_limit (limit a) (pending_names db (min_games a) fs).
Proof.
  unfold main_plan. intros ->. destruct (combine_only a); [done|].
  destruct (apply_limit _ _) as [|p l]; [done|].
  destruct (dry_run a); [done|]. by intros [= <-].
Qed.

Lemma successful_call_replaces (p : string) (wk : worker) (w : world) :
  succeeded (process_platform p false wk w).2 = true →
  ∃ f, worker_output p wk w = Some f ∧ is_valid f = true
       ∧ w_fs (exec (process_platform p false wk w).1 w) !! platform_to_filename p
         = Some f.
Proof.
  intros Hs.
  pose proof (process_platform_shape p wk w) as Hshape. cbv zeta in Hshape.
  pose proof (worker_output_ran p wk w) as Hout.
  destruct Hshape as
    [(writes & rc & stderr & f & n & Hwk & Hf & Hv & Hacts & Hres)
    |(Hfail & _)]; [|by rewrite Hfail in Hs].
  exists f. split; [done|]. split; [unfold is_valid; by rewrite Hv|].
  rewrite Hacts, exec_app. cbn [exec foldl step w_fs]. unfold rename.
  rewrite <- Hout, Hf. apply lookup_insert_eq.
Qed.

(** C8, as the code has it.  In the normal mode a platform whose artifact
    file exists when the run starts is not dispatched, and whatever the
    dispatched calls do, in any order and interleaving, every file that
    existed at the start under a name other than a temporary one keeps its
    content until the aggregation; the effects of a call are those on its
    temporary file and the rename onto its own canonical name.  The test is
    made once, on the directory at the start, and on the filename key: of
    two eligible platforms with the same key either both are selected or
    neither.  A successful call puts the worker's validated file at the
    canonical name whatever was there, so the later of two such calls
    replaces the artifact of the earlier.  In the single-platform mode the
    selection does not look at the directory: the named platform is
    dispatched whether or not its artifact exists. *)
Theorem C8_existing_artifacts (a : args) (db : catalog) (fs : store)
    (names : list string) :
  (given (platform a) = None →
   main_plan a db fs = Process names →
   (∀ p, p ∈ names → is_done fs p = false)
   ∧ ∀ (acts : list action) (w : world) (n : string),
       w_fs w = fs →
       Forall (λ act, ∃ p, p ∈ names ∧ call_effect p act) acts →
       is_Some (fs !! n) → is_temp_name n = false →
       w_fs (exec acts w) !! n = fs !! n)
  ∧ (∀ p wk w, Forall (call_effect p) (process_platform p false wk w).1)
  ∧ (∀ p fs', given (platform a) = Some p → main_plan a db fs' = main_plan a db fs)
  ∧ (∀ p wk w, succeeded (process_platform p false wk w).2 = true →
       ∃ f, worker_output p wk w = Some f ∧ is_valid f = true
            ∧ w_fs (exec (process_platform p false wk w).1 w) !! platform_to_filename p
              = Some f)
  ∧ (∀ p q, platform_to_filename p = platform_to_filename q →
       is_done fs p = is_done fs q
       ∧ ((∃ count, (p, count) ∈ eligible db (min_games a)) →
          (∃ count, (q, count) ∈ eligible db (min_games a)) →
          (p ∈ pending_names db (min_games a) fs
           ↔ q ∈ pending_names db (min_games a) fs))).
Proof.
  split; [|split; [|split; [|split]]].
  - intros Hg Hplan. apply main_plan_normal in Hplan; [|done].
    assert (∀ p, p ∈ names → fs !! platform_to_filename p = None) as Hnone.
    { intros p Hp. rewrite Hplan in Hp.
      by apply elem_of_apply_limit, elem_of_pending_names in Hp as [_ ?]. }
    split.
    + intros p Hp. unfold is_done. apply bool_decide_eq_false.
      rewrite (Hnone p Hp). by intros [? ?].
    + intros acts w n <- Hacts Hn Ht. by apply (exec_call_effects (w_fs w) names).
  - apply call_effects.
  - intros p fs' Hp. unfold main_plan. by rewrite Hp.
  - apply successful_call_replaces.
  - intros p q Hkey. split; [unfold is_done; by rewrite Hkey|].
    intros Hp Hq. rewrite !elem_of_pending_names, Hkey. tauto.
Qed.

(** The witness of C8: with [b.csv] in place, the default run over the
    catalog [A, B] dispatches "A" only, and its call leaves [b.csv] alone. *)
Lemma C8_existing_artifacts_witness :
  is_done store_b "A" = false
  ∧ w_fs (exec (process_platform "A" false
                  (Runs [Some other_artifact] (Exited 0 "")) (World store_b 0 0)).1
            (World store_b 0 0)) !! "b.csv"
    = Some sample_artifact.
Proof.
  destruct (C8_existing_artifacts default_args [("A", 12%Z); ("B", 40%Z)] store_b ["A"])
    as (Hnormal & Heffects & _).
  assert (main_plan default_args [("A", 12%Z); ("B", 40%Z)] store_b = Process ["A"])
    as Hplan by (vm_compute; reflexivity).
  destruct (Hnormal eq_refl Hplan) as [Hdone Hkept].
  split.
  - apply Hdone. by apply list_elem_of_singleton.
  - assert (store_b !! "b.csv" = Some sample_artifact) as Hb by (vm_compute; reflexivity).
    assert (is_temp_name "b.csv" = false) as Ht by (vm_compute; reflexivity).
    rewrite (Hkept _ (World store_b 0 0) "b.csv" eq_refl).
    + exact Hb.
    + eapply Forall_impl; [apply Heffects|].
      intros act Hact. exists "A". split; [by apply list_elem_of_singleton|exact Hact].
    + rewrite Hb. by eexists.
    + exact Ht.
Defined.

(** C8 as stated fails, in both modes: [--platform B] dispatches "B"
    although [b.csv] exists; and in the normal mode, with "Sega CD" and
    "Sega-CD" in the catalog and no file, "Sega-CD" is dispatched although
    the call for "Sega CD" has just committed [sega_cd.csv], the file at
    its key. *)
Lemma C8_counterexample :
  ¬ (∀ (a : args) (db : catalog) (fs : store) (names : list string) (p : string),
       main_plan a db fs = Process names → p ∈ names → is_done fs p = false)
  ∧ ¬ (∀ (oracle : nat → worker) (a : args) (db : catalog) (w : world)
         (earlier later : list string) (p : string),
         given (platform a) = None →
         main_plan a db (w_fs w) = Process (earlier ++ p :: later) →
         is_done (w_fs (r_world (run_sequential oracle 0 earlier (Run w [] 0 0)))) p
         = false).
Proof.
  split.
  - intros H.
    specialize (H (Args 1 false (Some "B") false 10 0) [("B", 40%Z)]
                  {[ "b.csv" := sample_artifact ]} ["B"] "B" eq_refl).
    assert (true = false) as Habs; [|done].
    apply H. by apply list_elem_of_singleton.
  - intros H.
    assert (main_plan default_args [("Sega CD", 40%Z); ("Sega-CD", 40%Z)] ∅
            = Process (["Sega CD"] ++ "Sega-CD" :: [])) as Hplan
      by (vm_compute; reflexivity).
    pose proof (H (λ _, Runs [Some sample_artifact] (Exited 0 "")) default_args
                  [("Sega CD", 40%Z); ("Sega-CD", 40%Z)] (World ∅ 0 0)
                  ["Sega CD"] [] "Sega-CD" eq_refl Hplan) as H'.
    assert (is_done
              (w_fs (r_world (run_sequential
                                (λ _, Runs [Some sample_artifact] (Exited 0 "")) 0
                                ["Sega CD"] (Run (World ∅ 0 0) [] 0 0))))
              "Sega-CD" = true) as Hd by (vm_compute; reflexivity).
    rewrite Hd in H'. discriminate H'.
Qed.

(** The call made by [--platform B] replaces the existing [b.csv] when the
    worker delivers a valid file. *)
Example override_overwrites :
  let w := World {[ "b.csv" := sample_artifact ]} 0 0 in
  w_fs (exec (process_platform "B" false
                (Runs [Some other_artifact] (Exited 0 "")) w).1 w) !! "b.csv"
  = Some other_artifact.
Proof. reflexivity. Qed.

(** ** The aggregator *)

Global Instance name_le_antisymm : AntiSymm (=) name_le.
Proof. intros a b. apply String.leb_antisym. Qed.

Lemma glob_csv_sorted (fs : store) : StronglySorted name_le (glob_csv fs).
Proof. apply (sort_by_sorted id). Qed.

Lemma elem_of_glob_csv (fs : store) (n : string) :
  n ∈ glob_csv fs ↔ is_Some (fs !! n) ∧ Str.endswith n ".csv" = true.
Proof.
  unfold glob_csv. rewrite elem_of_sort_by, list_elem_of_filter, elem_of_elements, elem_of_dom.
  tauto.
Qed.

Lemma glob_csv_nodup (fs : store) : NoDup (glob_csv fs).
Proof.
  unfold glob_csv. rewrite sort_by_perm. apply NoDup_filter, NoDup_elements.
Qed.

Lemma scanned_sorted (fs : store) : StronglySorted name_le (scanned fs).
Proof. apply StronglySorted_filter, glob_csv_sorted. Qed.

Lemma elem_of_scanned (fs : store) (n : string) :
  n ∈ scanned fs ↔
  is_Some (fs !! n) ∧ Str.endswith n ".csv" = true ∧ n ≠ COMBINED_CSV.
Proof. unfold scanned. rewrite list_elem_of_filter, elem_of_glob_csv. tauto. Qed.

Lemma scanned_nodup (fs : store) : NoDup (scanned fs).
Proof. apply NoDup_filter, glob_csv_nodup. Qed.

Lemma scanned_insert_combined (fs : store) (f : file) :
  scanned (<[COMBINED_CSV := f]> fs) = scanned fs.
Proof.
  apply (StronglySorted_unique name_le); [apply scanned_sorted..|].
  apply NoDup_Permutation; [apply scanned_nodup..|].
  intros n. rewrite !elem_of_scanned.
  destruct (decide (n = COMBINED_CSV)) as [->|Hn]; [tauto|].
  by rewrite lookup_insert_ne.
Qed.

Lemma combine_read_eq (fs : store) (acc : list dict * list string) (n : string) :
  combine_read fs acc n =
  if decide (n = COMBINED_CSV) then acc
  else (acc.1 ++ read_rows fs n,
        acc.2 ++ (if decide (read_raises fs n) then [n] else [])).
Proof.
  unfold combine_read, read_rows.
  destruct (String.eqb_spec n COMBINED_CSV) as [->|Hn].
  { by rewrite decide_True. }
  rewrite decide_False by done.
  destruct (fs !! n) as [f|] eqn:E.
  - f_equal. destruct (file_end f) eqn:Ee.
    + rewrite decide_False; [by rewrite app_nil_r|].
      intros (f' & Hf' & Hr). congruence.
    + rewrite decide_True; [done|]. by exists f.
  - rewrite decide_False; [|intros (f' & Hf' & Hr); congruence].
    destruct acc. by rewrite !app_nil_r.
Qed.

Lemma combine_read_fold (fs : store) (l : list string) (acc : list dict * list string) :
  foldl (combine_read fs) acc l =
  (acc.1 ++ flat_map (read_rows fs) (filter (λ n, n ≠ COMBINED_CSV) l),
   acc.2 ++ filter (read_raises fs) (filter (λ n, n ≠ COMBINED_CSV) l)).
Proof.
  revert acc. induction l as [|n l IH]; intros [rows warns].
  - simpl. by rewrite !app_nil_r.
  - cbn [foldl]. rewrite IH, combine_read_eq, filter_cons.
    repeat case_decide; try done;
      cbn [fst snd flat_map]; rewrite filter_cons, <- !app_assoc;
      [by rewrite decide_True | by rewrite decide_False].
Qed.

Lemma combine_all_csvs_spec (fs : store) :
  let all_rows := flat_map (read_rows fs) (scanned fs) in
  let warns := filter (read_raises fs) (scanned fs) in
  combine_all_csvs fs =
  match all_rows with
  | [] => Combined fs warns 0
  | _ => Combined (<[COMBINED_CSV := File (CSV_HEADER :: (clean_row <$> all_rows)) Eof]> fs)
                  warns (length all_rows)
  end.
Proof.
  unfold combine_all_csvs. rewrite combine_read_fold. simpl. reflexivity.
Qed.

Lemma flat_map_filter_nil {A B} (f : A → list B) (P : A → Prop)
    `{!∀ x, Decision (P x)} (l : list A) :
  (∀ x, x ∈ l → ¬ P x → f x = []) →
  flat_map f (filter P l) = flat_map f l.
Proof.
  induction l as [|x l IH]; intros Hnil; [done|].
  rewrite filter_cons. simpl. case_decide.
  - simpl. rewrite IH; [done|]. intros y Hy. apply Hnil. by right.
  - rewrite (Hnil x); [|left|done]. simpl. apply IH. intros y Hy. apply Hnil. by right.
Qed.

Lemma filter_only {A} (P : A → Prop) `{!∀ x, Decision (P x)} (l : list A) (x : A) :
  NoDup l → x ∈ l → (∀ y, y ∈ l → P y ↔ y = x) → filter P l = [x].
Proof.
  induction 1 as [|y l Hy Hnd IH]; intros Hin HP; [by apply not_elem_of_nil in Hin|].
  rewrite filter_cons. apply elem_of_cons in Hin as [->|Hin].
  - rewrite decide_True by (apply HP; [left|done]). f_equal.
    apply elem_of_nil_inv. intros z [Pz Hz]%list_elem_of_filter.
    apply HP in Pz; [|by right]. by subst.
  - rewrite decide_False.
    + apply IH; [done|]. intros z Hz. apply HP. by right.
    + intros Py. apply HP in Py; [|left]. by subst.
Qed.

Lemma clean_row_cells (row : dict) :
  length (clean_row row) = length CSV_HEADER
  ∧ ∀ i k, CSV_HEADER !! i = Some k →
      clean_row row !! i
      = Some (match row !! Some k with Some (VStr s) => s | _ => "" end).
Proof.
  unfold clean_row. split; [by rewrite length_fmap|].
  intros i k Hk. rewrite list_lookup_fmap, Hk. simpl. unfold get_cell.
  by destruct (row !! Some k) as [[s| |l]|].
Qed.

(** The case in which the aggregation does skip the unreadable file: one
    scanned file raises on reading before any of its records was read and
    all the others are read to their end.  The aggregation ends normally
    with one warning, naming that file.  If the other files hold at least
    one record, the combined file is replaced by the header followed by
    exactly their records, in file name order, each laid out on the
    canonical fields in their order, a missing field as the empty string;
    if they hold none, the store is left as it is. *)
Lemma combine_one_unreadable (fs : store) (bad : string) (fbad : file) :
  fs !! bad = Some fbad →
  file_end fbad = Raises →
  dict_rows fbad = [] →
  Str.endswith bad ".csv" = true →
  bad ≠ COMBINED_CSV →
  (∀ n f, n ∈ scanned fs → n ≠ bad → fs !! n = Some f → file_end f = Eof) →
  let valid := filter (λ n, n ≠ bad) (scanned fs) in
  let rows := flat_map (read_rows fs) valid in
  let c := combine_all_csvs fs in
  (∀ n, n ∈ scanned fs ↔
        is_Some (fs !! n) ∧ Str.endswith n ".csv" = true ∧ n ≠ COMBINED_CSV)
  ∧ combined_warnings c = [bad]
  ∧ combined_count c = length rows
  ∧ (rows ≠ [] →
     combined_store c
     = <[COMBINED_CSV := File (CSV_HEADER :: (clean_row <$> rows)) Eof]> fs)
  ∧ (rows = [] → combined_store c = fs)
  ∧ (∀ row, length (clean_row row) = length CSV_HEADER
            ∧ ∀ i k, CSV_HEADER !! i = Some k →
                clean_row row !! i
                = Some (match row !! Some k with Some (VStr s) => s | _ => "" end)).
Proof.
  intros Hbad Hraises Hnorows Hcsv Hne Hothers valid rows c.
  assert (flat_map (read_rows fs) (scanned fs) = rows) as Hrows.
  { symmetry. apply flat_map_filter_nil. intros n _ Hn.
    apply dec_stable in Hn as ->. unfold read_rows. by rewrite Hbad. }
  assert (filter (read_raises fs) (scanned fs) = [bad]) as Hwarn.
  { apply filter_only; [apply scanned_nodup|by apply elem_of_scanned|].
    intros n Hn. split.
    - intros (f & Hf & Hr). destruct (decide (n = bad)) as [|Hnb]; [done|].
      rewrite (Hothers n f Hn Hnb Hf) in Hr. done.
    - intros ->. by exists fbad. }
  pose proof (combine_all_csvs_spec fs) as Hc. cbv zeta in Hc.
  rewrite Hrows, Hwarn in Hc. fold c in Hc.
  split; [apply elem_of_scanned|].
  split; [rewrite Hc; by destruct rows|].
  split; [rewrite Hc; by destruct rows|].
  split; [rewrite Hc; by destruct rows|].
  split; [intros ->; by rewrite Hc|].
  apply clean_row_cells.
Qed.


(** A file that cannot be read at all is skipped with a warning. *)
Example unreadable_file_is_skipped :
  combined_warnings (combine_all_csvs store_b_unreadable) = ["z.csv"]
  ∧ combined_count (combine_all_csvs store_b_unreadable) = 2.
Proof. vm_compute. split; reflexivity. Qed.

(** With no record to combine the combined file is not rewritten: the
    records of an earlier aggregation stay in it. *)
Lemma stale_combined_is_kept :
  let fs : store := <["z.csv" := unreadable]> {[ COMBINED_CSV := stale_combined ]} in
  combined_count (combine_all_csvs fs) = 0
  ∧ combined_store (combine_all_csvs fs) !! COMBINED_CSV = Some stale_combined.
Proof. vm_compute. split; reflexivity. Qed.

(** C5, at the failing input.  The store holds the valid [b.csv] with two
    records and [z.csv], whose reading raises after its first record.  The
    aggregator warns that [z.csv] failed to be read, and yet the record
    read before the error is in the combined file, after the two of
    [b.csv]: three records, where the records of the valid artifact are
    two.  The executor's validation rejects the same file whole.  For every
    store the combined file holds the records read from each scanned file
    before its end or its error, whether or not a warning names the file;
    the files named in warnings contribute nothing exactly when no record
    was read from them. *)
Theorem C5_aggregation_keeps_partial_rows :
  combined_warnings (combine_all_csvs store_b_breaks) = ["z.csv"]
  ∧ combined_count (combine_all_csvs store_b_breaks) = 3
  ∧ combined_store (combine_all_csvs store_b_breaks) !! COMBINED_CSV
    = Some (File (CSV_HEADER :: tail (file_lines sample_artifact)
                              ++ tail (file_lines breaks_midway)) Eof)
  ∧ validate breaks_midway = inl InvalidCsv
  ∧ (∀ fs : store,
       let rows := flat_map (read_rows fs) (scanned fs) in
       let c := combine_all_csvs fs in
       (∀ n f, fs !! n = Some f → read_rows fs n = dict_rows f)
       ∧ (∀ n, n ∈ combined_warnings c ↔ n ∈ scanned fs ∧ read_raises fs n)
       ∧ combined_count c = length rows
       ∧ (rows ≠ [] →
          combined_store c
          = <[COMBINED_CSV := File (CSV_HEADER :: (clean_row <$> rows)) Eof]> fs)
       ∧ (rows = [] → combined_store c = fs)
       ∧ ((∀ n, n ∈ scanned fs → read_raises fs n → read_rows fs n = []) ↔
          rows = flat_map (read_rows fs)
                   (filter (λ n, ¬ read_raises fs n) (scanned fs)))).
Proof.
  assert (combined_warnings (combine_all_csvs store_b_breaks) = ["z.csv"]) as H1
    by (vm_compute; reflexivity).
  assert (combined_count (combine_all_csvs store_b_breaks) = 3) as H2
    by (vm_compute; reflexivity).
  assert (combined_store (combine_all_csvs store_b_breaks) !! COMBINED_CSV
          = Some (File (CSV_HEADER :: tail (file_lines sample_artifact)
                                    ++ tail (file_lines breaks_midway)) Eof)) as H3
    by (vm_compute; reflexivity).
  assert (validate breaks_midway = inl InvalidCsv) as H4 by (vm_compute; reflexivity).
  do 4 (split; [assumption|]). clear H1 H2 H3 H4.
  intros fs. cbv zeta.
  pose proof (combine_all_csvs_spec fs) as Hc. cbv zeta in Hc.
  split; [intros n f Hf; unfold read_rows; by rewrite Hf|].
  split; [rewrite Hc; destruct (flat_map _ _); cbn [combined_warnings];
          intros n; rewrite list_elem_of_filter; tauto|].
  split; [rewrite Hc; by destruct (flat_map _ _)|].
  split; [rewrite Hc; by destruct (flat_map _ _)|].
  split; [intros Hnil; by rewrite Hc, Hnil|].
  split.
  - intros Hno. symmetry. apply flat_map_filter_nil.
    intros n Hn Hr. apply Hno; [done|]. by apply dec_stable.
  - intros Heq n Hn Hr.
    assert (∀ l : list string,
              flat_map (read_rows fs) l
              = flat_map (read_rows fs) (filter (λ n, ¬ read_raises fs n) l) →
              ∀ x, x ∈ l → read_raises fs x → read_rows fs x = []) as Hgen.
    { clear. intros l. induction l as [|y l IH]; intros Heq x Hx Hr;
        [by apply elem_of_nil in Hx|].
      rewrite filter_cons in Heq. destruct (decide (¬ read_raises fs y)) as [Hy|Hy].
      - cbn [flat_map] in Heq. apply app_inv_head in Heq.
        apply elem_of_cons in Hx as [->|Hx]; [done|]. by apply IH.
      - cbn [flat_map] in Heq.
        assert (length (flat_map (read_rows fs) (filter (λ n, ¬ read_raises fs n) l))
                ≤ length (flat_map (read_rows fs) l))%nat as Hle.
        { clear. induction l as [|z l IH]; [done|]. rewrite filter_cons.
          destruct (decide (¬ read_raises fs z)); cbn [flat_map];
            rewrite ?length_app; lia. }
        assert (read_rows fs y = []) as Hyn.
        { apply (f_equal length) in Heq. rewrite length_app in Heq.
          apply length_zero_iff_nil. lia. }
        apply elem_of_cons in Hx as [->|Hx]; [done|].
        rewrite Hyn in Heq. by apply IH. }
    by apply (Hgen (scanned fs)).
Qed.

(** ** Aggregating twice *)

Lemma flat_map_ext_elem {A B} (f g : A → list B) (l : list A) :
  (∀ x, x ∈ l → f x = g x) → flat_map f l = flat_map g l.
Proof.
  induction l as [|x l IH]; intros Hfg; [done|].
  simpl. rewrite (Hfg x) by left. f_equal. apply IH. intros y Hy. apply Hfg. by right.
Qed.

Lemma combine_rows_insert_combined (fs : store) (f : file) :
  flat_map (read_rows (<[COMBINED_CSV := f]> fs)) (scanned (<[COMBINED_CSV := f]> fs))
  = flat_map (read_rows fs) (scanned fs).
Proof.
  rewrite scanned_insert_combined. apply flat_map_ext_elem.
  intros n (_ & _ & Hn)%elem_of_scanned. unfold read_rows.
  by rewrite lookup_insert_ne.
Qed.




(** ** The pool loop *)

Lemma handle_popped (s : Pool.state) (done : nat * bool) :
  Pool.handle s done = Pool.submit_next (popped s done).
Proof. reflexivity. Qed.

Lemma submit_next_cases (s : Pool.state) :
  (Pool.remaining_iter s = [] ∧ Pool.submit_next s = s)
  ∨ (∃ rest, Pool.remaining_iter s = "" :: rest
       ∧ Pool.pending (Pool.submit_next s) = Pool.pending s
       ∧ Pool.submitted (Pool.submit_next s) = Pool.submitted s
       ∧ Pool.remaining_iter (Pool.submit_next s) = rest)
  ∨ (∃ p rest, p ≠ "" ∧ Pool.remaining_iter s = p :: rest
       ∧ Pool.pending (Pool.submit_next s)
         = Pool.pending s ++ [(length (Pool.submitted s), p)]
       ∧ Pool.submitted (Pool.submit_next s) = Pool.submitted s ++ [p]
       ∧ Pool.remaining_iter (Pool.submit_next s) = rest).
Proof.
  unfold Pool.submit_next. destruct (Pool.remaining_iter s) as [|p rest]; [by left|].
  right. destruct (String.eqb_spec p "") as [->|Hp].
  - left. by exists rest.
  - right. by exists p, rest.
Qed.

Lemma submit_next_futures_ok (s : Pool.state) :
  futures_ok s → futures_ok (Pool.submit_next s).
Proof.
  intros [Hnd Hfresh].
  destruct (submit_next_cases s)
    as [[_ ->]|[(rest & _ & Hp & Hs & _)|(p & rest & _ & _ & Hp & Hs & _)]]; [done|..];
    unfold futures_ok, in_flight; rewrite Hp, Hs; [done|].
  rewrite fmap_app, length_app. simpl. split.
  - apply NoDup_app. split; [done|]. split; [|apply NoDup_singleton].
    intros f Hf ->%list_elem_of_singleton. apply Hfresh in Hf. lia.
  - intros f [Hf| ->%list_elem_of_singleton]%elem_of_app; [|lia].
    apply Hfresh in Hf. lia.
Qed.

Lemma submit_next_length (s : Pool.state) :
  (length (Pool.pending (Pool.submit_next s)) ≤ S (length (Pool.pending s)))%nat.
Proof.
  destruct (submit_next_cases s)
    as [[_ ->]|[(rest & _ & -> & _)|(p & rest & _ & _ & -> & _)]]; [lia..|].
  rewrite length_app. simpl. lia.
Qed.

Lemma filter_all {A} (P : A → Prop) `{!∀ x, Decision (P x)} (l : list A) :
  Forall P l → filter P l = l.
Proof.
  induction 1 as [|x l Hx Hl IH]; [done|].
  by rewrite filter_cons, decide_True, IH.
Qed.

Lemma length_pop (l : list (nat * string)) (f : nat) :
  NoDup l.*1 → f ∈ l.*1 →
  S (length (filter (λ fp, fp.1 ≠ f) l)) = length l.
Proof.
  induction l as [|[g p] l IH]; simpl; intros Hnd Hf; [by apply not_elem_of_nil in Hf|].
  apply NoDup_cons in Hnd as [Hg Hnd]. rewrite filter_cons. simpl.
  destruct (decide (g ≠ f)) as [Hgf|Hgf].
  - simpl. f_equal. apply IH; [done|]. by apply elem_of_cons in Hf as [->|Hf].
  - apply dec_stable in Hgf as ->. f_equal. f_equal. apply filter_all.
    apply Forall_forall. intros [h q] Hin Hh. simpl in Hh. subst h.
    apply Hg, list_elem_of_fmap. by exists (f, q).
Qed.

Lemma popped_futures_ok (s : Pool.state) (done : nat * bool) :
  futures_ok s → futures_ok (popped s done).
Proof.
  intros [Hnd Hfresh]. unfold futures_ok, in_flight, popped. simpl. split.
  - eapply sublist_NoDup; [exact Hnd|]. apply fmap_sublist, sublist_filter.
  - intros f Hf. apply Hfresh.
    apply list_elem_of_fmap in Hf as (fp & -> & [_ Hin]%list_elem_of_filter).
    apply list_elem_of_fmap. by exists fp.
Qed.

Lemma handle_futures_ok (s : Pool.state) (done : nat * bool) :
  futures_ok s → futures_ok (Pool.handle s done).
Proof. intros H. rewrite handle_popped. by apply submit_next_futures_ok, popped_futures_ok. Qed.

Lemma handle_length (s : Pool.state) (done : nat * bool) :
  futures_ok s → done.1 ∈ in_flight s →
  (length (Pool.pending (Pool.handle s done)) ≤ length (Pool.pending s))%nat.
Proof.
  intros [Hnd _] Hin. rewrite handle_popped.
  pose proof (submit_next_length (popped s done)) as Hle.
  pose proof (length_pop (Pool.pending s) done.1 Hnd Hin) as Hpop.
  unfold popped in Hle at 2. simpl in Hle. lia.
Qed.

(** A finished future other than [done] is still pending after [done] has
    been handled. *)
Lemma handle_keeps (s : Pool.state) (done : nat * bool) (f : nat) :
  f ∈ in_flight s → f ≠ done.1 → f ∈ in_flight (Pool.handle s done).
Proof.
  intros Hin Hne. rewrite handle_popped.
  assert (f ∈ in_flight (popped s done)) as Hp.
  { unfold in_flight, popped. simpl.
    apply list_elem_of_fmap in Hin as (fp & -> & Hin).
    apply list_elem_of_fmap. exists fp. split; [done|]. by apply list_elem_of_filter. }
  unfold in_flight in *.
  destruct (submit_next_cases (popped s done))
    as [[_ ->]|[(rest & _ & -> & _)|(p & rest & _ & _ & -> & _)]]; [done..|].
  rewrite fmap_app. apply elem_of_app. by left.
Qed.

Lemma tick_bound (s s' : Pool.state) :
  futures_ok s → Pool.tick s s' →
  futures_ok s' ∧ (length (Pool.pending s') ≤ length (Pool.pending s))%nat.
Proof.
  intros Hok Htick. destruct Htick as [s done_futures _ Hnd Hin].
  revert s Hok Hnd Hin. induction done_futures as [|d l IH]; intros s Hok Hnd Hin.
  - by split.
  - simpl in Hnd. apply NoDup_cons in Hnd as [Hd Hnd]. simpl.
    assert (d.1 ∈ in_flight s) as Hdin by (apply Hin; left).
    destruct (IH (Pool.handle s d)) as [Hok' Hle].
    + by apply handle_futures_ok.
    + done.
    + intros f Hf. apply handle_keeps; [apply Hin; by right|]. by intros ->.
    + split; [done|].
      pose proof (handle_length s d Hok Hdin). lia.
Qed.

Lemma iter_submit_bound (n : nat) (s : Pool.state) :
  futures_ok s →
  futures_ok (Nat.iter n Pool.submit_next s)
  ∧ (length (Pool.pending (Nat.iter n Pool.submit_next s)) ≤ n + length (Pool.pending s))%nat.
Proof.
  intros Hok. induction n as [|n [IHok IHle]]; simpl; [by split|].
  split; [by apply submit_next_futures_ok|].
  pose proof (submit_next_length (Nat.iter n Pool.submit_next s)). lia.
Qed.

(** At most [k] futures are ever in flight, whatever the names are. *)
Lemma pool_bound (k : nat) (names : list string) (s : Pool.state) :
  Pool.reachable k names s →
  futures_ok s ∧ (length (in_flight s) ≤ k)%nat.
Proof.
  unfold in_flight. induction 1 as [|s s' _ [IHok IHle] Htick].
  - unfold Pool.initial.
    destruct (iter_submit_bound k (Pool.State [] names [] 0 0 0)) as [Hok Hle].
    { split; [constructor|]. intros f Hf. by apply not_elem_of_nil in Hf. }
    split; [done|]. rewrite length_fmap. simpl in Hle. lia.
  - destruct (tick_bound s s' IHok Htick) as [Hok Hle].
    split; [done|]. rewrite length_fmap in *. lia.
Qed.

Section NonEmptyNames.
Variable names : list string.
Hypothesis names_nonempty : Forall (λ p, p ≠ "") names.

Lemma submit_next_in_order (s : Pool.state) :
  in_order names s →
  in_order names (Pool.submit_next s)
  ∧ ((Pool.remaining_iter s = [] ∧ Pool.submit_next s = s)
     ∨ (length (Pool.pending (Pool.submit_next s)) = S (length (Pool.pending s)))).
Proof.
  unfold in_order. intros Ho.
  destruct (submit_next_cases s)
    as [[He Hs]|[(rest & He & _)|(p & rest & Hp & He & Hpe & Hsu & Hre)]].
  - rewrite Hs. split; [done|]. by left.
  - exfalso. rewrite <- Ho, He in names_nonempty.
    apply Forall_app in names_nonempty as [_ Hr].
    by apply Forall_cons in Hr as [Hr _].
  - rewrite Hsu, Hre, Hpe, <- app_assoc. simpl. rewrite <- He.
    split; [done|]. right. rewrite length_app. simpl. lia.
Qed.

Lemma iter_submit_saturated (n : nat) (s : Pool.state) :
  in_order names s →
  in_order names (Nat.iter n Pool.submit_next s)
  ∧ (Pool.remaining_iter (Nat.iter n Pool.submit_next s) = []
     ∨ length (Pool.pending (Nat.iter n Pool.submit_next s)) = n + length (Pool.pending s)).
Proof.
  intros Ho. induction n as [|n [IHo IHs]]; simpl; [split; [done|by right]|].
  destruct (submit_next_in_order _ IHo) as [Ho' [[He Hs]|Hlen]].
  - rewrite Hs. split; [done|]. by left.
  - split; [done|]. destruct IHs as [He|Hn]; [|right; lia].
    exfalso.
    destruct (submit_next_cases (Nat.iter n Pool.submit_next s))
      as [[_ Hs]|[(rest & He' & _)|(p & rest & _ & He' & _)]]; [|congruence..].
    rewrite Hs in Hlen. lia.
Qed.

Lemma handle_saturated (k : nat) (s : Pool.state) (done : nat * bool) :
  futures_ok s → done.1 ∈ in_flight s →
  in_order names s → saturated k s →
  in_order names (Pool.handle s done) ∧ saturated k (Pool.handle s done).
Proof.
  intros [Hnd _] Hin Ho Hsat. rewrite handle_popped.
  pose proof (length_pop (Pool.pending s) done.1 Hnd Hin) as Hpop.
  assert (in_order names (popped s done)) as Ho' by exact Ho.
  destruct (submit_next_in_order _ Ho') as [Ho'' [[He Hs]|Hlen]].
  - split; [done|]. left. rewrite Hs. exact He.
  - split; [done|]. destruct Hsat as [He|Hk].
    + exfalso.
      destruct (submit_next_cases (popped s done))
        as [[_ Hs]|[(rest & He' & _)|(p & rest & _ & He' & _)]];
        [rewrite Hs in Hlen; lia|simpl in He'; congruence..].
    + right. unfold in_flight in *. rewrite length_fmap in *.
      unfold popped in Hlen at 2. simpl in Hlen. lia.
Qed.

Lemma tick_saturated (k : nat) (s s' : Pool.state) :
  futures_ok s → in_order names s → saturated k s → Pool.tick s s' →
  in_order names s' ∧ saturated k s'.
Proof.
  intros Hok Ho Hsat Htick. destruct Htick as [s done_futures _ Hnd Hin].
  revert s Hok Ho Hsat Hnd Hin.
  induction done_futures as [|d l IH]; intros s Hok Ho Hsat Hnd Hin; [by split|].
  simpl in Hnd. apply NoDup_cons in Hnd as [Hd Hnd]. simpl.
  assert (d.1 ∈ in_flight s) as Hdin by (apply Hin; left).
  destruct (handle_saturated k s d Hok Hdin Ho Hsat) as [Ho' Hsat'].
  apply IH; [by apply handle_futures_ok|done..|].
  intros f Hf. apply handle_keeps; [apply Hin; by right|]. by intros ->.
Qed.

(** When no name is empty, every state of the pool loop has submitted a
    prefix of [names], in order, and is saturated. *)
Lemma pool_saturated (k : nat) (s : Pool.state) :
  Pool.reachable k names s → in_order names s ∧ saturated k s.
Proof.
  induction 1 as [|s s' Hreach [IHo IHs] Htick].
  - unfold Pool.initial.
    destruct (iter_submit_saturated k (Pool.State [] names [] 0 0 0)) as [Ho Hs]; [done|].
    split; [done|]. destruct Hs as [He|Hn]; [by left|right].
    unfold in_flight. rewrite length_fmap. simpl in Hn. lia.
  - apply (tick_saturated k s s'); [|done..]. by apply (pool_bound k names).
Qed.

End NonEmptyNames.

Lemma submit_next_never_empty (s : Pool.state) :
  "" ∉ Pool.submitted s → "" ∉ Pool.submitted (Pool.submit_next s).
Proof.
  intros Hs.
  destruct (submit_next_cases s)
    as [[_ ->]|[(rest & _ & _ & -> & _)|(p & rest & Hp & _ & _ & -> & _)]]; [done..|].
  intros [H|H%list_elem_of_singleton]%elem_of_app; [done|]. by apply Hp.
Qed.

Lemma pool_never_submits_empty (k : nat) (names : list string) (s : Pool.state) :
  Pool.reachable k names s → "" ∉ Pool.submitted s.
Proof.
  induction 1 as [|s s' _ IH Htick].
  - unfold Pool.initial. induction k as [|k IHk]; simpl.
    + apply not_elem_of_nil.
    + by apply submit_next_never_empty.
  - destruct Htick as [s done_futures _ _ _]. revert s IH.
    induction done_futures as [|d l IHl]; intros s Hs; [done|].
    simpl. apply IHl. rewrite handle_popped. by apply submit_next_never_empty.
Qed.

Lemma run_sequential_single (oracle : nat → worker) (p : string) (w : world) :
  r_dispatched (run_sequential oracle 0 [p] (Run w [] 0 0)) = [p].
Proof.
  cbn [run_sequential r_world].
  destruct (process_platform p false (oracle 0) w) as [acts [q [] msg|]]; reflexivity.
Qed.

(** C10, at the failing input.  With two workers and the pending names
    ["", "A", "B"] the initial batch consumes the empty name without
    submitting it: one future is in flight, for "A", while "B" is still
    waiting although a slot is free.  In no state of the pool loop, for any
    names, has the empty name been submitted, whereas the sequential loop
    does call the executor for it. *)
Theorem C10_pool_drops_empty_name :
  Pool.initial 2 [""; "A"; "B"] = Pool.State [(0, "A")] ["B"] ["A"] 0 0 0
  ∧ (∀ k names s, Pool.reachable k names s → "" ∉ Pool.submitted s)
  ∧ (∀ oracle w, r_dispatched (run_sequential oracle 0 [""] (Run w [] 0 0)) = [""]).
Proof.
  split; [reflexivity|]. split.
  - apply pool_never_submits_empty.
  - intros oracle w. apply run_sequential_single.
Qed.

(** What the pool loop guarantees for every list of names: never more than
    [k] futures in flight; and when no name is empty: submission in the
    order of the names, and a full pool as long as names are left, at the
    head of every iteration of [while pending]. *)
Lemma pool_reference_behaviour (k : nat) (names : list string) (s : Pool.state) :
  Pool.reachable k names s →
  (length (in_flight s) ≤ k)%nat
  ∧ (Forall (λ p, p ≠ "") names → in_order names s ∧ saturated k s).
Proof.
  intros Hreach. split; [by apply (pool_bound k names)|].
  intros Hne. by apply pool_saturated.
Qed.

(** ** Witnesses on concrete calls *)

(** The witness of C4: a worker that has written half a file when the time
    limit strikes. *)
Lemma C4_failure_leaves_nothing_witness :
  w_fs (exec (process_platform "B" false stuck_writer (World store_a 0 0)).1
          (World store_a 0 0))
  = delete ".b.csv.tmp" store_a
  ∧ w_killed (exec (process_platform "B" false stuck_writer (World store_a 0 0)).1
                (World store_a 0 0)) = 1.
Proof.
  pose proof (C4_failure_leaves_nothing "B" stuck_writer (World store_a 0 0)) as H.
  cbv zeta in H. destruct H as (_ & Hspawn & Hfail & Htimeout & _).
  destruct (Hfail eq_refl) as (Hfs & _).
  destruct (Htimeout [Some header_only] eq_refl) as [_ Hkill].
  split; [exact Hfs|exact Hkill].
Defined.

(** The witness of C2: an exited worker that left a valid file succeeds,
    with return code 1. *)
Lemma C2_success_iff_witness :
  succeeded (process_platform "B" false
               (Runs [Some sample_artifact] (Exited 1 "boom")) (World ∅ 0 0)).2 = true.
Proof.
  pose proof (C2_success_iff "B" (Runs [Some sample_artifact] (Exited 1 "boom"))
                (World ∅ 0 0)) as H.
  cbv zeta in H. destruct H as (Hiff & _ & _). apply (proj2 Hiff).
  split; [by eexists _, _, _|].
  exists sample_artifact.
  assert (worker_output "B" (Runs [Some sample_artifact] (Exited 1 "boom")) (World ∅ 0 0)
          = Some sample_artifact) as Hout by (vm_compute; reflexivity).
  split; [exact Hout|]. split; [reflexivity|]. split.
  - exists CSV_HEADER. split; [reflexivity|]. intros k Hk. exact Hk.
  - discriminate.
Defined.

(** ** The commit protocol under interleaving *)

Lemma thread_step_frame (p : string) (wk : worker) (c : pc) (w : world) (n : string) :
  n ≠ tmp_name (platform_to_filename p) → n ≠ platform_to_filename p →
  w_fs (thread_step p wk c w).2 !! n = w_fs w !! n.
Proof.
  intros Htmp Hout. unfold thread_step. cbv zeta.
  set (outp := platform_to_filename p) in *. set (tmp := tmp_name outp) in *.
  clearbody tmp outp.
  destruct c as [| |[|content writes] ret|stderr| |m|kill out|out]; cbn [snd].
  - by apply (step_tame tmp).
  - by destruct wk.
  - by destruct ret.
  - destruct content; simpl; by rewrite ?lookup_insert_ne, ?lookup_delete_ne.
  - by destruct (w_fs w !! tmp).
  - destruct (w_fs w !! tmp) as [f|]; [|done]. by destruct (validate f).
  - destruct (w_fs w !! tmp) as [f|] eqn:E; [|done]. cbn [snd step w_fs].
    unfold rename. rewrite E. by rewrite lookup_insert_ne, lookup_delete_ne.
  - apply (exec_tame tmp); [|done]. apply Forall_app. split.
    + destruct kill; repeat constructor.
    + by repeat constructor.
  - done.
Qed.

Lemma thread_step_out (p : string) (wk : worker) (c : pc) (w : world) :
  w_fs (thread_step p wk c w).2 !! platform_to_filename p
  = w_fs w !! platform_to_filename p
  ∨ ∃ m f, c = AtRename m
           ∧ w_fs w !! tmp_name (platform_to_filename p) = Some f
           ∧ w_fs (thread_step p wk c w).2 !! platform_to_filename p = Some f.
Proof.
  assert (platform_to_filename p ≠ tmp_name (platform_to_filename p)) as Hne.
  { intros H. symmetry in H. by apply tmp_name_not_canonical in H. }
  unfold thread_step. cbv zeta.
  set (outp := platform_to_filename p) in *. set (tmp := tmp_name outp) in *.
  clearbody tmp outp.
  destruct c as [| |[|content writes] ret|stderr| |m|kill out|out]; cbn [snd].
  - left. by apply (step_tame tmp).
  - left. by destruct wk.
  - left. by destruct ret.
  - left. destruct content; simpl; by rewrite ?lookup_insert_ne, ?lookup_delete_ne.
  - left. by destruct (w_fs w !! tmp).
  - left. destruct (w_fs w !! tmp) as [f|]; [|done]. by destruct (validate f).
  - destruct (w_fs w !! tmp) as [f|] eqn:E; [|by left]. right. exists m, f.
    split; [done|]. split; [done|]. cbn [snd step w_fs]. unfold rename.
    rewrite E. apply lookup_insert_eq.
  - left. apply (exec_tame tmp); [|done]. apply Forall_app. split.
    + destruct kill; repeat constructor.
    + by repeat constructor.
  - by left.
Qed.

Lemma thread_step_ready (p : string) (wk : worker) (c : pc) (w : world) (m : nat) :
  (thread_step p wk c w).1 = AtRename m →
  ∃ f, w_fs (thread_step p wk c w).2 !! tmp_name (platform_to_filename p) = Some f
       ∧ is_valid f = true.
Proof.
  unfold thread_step. cbv zeta.
  set (outp := platform_to_filename p) in *. set (tmp := tmp_name outp) in *.
  clearbody tmp outp.
  destruct c as [| |[|content writes] ret|stderr| |k|kill out|out]; cbn [fst snd];
    try discriminate.
  - by destruct wk.
  - by destruct ret.
  - by destruct (w_fs w !! tmp).
  - destruct (w_fs w !! tmp) as [f|] eqn:E; [|discriminate].
    destruct (validate f) as [msg|k] eqn:Ev; [discriminate|].
    intros _. exists f. split; [done|]. unfold is_valid. by rewrite Ev.
  - by destruct (w_fs w !! tmp).
Qed.

Lemma tmp_name_inj (a b : string) : tmp_name a = tmp_name b → a = b.
Proof.
  unfold tmp_name. intros H.
  change ("." +:+ a +:+ ".tmp") with (String "." (a +:+ ".tmp")) in H.
  change ("." +:+ b +:+ ".tmp") with (String "." (b +:+ ".tmp")) in H.
  injection H as H. by apply append_inj_l in H.
Qed.

Lemma pool_step_platforms (cfg : config) (i : nat) :
  th_platform <$> (pool_step cfg i).1 = th_platform <$> cfg.1.
Proof.
  unfold pool_step. destruct (cfg.1 !! i) as [t|] eqn:E; [|done].
  destruct (thread_step _ _ _ _) as [c' w']. cbn [fst].
  rewrite list_fmap_insert. cbn [th_platform]. apply list_insert_id.
  by rewrite list_lookup_fmap, E.
Qed.

Lemma pool_step_ok (cfg : config) (i : nat) :
  keys_distinct cfg.1 → config_ok cfg → config_ok (pool_step cfg i).
Proof.
  intros Hkeys [Hstore Hthreads]. unfold pool_step.
  destruct cfg as [ts w]. cbn [fst snd] in *.
  destruct (ts !! i) as [[p wk c]|] eqn:Ei; [|by split]. cbn [th_platform th_worker th_pc].
  pose proof (thread_step_frame p wk c w) as Hframe.
  pose proof (thread_step_out p wk c w) as Hout.
  pose proof (thread_step_ready p wk c w) as Hready.
  destruct (thread_step p wk c w) as [c' w']. cbn [fst snd] in *.
  assert (thread_ok w (Thread p wk c)) as Hi.
  { rewrite Forall_lookup in Hthreads. by apply (Hthreads i). }
  split; cbn [fst snd].
  - intros q f Hq.
    destruct (decide (platform_to_filename q = platform_to_filename p)) as [Heq|Hne].
    + rewrite Heq in Hq. destruct Hout as [Hsame|(m & f' & -> & Htmp & Hnew)].
      * rewrite Hsame, <- Heq in Hq. by apply (Hstore q).
      * rewrite Hnew in Hq. injection Hq as <-.
        destruct Hi as (f'' & Hf'' & Hvalid). cbn [th_platform] in Hf''. congruence.
    + rewrite Hframe in Hq; [by apply (Hstore q)| |done].
      intros H. symmetry in H. by apply tmp_name_not_canonical in H.
  - apply Forall_lookup. intros j t Hj.
    destruct (decide (i = j)) as [<-|Hij].
    + rewrite list_lookup_insert_eq in Hj by (by eapply lookup_lt_Some).
      injection Hj as <-. unfold thread_ok. cbn [th_pc th_platform].
      destruct c'; try done. exact (Hready _ eq_refl).
    + rewrite list_lookup_insert_ne in Hj by done.
      rewrite Forall_lookup in Hthreads. pose proof (Hthreads j t Hj) as Ht.
      unfold thread_ok in *. destruct (th_pc t); try done.
      assert (platform_to_filename (th_platform t) ≠ platform_to_filename p) as Hkey.
      { intros Hk. apply Hij.
        apply (NoDup_lookup _ i j (platform_to_filename p) Hkeys);
          rewrite list_lookup_fmap.
        - by rewrite Ei.
        - rewrite Hj. simpl. by rewrite Hk. }
      rewrite Hframe; [done| |apply tmp_name_not_canonical].
      intros H. by apply tmp_name_inj in H.
Qed.

Lemma pool_step_keys (cfg : config) (i : nat) :
  keys_distinct cfg.1 → keys_distinct (pool_step cfg i).1.
Proof.
  unfold keys_distinct. rewrite !list_fmap_compose. by rewrite pool_step_platforms.
Qed.

Lemma configs_ok (schedule : list nat) (cfg : config) :
  keys_distinct cfg.1 → config_ok cfg →
  Forall config_ok (configs schedule cfg).
Proof.
  revert cfg. induction schedule as [|i schedule IH]; intros cfg Hkeys Hok; simpl.
  - by apply Forall_singleton.
  - apply Forall_cons. split; [done|].
    apply IH; [by apply pool_step_keys|by apply pool_step_ok].
Qed.

Lemma starting_config_ok (ts : list thread) (w : world) :
  store_ok (w_fs w) → Forall (λ t, th_pc t = AtStart) ts → config_ok (ts, w).
Proof.
  intros Hstore Hstart. split; [done|]. cbn [fst snd].
  eapply Forall_impl; [exact Hstart|]. intros t Ht. unfold thread_ok. by rewrite Ht.
Qed.

(** ** One call alone: the steps add up to [process_platform] *)

Lemma run_alone_add (n m : nat) (p : string) (wk : worker) (c : pc) (w : world) :
  run_alone (n + m) p wk c w
  = run_alone m p wk (run_alone n p wk c w).1 (run_alone n p wk c w).2.
Proof.
  revert c w. induction n as [|n IH]; intros c w; [done|].
  simpl. destruct (thread_step p wk c w) as [c' w']. apply IH.
Qed.

Lemma run_alone_running (ws : list (option file)) (ret : communicate)
    (p : string) (wk : worker) (w : world) :
  run_alone (length ws) p wk (Running ws ret) w
  = (Running [] ret,
     exec (AWorkerWrite (tmp_name (platform_to_filename p)) <$> ws) w).
Proof.
  revert w. induction ws as [|content ws IH]; intros w; [done|].
  simpl. by rewrite IH.
Qed.

Lemma run_alone_to_communicate (writes : list (option file)) (ret : communicate)
    (p : string) (w : world) :
  run_alone (2 + length writes) p (Runs writes ret) AtStart w
  = (Running [] ret, exec (ran (tmp_name (platform_to_filename p)) (Runs writes ret)) w).
Proof.
  change (2 + length writes) with (S (S (length writes))).
  cbn [run_alone thread_step]. rewrite run_alone_running.
  unfold ran. cbn [writes_of]. by rewrite exec_app.
Qed.

Lemma thread_alone (p : string) (wk : worker) (w : world) :
  ∃ n, run_alone n p wk AtStart w
       = (Finished (process_platform p false wk w).2,
          exec (process_platform p false wk w).1 w).
Proof.
  destruct wk as [|writes ret]; [by exists 3|].
  pose proof (run_alone_to_communicate writes ret p w) as Hrun.
  pose proof (worker_output_ran p (Runs writes ret) w) as Hout.
  unfold process_platform, worker_output in *. cbv zeta in *.
  fold (ran (tmp_name (platform_to_filename p)) (Runs writes ret)) in *.
  set (W := exec (ran (tmp_name (platform_to_filename p)) (Runs writes ret)) w) in *.
  destruct ret as [rc stderr| | |].
  - destruct (w_fs W !! tmp_name (platform_to_filename p)) as [f|] eqn:E.
    + destruct (validate f) as [msg|m] eqn:Ev.
      * exists (2 + length writes + 4). rewrite run_alone_add, Hrun.
        repeat (cbn [fst snd run_alone thread_step]; rewrite ?E, ?Ev).
        rewrite Hout, Ev. cbn [fst snd]. f_equal; rewrite (exec_app (_ ++ _) _ w); reflexivity.
      * exists (2 + length writes + 4). rewrite run_alone_add, Hrun.
        repeat (cbn [fst snd run_alone thread_step]; rewrite ?E, ?Ev).
        rewrite Hout, Ev. cbn [fst snd]. f_equal; rewrite (exec_app (_ ++ _) _ w); reflexivity.
    + exists (2 + length writes + 3). rewrite run_alone_add, Hrun.
      repeat (cbn [fst snd run_alone thread_step]; rewrite ?E).
      rewrite Hout. cbn [fst snd]. f_equal; rewrite (exec_app (_ ++ _) _ w); reflexivity.
  - exists (2 + length writes + 2). rewrite run_alone_add, Hrun.
    cbn [fst snd run_alone thread_step]. f_equal; rewrite (exec_app (_ ++ _) _ w); reflexivity.
  - exists (2 + length writes + 2). rewrite run_alone_add, Hrun.
    cbn [fst snd run_alone thread_step]. f_equal; rewrite (exec_app (_ ++ _) _ w); reflexivity.
  - exists (2 + length writes + 2). rewrite run_alone_add, Hrun.
    cbn [fst snd run_alone thread_step]. f_equal; rewrite (exec_app (_ ++ _) _ w); reflexivity.
Qed.

(** ** C1: the commit protocol in the pool *)

Lemma run_schedule_in_configs (schedule : list nat) (cfg : config) :
  run_schedule schedule cfg ∈ configs schedule cfg.
Proof.
  revert cfg. induction schedule as [|i schedule IH]; intros cfg; simpl; [left|].
  right. apply IH.
Qed.

(** C1, as the code has it.  Every call writes only at its temporary name
    and renames it onto the canonical name last, once, after validation; a
    call running alone goes through exactly the effects of
    [process_platform] and never shows an invalid file at a canonical path.
    For calls in flight together whose filename keys are pairwise distinct,
    whatever the interleaving of their steps, every configuration reached
    from a store with valid canonical files has valid canonical files. *)
Theorem C1_commit_protocol (ts : list thread) (w : world) (schedule : list nat) :
  keys_distinct ts →
  Forall (λ t, th_pc t = AtStart) ts →
  store_ok (w_fs w) →
  Forall (λ cfg : config, store_ok (w_fs cfg.2)) (configs schedule (ts, w))
  ∧ (∀ p wk w0,
       let tmp := tmp_name (platform_to_filename p) in
       let acts := (process_platform p false wk w0).1 in
       let out := (process_platform p false wk w0).2 in
       is_temp_name tmp = true
       ∧ (∀ q, tmp ≠ platform_to_filename q)
       ∧ Str.endswith tmp ".csv" = false
       ∧ ((Forall (tame tmp) acts ∧ succeeded out = false)
          ∨ (acts = ran tmp wk ++ [ARename tmp (platform_to_filename p)]
             ∧ succeeded out = true
             ∧ ∃ f, w_fs (exec (ran tmp wk) w0) !! tmp = Some f ∧ is_valid f = true))
       ∧ (store_ok (w_fs w0) → ∀ w', w' ∈ trace acts w0 → store_ok (w_fs w'))
       ∧ ∃ n, run_alone n p wk AtStart w0 = (Finished out, exec acts w0)).
Proof.
  intros Hkeys Hstart Hstore. split.
  - eapply Forall_impl; [apply configs_ok; [done|by apply starting_config_ok]|].
    by intros cfg [? _].
  - intros p wk w0. cbv zeta.
    pose proof (call_commit_protocol p wk w0) as H. cbv zeta in H.
    destruct H as (H1 & H2 & H3 & _ & H5 & _ & H7).
    split; [done|]. split; [done|]. split; [done|]. split; [done|].
    split; [done|]. apply thread_alone.
Qed.

(** The witness of C1: the calls for "A" and "B", interleaved. *)
Lemma C1_commit_protocol_witness :
  Forall (λ cfg : config, store_ok (w_fs cfg.2))
         (configs [0; 1; 1; 0; 0; 1; 0; 1; 0; 1; 0; 1; 0; 1]
            ([Thread "A" slow_writer AtStart; Thread "B" stuck_writer AtStart],
             World ∅ 0 0)).
Proof.
  assert (keys_distinct [Thread "A" slow_writer AtStart; Thread "B" stuck_writer AtStart])
    as Hkeys.
  { unfold keys_distinct. apply (bool_decide_unpack _). vm_compute. exact I. }
  assert (Forall (λ t, th_pc t = AtStart)
            [Thread "A" slow_writer AtStart; Thread "B" stuck_writer AtStart]) as Hstart.
  { repeat constructor. }
  assert (store_ok (w_fs (World ∅ 0 0))) as Hstore.
  { intros q f Hq. simpl in Hq. rewrite lookup_empty in Hq. discriminate Hq. }
  exact (proj1 (C1_commit_protocol _ _ _ Hkeys Hstart Hstore)).
Defined.

(** C1 as stated fails: "Sega CD" and "Sega-CD" share the temporary path
    [.sega_cd.csv.tmp]; the first call validates its worker's file, the
    second worker then writes a header-only file there, and the first call
    renames that file onto [sega_cd.csv]. *)
Lemma C1_counterexample :
  ¬ (∀ (ts : list thread) (w : world) (schedule : list nat),
       Forall (λ t, th_pc t = AtStart) ts →
       store_ok (w_fs w) →
       Forall (λ cfg : config, store_ok (w_fs cfg.2)) (configs schedule (ts, w))).
Proof.
  intros H.
  assert (Forall (λ t, th_pc t = AtStart) colliding_calls) as Hstart
    by (repeat constructor).
  assert (store_ok (w_fs (World ∅ 0 0))) as Hstore.
  { intros q f Hq. simpl in Hq. rewrite lookup_empty in Hq. discriminate Hq. }
  pose proof (H colliding_calls (World ∅ 0 0) colliding_schedule Hstart Hstore) as Hall.
  rewrite Forall_forall in Hall.
  pose proof (Hall _ (run_schedule_in_configs colliding_schedule
                        (colliding_calls, World ∅ 0 0))) as Hfinal.
  assert (w_fs (run_schedule colliding_schedule (colliding_calls, World ∅ 0 0)).2
            !! platform_to_filename "Sega CD" = Some header_only) as Hfile
    by (vm_compute; reflexivity).
  pose proof (Hfinal "Sega CD" header_only Hfile) as Hvalid.
  vm_compute in Hvalid. discriminate Hvalid.
Qed.

(** * Further properties of the scripts *)

(** ** [platform_to_filename]: the name is safe *)

Lemma safe_char_lower (c : ascii) : safe_char c = true → Str.lower_char c = c.
Proof. destruct c as [[] [] [] [] [] [] [] []]; vm_compute; congruence. Qed.

Lemma lower_safe (s : string) : all_safe s = true → Str.lower s = s.
Proof.
  induction s as [|c s IH]; simpl; [done|].
  intros [Hc Hs]%andb_true_iff. by rewrite safe_char_lower, IH.
Qed.

Lemma all_safe_app (s t : string) : all_safe (s +:+ t) = all_safe s && all_safe t.
Proof.
  induction s as [|c s IH]; [done|].
  change (String c s +:+ t) with (String c (s +:+ t)). simpl.
  by rewrite IH, andb_assoc.
Qed.

Lemma all_alnum_safe (r : string) : all_alnum r = true → all_safe r = true.
Proof.
  induction r as [|c r IH]; simpl; [done|].
  intros [Hc Hr]%andb_true_iff. unfold safe_char. by rewrite Hc, IH.
Qed.

Lemma join_safe (rs : list string) : Forall is_run rs → all_safe (join rs) = true.
Proof.
  induction 1 as [|r rs [_ Hr] Hrs IH]; [done|].
  destruct rs as [|r' rs]; [by apply all_alnum_safe|].
  change (join (r :: r' :: rs)) with (r +:+ String Str.underscore (join (r' :: rs))).
  rewrite all_safe_app, all_alnum_safe by done.
  cbn [all_safe andb]. by rewrite IH.
Qed.

Lemma single_underscores_run (b : bool) (r t : string) :
  is_run r → single_underscores b (r +:+ t) = single_underscores false t.
Proof.
  intros [Hne Hr]. revert b. induction r as [|c r IH]; intros b; [done|].
  simpl in Hr. apply andb_true_iff in Hr as [Hc Hr].
  change (String c r +:+ t) with (String c (r +:+ t)). simpl.
  rewrite (alnum_not_underscore c Hc).
  destruct r as [|c' r]; [done|]. by apply IH.
Qed.

Lemma join_single_underscores (b : bool) (rs : list string) :
  Forall is_run rs → single_underscores b (join rs) = true.
Proof.
  intros Hrs. revert b. induction Hrs as [|r rs Hr Hrs IH]; intros b; [done|].
  destruct rs as [|r' rs].
  - simpl. rewrite <- (append_empty_r r). by rewrite single_underscores_run.
  - change (join (r :: r' :: rs)) with (r +:+ String Str.underscore (join (r' :: rs))).
    rewrite single_underscores_run by done. simpl. apply IH.
Qed.

Lemma join_first_char (rs : list string) :
  Forall is_run rs → Str.startswith (join rs) "_" = false.
Proof.
  intros Hrs. destruct Hrs as [|[|c r] rs' [Hne Hr] _]; [done|done|].
  rewrite join_cons_char. simpl in Hr. apply andb_true_iff in Hr as [Hc _].
  pose proof (alnum_not_underscore c Hc) as Hu. unfold Str.underscore in Hu.
  cbn [Str.startswith]. by rewrite Hu.
Qed.

Lemma last_char_run (r : string) :
  is_run r → ∃ c, last_char r = Some c ∧ Str.is_alnum c = true.
Proof.
  intros [Hne Hr]. induction r as [|c r IH]; [done|].
  simpl in Hr. apply andb_true_iff in Hr as [Hc Hr]. simpl.
  destruct r as [|c' r]; [by exists c|].
  destruct IH as (d & -> & Hd); [done..|]. by exists d.
Qed.

Lemma last_char_join (rs : list string) :
  Forall is_run rs → rs ≠ [] →
  ∃ c, last_char (join rs) = Some c ∧ Str.is_alnum c = true.
Proof.
  induction 1 as [|r rs Hr Hrs IH]; intros Hne; [done|].
  destruct rs as [|r' rs]; [by apply last_char_run|].
  change (join (r :: r' :: rs)) with (r +:+ String Str.underscore (join (r' :: rs))).
  rewrite last_char_append by done.
  destruct IH as (d & Hd & Hal); [done|]. exists d.
  split; [|done]. cbn [last_char]. by rewrite Hd.
Qed.

Lemma join_last_char (rs : list string) :
  Forall is_run rs → Str.endswith (join rs) "_" = false.
Proof.
  intros Hrs. destruct (Str.endswith (join rs) "_") eqn:E; [|done].
  apply endswith_append in E as [pre E]. apply (f_equal last_char) in E.
  rewrite last_char_append in E by done. exfalso.
  destruct rs as [|r rs]; [by destruct pre|].
  destruct (last_char_join (r :: rs) Hrs) as (c & Hc & Hal); [done|].
  rewrite Hc in E. injection E as ->. by vm_compute in Hal.
Qed.

(** X1. The name [platform_to_filename] builds is safe for every input:
    apart from the extension it consists of characters of [[a-z0-9_]]
    only, neither starts nor ends with an underscore, has no two
    underscores in a row, and is a fixed point: normalising the stem again
    gives the same file name. *)
Theorem X1_filename_is_safe (p : string) :
  platform_to_filename p = platform_slug p +:+ ".csv"
  ∧ all_safe (platform_slug p) = true
  ∧ Str.startswith (platform_slug p) "_" = false
  ∧ Str.endswith (platform_slug p) "_" = false
  ∧ single_underscores false (platform_slug p) = true
  ∧ platform_to_filename (platform_slug p) = platform_to_filename p.
Proof.
  pose proof (alnum_runs_are_runs (Str.lower p)) as Hruns.
  split; [reflexivity|]. rewrite platform_slug_runs.
  split; [by apply join_safe|].
  split; [by apply join_first_char|]. split; [by apply join_last_char|].
  split; [by apply join_single_underscores|].
  unfold platform_to_filename. f_equal.
  rewrite !platform_slug_runs, (lower_safe (join _)) by by apply join_safe.
  by rewrite alnum_runs_join.
Qed.

(** ** [cleanup_temp_files] *)

Lemma cleanup_lookup (fs : store) (n : string) :
  cleanup_temp_files fs !! n = if is_temp_name n then None else fs !! n.
Proof.
  unfold cleanup_temp_files. apply option_eq. intros f.
  rewrite map_lookup_filter_Some. simpl.
  destruct (is_temp_name n); [|tauto]. split; [by intros [_ ?]|done].
Qed.

Lemma csv_name_not_temp (n : string) :
  Str.endswith n ".csv" = true → is_temp_name n = false.
Proof.
  intros [pre ->]%endswith_append. unfold is_temp_name.
  destruct (Str.endswith (pre +:+ ".csv") ".tmp") eqn:E;
    [|by rewrite andb_false_r].
  apply endswith_append in E as [pre' E]. apply (f_equal last_char) in E.
  by rewrite !last_char_append in E.
Qed.

(** X2. The clean-up pass removes every temporary file an executor call can
    have left, and nothing the rest of the program reads: every [*.csv]
    file keeps its content, so the same platforms are done and a valid
    store stays valid; running it twice changes nothing more. *)
Theorem X2_cleanup_removes_only_temp (fs : store) :
  (∀ p, cleanup_temp_files fs !! tmp_name (platform_to_filename p) = None)
  ∧ (∀ n, Str.endswith n ".csv" = true → cleanup_temp_files fs !! n = fs !! n)
  ∧ (∀ p, is_done (cleanup_temp_files fs) p = is_done fs p)
  ∧ (store_ok fs → store_ok (cleanup_temp_files fs))
  ∧ cleanup_temp_files (cleanup_temp_files fs) = cleanup_temp_files fs.
Proof.
  assert (∀ n, Str.endswith n ".csv" = true → cleanup_temp_files fs !! n = fs !! n)
    as Hcsv.
  { intros n Hn. by rewrite cleanup_lookup, csv_name_not_temp. }
  assert (∀ p, cleanup_temp_files fs !! platform_to_filename p
               = fs !! platform_to_filename p) as Hkey.
  { intros p. apply Hcsv. unfold platform_to_filename. apply endswith_app. }
  split; [|split; [done|split; [|split]]].
  - intros p. by rewrite cleanup_lookup, tmp_name_is_temp.
  - intros p. unfold is_done. by rewrite Hkey.
  - intros Hok q f. rewrite Hkey. apply Hok.
  - apply map_eq. intros n. rewrite !cleanup_lookup. by destruct (is_temp_name n).
Qed.

(** ** The validation block of [process_platform] *)

Lemma required_columns_test (h : list string) :
  forallb (λ k, bool_decide (k ∈ h)) CSV_HEADER = true ↔ ∀ k, k ∈ CSV_HEADER → k ∈ h.
Proof.
  rewrite forallb_forall. split.
  - intros H k Hk%list_elem_of_In. by apply (bool_decide_eq_true_1 _), H.
  - intros H k Hk%list_elem_of_In. by apply bool_decide_eq_true_2, H.
Qed.

(** X3. Validation looks at the header as a set and at the data lines
    only through their number: with all required columns present, extra
    columns and any column order give the same verdict, blank lines are not
    counted as data, and the number reported on success is the number of
    non-blank lines after the header, never zero. *)
Theorem X3_validate_tolerates_columns (h h' : list string) (lines : list (list string))
    (e : read_end) :
  (∀ k, k ∈ CSV_HEADER → k ∈ h) →
  (∀ k, k ∈ CSV_HEADER → k ∈ h') →
  validate (File (h :: lines) e) = validate (File (h' :: lines) e)
  ∧ (∀ n, validate (File (h :: lines) e) = inr n →
          n = length (filter (λ r, r ≠ []) lines) ∧ 0 < n ∧ e = Eof)
  ∧ (e = Eof → filter (λ r, r ≠ []) lines = [] →
     validate (File (h :: lines) e) = inl NoDataRows).
Proof.
  intros Hh Hh'. unfold validate, dict_rows. cbn [file_lines file_end].
  rewrite (proj2 (required_columns_test h) Hh), (proj2 (required_columns_test h') Hh').
  destruct e; [|by repeat split].
  destruct (filter (λ r, r ≠ []) lines) as [|r rs] eqn:E.
  - by repeat split.
  - cbn [fmap list_fmap length]. rewrite !length_fmap. split; [done|].
    split; [|done]. intros n [= <-]. split; [done|]. split; [lia|done].
Qed.

(** The witness of X3: the required columns in reverse order with one
    more column, against the canonical header. *)
Lemma X3_validate_tolerates_columns_witness :
  validate (File (CSV_HEADER :: [["B"]; []; ["B"; "x"]]) Eof)
  = validate (File ((rev CSV_HEADER ++ ["extra"]) :: [["B"]; []; ["B"; "x"]]) Eof).
Proof.
  refine (proj1 (X3_validate_tolerates_columns CSV_HEADER (rev CSV_HEADER ++ ["extra"])
                   [["B"]; []; ["B"; "x"]] Eof _ _)).
  - intros k Hk. exact Hk.
  - intros k Hk. apply elem_of_app. left. by apply elem_of_reverse.
Defined.

(** X4. The missing-columns failure is reported exactly when the file gave
    a header (or was empty) that lacks a required column, also when the
    lines after the header cannot be read; the message then carries the set
    of the required columns the header lacks, which is never empty. *)
Theorem X4_missing_columns_exact (f : file) :
  let expected : gset string := list_to_set CSV_HEADER in
  let actual : gset string := list_to_set (default [] (fieldnames f)) in
  ((∃ m, validate f = inl (MissingColumns m)) ↔
   ¬ expected ⊆ actual ∧ ¬ (file_lines f = [] ∧ file_end f = Raises))
  ∧ (∀ m, validate f = inl (MissingColumns m) →
       m = expected ∖ actual ∧ m ≠ ∅
       ∧ ∀ k, k ∈ m ↔ k ∈ CSV_HEADER ∧ k ∉ default [] (fieldnames f)).
Proof.
  cbv zeta.
  assert (∀ h : list string,
            (list_to_set CSV_HEADER : gset string) ⊆ list_to_set h
            ↔ ∀ k, k ∈ CSV_HEADER → k ∈ h) as Hsub.
  { intros h. split.
    - intros H k Hk. apply (elem_of_list_to_set (C := gset string)), H.
      by apply elem_of_list_to_set.
    - intros H k Hk%elem_of_list_to_set. apply elem_of_list_to_set. by apply H. }
  assert (∀ h : list string,
            ¬ (list_to_set CSV_HEADER : gset string) ⊆ list_to_set h →
            ∀ m : gset string, m = list_to_set CSV_HEADER ∖ list_to_set h →
            m ≠ ∅ ∧ ∀ k, k ∈ m ↔ k ∈ CSV_HEADER ∧ k ∉ h) as Hset.
  { intros h Hn m ->. split.
    - intros He. apply Hn. intros k Hk.
      destruct (decide (k ∈ (list_to_set h : gset string))) as [|Hkh]; [done|].
      assert (k ∈ (list_to_set CSV_HEADER ∖ list_to_set h : gset string)) as Hin
        by by apply elem_of_difference.
      rewrite He in Hin. by apply elem_of_empty in Hin.
    - intros k. by rewrite elem_of_difference, !elem_of_list_to_set. }
  assert (¬ (list_to_set CSV_HEADER : gset string) ⊆ list_to_set []) as Hempty.
  { rewrite Hsub. intros H. specialize (H "platform"). apply (elem_of_nil "platform"), H.
    unfold CSV_HEADER. left. }
  unfold validate, fieldnames.
  destruct f as [[|h t] e]; cbn [file_lines file_end head default]; unfold id.
  - destruct e; split.
    + split; [intros _|by eexists]. split; [done|]. by intros [_ ?].
    + intros m [= <-].
      assert ((list_to_set CSV_HEADER : gset string)
              = list_to_set CSV_HEADER ∖ list_to_set []) as Heq.
      { change (list_to_set []) with (∅ : gset string). by rewrite difference_empty_L. }
      split; [exact Heq|]. by apply (Hset [] Hempty).
    + split; [by intros [m ?]|]. intros [_ H]. by destruct H.
    + intros m ?. done.
  - destruct (forallb (λ k, bool_decide (k ∈ h)) CSV_HEADER) eqn:Eh.
    + pose proof (proj1 (required_columns_test h) Eh) as Hall. apply Hsub in Hall.
      split.
      * split; [|by intros [? _]]. intros [m Hm]. destruct e; [|done].
        by destruct (dict_rows (File (h :: t) Eof)).
      * intros m Hm. destruct e; [|done]. by destruct (dict_rows (File (h :: t) Eof)).
    + assert (¬ (list_to_set CSV_HEADER : gset string) ⊆ list_to_set h) as Hn.
      { rewrite Hsub. intros Hall. apply (proj2 (required_columns_test h)) in Hall.
        rewrite Hall in Eh. discriminate Eh. }
      split.
      * split; [intros _|by eexists]. split; [done|]. by intros [? _].
      * intros m [= <-]. split; [done|]. by apply (Hset h Hn).
Qed.

(** ** Reading a row with [DictReader], writing it with [DictWriter] *)

Lemma dict_zip_fold_absent (h row : list string) (d : dict) (k : string) :
  k ∉ h →
  foldl (λ d kv, <[Some kv.1 := VStr kv.2]> d) d (zip h row) !! Some k = d !! Some k.
Proof.
  revert row d. induction h as [|a h IH]; intros row d Hk; [done|].
  destruct row as [|c row]; [done|]. cbn [zip zip_with foldl fst snd].
  apply not_elem_of_cons in Hk as [Hka Hk]. rewrite IH by done.
  apply lookup_insert_ne. congruence.
Qed.

Lemma dict_zip_fold_lookup (h row : list string) (d : dict) (i : nat) (k : string) :
  NoDup h → h !! i = Some k →
  foldl (λ d kv, <[Some kv.1 := VStr kv.2]> d) d (zip h row) !! Some k
  = match row !! i with Some c => Some (VStr c) | None => d !! Some k end.
Proof.
  revert row d i. induction h as [|a h IH]; intros row d i Hnd Hi; [done|].
  apply NoDup_cons in Hnd as [Ha Hnd].
  destruct row as [|c row]; [by destruct i|].
  cbn [zip zip_with foldl fst snd]. destruct i as [|i].
  - injection Hi as ->. rewrite dict_zip_fold_absent by done. apply lookup_insert_eq.
  - cbn [lookup list_lookup] in *. rewrite (IH row _ i) by done.
    destruct (row !! i); [done|]. apply lookup_insert_ne.
    intros [= ->]. apply Ha. by eapply list_elem_of_lookup_2.
Qed.

Lemma restval_fold_lookup (l : list string) (d : dict) (k : string) :
  foldl (λ d key, <[Some key := VNone]> d) d l !! Some k
  = if decide (k ∈ l) then Some VNone else d !! Some k.
Proof.
  revert d. induction l as [|a l IH]; intros d; [done|]. cbn [foldl]. rewrite IH.
  destruct (decide (k ∈ l)) as [Hl|Hl].
  - rewrite decide_True; [done|by right].
  - destruct (decide (k = a)) as [->|Hka].
    + rewrite decide_True by left. apply lookup_insert_eq.
    + rewrite decide_False by (by intros [?|?]%elem_of_cons).
      apply lookup_insert_ne. congruence.
Qed.

Lemma get_cell_dict_row (h row : list string) (i : nat) (k : string) :
  NoDup h → h !! i = Some k → get_cell (dict_row h row) k = default "" (row !! i).
Proof.
  intros Hnd Hi. unfold get_cell, dict_row, dict_zip. cbv zeta.
  destruct (Nat.ltb (length h) (length row)) eqn:E1;
    [|destruct (Nat.ltb (length row) (length h)) eqn:E2].
  - rewrite lookup_insert_ne by done. rewrite (dict_zip_fold_lookup h row ∅ i k) by done.
    by destruct (row !! i).
  - rewrite restval_fold_lookup. destruct (decide (k ∈ drop (length row) h)) as [Hin|Hin].
    + apply list_elem_of_lookup_1 in Hin as [j Hj]. rewrite lookup_drop in Hj.
      rewrite (NoDup_lookup h i (length row + j) k Hnd Hi Hj).
      by rewrite lookup_ge_None_2 by lia.
    + rewrite (dict_zip_fold_lookup h row ∅ i k) by done. by destruct (row !! i).
  - rewrite (dict_zip_fold_lookup h row ∅ i k) by done. by destruct (row !! i).
Qed.

Lemma get_cell_absent (h row : list string) (k : string) :
  k ∉ h → get_cell (dict_row h row) k = "".
Proof.
  intros Hk. unfold get_cell, dict_row, dict_zip. cbv zeta.
  destruct (Nat.ltb (length h) (length row));
    [|destruct (Nat.ltb (length row) (length h))].
  - rewrite lookup_insert_ne by done. by rewrite dict_zip_fold_absent.
  - rewrite restval_fold_lookup.
    destruct (decide (k ∈ drop (length row) h)); [done|by rewrite dict_zip_fold_absent].
  - by rewrite dict_zip_fold_absent.
Qed.

Lemma CSV_HEADER_nodup : NoDup CSV_HEADER.
Proof. apply (bool_decide_unpack _). by vm_compute. Qed.

Lemma clean_row_canonical (row : list string) :
  clean_row (dict_row CSV_HEADER row)
  = take (length CSV_HEADER) (row ++ replicate (length CSV_HEADER) "").
Proof.
  apply list_eq. intros i. unfold clean_row. rewrite list_lookup_fmap.
  destruct (CSV_HEADER !! i) as [k|] eqn:Hk; cbn [fmap option_fmap option_map].
  - rewrite (get_cell_dict_row _ _ i) by (done || apply CSV_HEADER_nodup).
    apply lookup_lt_Some in Hk. rewrite lookup_take_lt by done.
    destruct (row !! i) as [c|] eqn:Hc.
    + by rewrite (lookup_app_l_Some _ _ _ _ Hc).
    + apply lookup_ge_None_1 in Hc. rewrite lookup_app_r by done.
      cbn [default]. symmetry. f_equal. apply lookup_replicate_2. lia.
  - apply lookup_ge_None_1 in Hk. symmetry. apply lookup_ge_None_2.
    rewrite length_take. lia.
Qed.

(** X5. A row read by [DictReader] and laid out again by the aggregator
    keeps its cells by column name, not by position: under a header without
    repeated names, the cell written for a column is the cell the line had
    in that column, and the empty string when the line was too short for
    it; a column the header lacks is written as the empty string.  Under
    the canonical header a line is therefore copied, padded with empty
    cells or cut to the thirteen columns. *)
Theorem X5_cells_matched_by_name (h row : list string) :
  (NoDup h → ∀ i k, h !! i = Some k →
     get_cell (dict_row h row) k = default "" (row !! i))
  ∧ (∀ k, k ∉ h → get_cell (dict_row h row) k = "")
  ∧ clean_row (dict_row CSV_HEADER row)
    = take (length CSV_HEADER) (row ++ replicate (length CSV_HEADER) "")
  ∧ (length row = length CSV_HEADER → clean_row (dict_row CSV_HEADER row) = row).
Proof.
  split; [|split; [|split]].
  - intros Hnd i k Hi. by apply get_cell_dict_row.
  - intros k Hk. by apply get_cell_absent.
  - apply clean_row_canonical.
  - intros Hlen. rewrite clean_row_canonical, <- Hlen. by rewrite take_app_length.
Qed.

(** ** The file written by [combine_all_csvs] *)

Lemma filter_ext_elem {A} (P Q : A → Prop) `{!∀ x, Decision (P x)} `{!∀ x, Decision (Q x)}
    (l : list A) :
  (∀ x, x ∈ l → P x ↔ Q x) → filter P l = filter Q l.
Proof.
  induction l as [|x l IH]; intros Hpq; [done|].
  rewrite !filter_cons, IH by (intros y Hy; apply Hpq; by right).
  pose proof (Hpq x (list_elem_of_here x l)) as Hx.
  destruct (decide (P x)), (decide (Q x)); tauto || done.
Qed.

Lemma clean_rows_valid (rows : list dict) :
  rows ≠ [] →
  validate (File (CSV_HEADER :: (clean_row <$> rows)) Eof) = inr (length rows).
Proof.
  intros Hne. unfold validate, dict_rows. cbn [file_lines file_end].
  rewrite (proj2 (required_columns_test CSV_HEADER)) by done.
  rewrite filter_all.
  - destruct rows as [|r rows]; [done|]. cbn [fmap list_fmap length].
    by rewrite !length_fmap.
  - apply Forall_fmap, Forall_forall. intros r _. simpl. unfold clean_row.
    intros H. by apply (f_equal length) in H.
Qed.

(** X6. Whatever the store holds, the aggregator changes no file but the
    combined one.  When it returns zero it has written nothing; otherwise
    the combined file is the canonical header followed by as many lines as
    the number returned, each of thirteen cells, and it passes the very
    validation the executor applies to a worker's file, with that number of
    data rows.  The warnings name, once each, the scanned files whose
    reading raised.  An older combined file is never read back: the rows
    and warnings are the same whatever it held. *)
Theorem X6_combined_file_is_valid (fs : store) :
  let c := combine_all_csvs fs in
  (∀ n, n ≠ COMBINED_CSV → combined_store c !! n = fs !! n)
  ∧ (combined_count c = 0 → combined_store c = fs)
  ∧ (0 < combined_count c →
     ∃ lines,
       combined_store c !! COMBINED_CSV = Some (File (CSV_HEADER :: lines) Eof)
       ∧ length lines = combined_count c
       ∧ Forall (λ r, length r = length CSV_HEADER) lines
       ∧ validate (File (CSV_HEADER :: lines) Eof) = inr (combined_count c))
  ∧ (∀ n, n ∈ combined_warnings c ↔
          Str.endswith n ".csv" = true ∧ n ≠ COMBINED_CSV
          ∧ ∃ f, fs !! n = Some f ∧ file_end f = Raises)
  ∧ NoDup (combined_warnings c)
  ∧ (∀ g, combined_count (combine_all_csvs (<[COMBINED_CSV := g]> fs)) = combined_count c
          ∧ combined_warnings (combine_all_csvs (<[COMBINED_CSV := g]> fs))
            = combined_warnings c).
Proof.
  cbv zeta.
  assert (∀ g, combined_count (combine_all_csvs (<[COMBINED_CSV := g]> fs))
               = combined_count (combine_all_csvs fs)
             ∧ combined_warnings (combine_all_csvs (<[COMBINED_CSV := g]> fs))
               = combined_warnings (combine_all_csvs fs)) as Hold.
  { intros g. rewrite !combine_all_csvs_spec. cbv zeta.
    rewrite combine_rows_insert_combined, scanned_insert_combined.
    assert (filter (read_raises (<[COMBINED_CSV := g]> fs)) (scanned fs)
            = filter (read_raises fs) (scanned fs)) as ->.
    { apply filter_ext_elem.
      intros n (_ & _ & Hn)%elem_of_scanned. unfold read_raises.
      by rewrite lookup_insert_ne. }
    by destruct (flat_map (read_rows fs) (scanned fs)). }
  rewrite combine_all_csvs_spec in *. cbv zeta in *.
  set (rows := flat_map (read_rows fs) (scanned fs)) in *.
  assert (∀ n, n ∈ filter (read_raises fs) (scanned fs) ↔
               Str.endswith n ".csv" = true ∧ n ≠ COMBINED_CSV
               ∧ ∃ f, fs !! n = Some f ∧ file_end f = Raises) as Hwarn.
  { intros n. rewrite list_elem_of_filter, elem_of_scanned. unfold read_raises.
    split.
    - intros [Hf (_ & Hcsv & Hn)]. done.
    - intros (Hcsv & Hn & f & Hf & He). split; [by exists f|]. split; [by exists f|done]. }
  assert (NoDup (filter (read_raises fs) (scanned fs))) as Hnd
    by apply NoDup_filter, scanned_nodup.
  destruct rows as [|r rows'] eqn:Hrows; cbn [combined_store combined_count combined_warnings].
  - split; [done|]. split; [done|]. split; [intros H; by apply Nat.lt_irrefl in H|].
    split; [done|]. split; [done|]. apply Hold.
  - split; [intros n Hn; by apply lookup_insert_ne|].
    split; [intros H; discriminate H|].
    split; [|split; [done|split; [done|apply Hold]]].
    intros _. exists (clean_row <$> r :: rows'). split; [apply lookup_insert_eq|].
    split; [by rewrite length_fmap|]. split.
    + apply Forall_fmap, Forall_forall. intros x _. apply (proj1 (clean_row_cells x)).
    + by rewrite clean_rows_valid.
Qed.

(** ** Aggregating files that carry the canonical header *)

Lemma fmap_flat_map {A B C} (f : B → C) (g : A → list B) (l : list A) :
  f <$> flat_map g l = flat_map (λ x, f <$> g x) l.
Proof.
  induction l as [|x l IH]; [done|]. simpl. by rewrite fmap_app, IH.
Qed.

Lemma clean_rows_canonical (t : list (list string)) :
  Forall (λ r, length r = length CSV_HEADER) t →
  clean_row <$> (dict_row CSV_HEADER <$> filter (λ r, r ≠ []) t) = t.
Proof.
  intros Ht. rewrite filter_all.
  - induction Ht as [|r t Hr Ht IH]; [done|]. cbn [fmap list_fmap] in *.
    rewrite IH. f_equal. rewrite clean_row_canonical, <- Hr. by rewrite take_app_length.
  - eapply Forall_impl; [exact Ht|]. intros r Hr ->. discriminate Hr.
Qed.

(** X7. When every scanned file that has a header carries the canonical
    one and all its lines have thirteen cells, the aggregation is a plain
    concatenation: the combined file is the header followed by the data
    lines of the scanned files, unchanged, file after file in the order of
    their names; the number returned is the number of those lines. *)
Theorem X7_canonical_files_concatenated (fs : store) :
  (∀ n f, n ∈ scanned fs → fs !! n = Some f →
     (∀ h, head (file_lines f) = Some h → h = CSV_HEADER)
     ∧ Forall (λ r, length r = length CSV_HEADER) (tail (file_lines f))) →
  let lines := flat_map (data_lines fs) (scanned fs) in
  combined_count (combine_all_csvs fs) = length lines
  ∧ (lines ≠ [] →
     combined_store (combine_all_csvs fs) !! COMBINED_CSV
     = Some (File (CSV_HEADER :: lines) Eof)).
Proof.
  intros Hcanon. cbv zeta.
  assert (clean_row <$> flat_map (read_rows fs) (scanned fs)
          = flat_map (data_lines fs) (scanned fs)) as Hlines.
  { rewrite fmap_flat_map. apply flat_map_ext_elem. intros n Hn.
    unfold read_rows, data_lines. destruct (fs !! n) as [f|] eqn:Hf; [|done].
    destruct (Hcanon n f Hn Hf) as [Hh Ht]. unfold dict_rows.
    destruct (file_lines f) as [|h t]; [done|]. cbn [head tail] in *.
    rewrite (Hh h eq_refl). by apply clean_rows_canonical. }
  rewrite combine_all_csvs_spec. cbv zeta. rewrite <- Hlines.
  destruct (flat_map (read_rows fs) (scanned fs)) as [|r rows];
    cbn [combined_count combined_store].
  - done.
  - split; [by rewrite !length_fmap|]. intros _. apply lookup_insert_eq.
Qed.

Lemma X7_canonical_files_concatenated_witness :
  combined_count (combine_all_csvs store_ab) = 3
  ∧ combined_store (combine_all_csvs store_ab) !! COMBINED_CSV
    = Some (File (CSV_HEADER :: tail (file_lines other_artifact)
                              ++ tail (file_lines sample_artifact)) Eof).
Proof.
  assert (scanned store_ab = ["a.csv"; "b.csv"]) as Hs by (vm_compute; reflexivity).
  assert (store_ab !! "a.csv" = Some other_artifact) as Ha by (vm_compute; reflexivity).
  assert (store_ab !! "b.csv" = Some sample_artifact) as Hb by (vm_compute; reflexivity).
  assert (flat_map (data_lines store_ab) (scanned store_ab)
          = tail (file_lines other_artifact) ++ tail (file_lines sample_artifact)) as Hl.
  { rewrite Hs. unfold data_lines. cbn [flat_map]. rewrite Ha, Hb. by rewrite app_nil_r. }
  pose proof (X7_canonical_files_concatenated store_ab) as H. cbv zeta in H.
  rewrite Hl in H. destruct H as [Hcount Hfile].
  - intros n f Hn Hf. rewrite Hs in Hn.
    assert (n = "a.csv" ∨ n = "b.csv") as Hcases.
    { inversion Hn as [|? ? ? Hn2]; [by left|].
      inversion Hn2 as [|? ? ? Hn3]; [by right|]. inversion Hn3. }
    clear Hn. destruct Hcases as [Hn'|Hn'].
    + rewrite Hn', Ha in Hf. injection Hf as <-. split.
      * intros h [= <-]. reflexivity.
      * repeat constructor.
    + rewrite Hn', Hb in Hf. injection Hf as <-. split.
      * intros h [= <-]. reflexivity.
      * repeat constructor.
  - split; [exact Hcount|]. apply Hfile. discriminate.
Defined.

(** ** The sequential loop of [main] *)

Lemma step_effect_frame (p : string) (a : action) (w : world) (n : string) :
  call_effect p a → is_temp_name n = false →
  (n ≠ platform_to_filename p → w_fs (step a w) !! n = w_fs w !! n)
  ∧ (is_Some (w_fs w !! n) → is_Some (w_fs (step a w) !! n)).
Proof.
  intros Ha Ht.
  assert (n ≠ tmp_name (platform_to_filename p)) as Hne.
  { intros ->. by rewrite tmp_name_is_temp in Ht. }
  destruct Ha as [Ha| ->].
  - rewrite (step_tame (tmp_name (platform_to_filename p))) by done. done.
  - simpl. unfold rename. destruct (w_fs w !! tmp_name _) as [f|]; [|done]. split.
    + intros Hn. by rewrite lookup_insert_ne, lookup_delete_ne.
    + intros Hn. destruct (decide (platform_to_filename p = n)) as [<-|Hpn].
      * rewrite lookup_insert_eq. by eexists.
      * by rewrite lookup_insert_ne, lookup_delete_ne.
Qed.

Lemma exec_effects_frame (p : string) (acts : list action) (w : world) (n : string) :
  Forall (call_effect p) acts → is_temp_name n = false →
  (n ≠ platform_to_filename p → w_fs (exec acts w) !! n = w_fs w !! n)
  ∧ (is_Some (w_fs w !! n) → is_Some (w_fs (exec acts w) !! n)).
Proof.
  intros Hacts Ht. revert w. induction Hacts as [|a acts Ha _ IH]; intros w; [done|].
  cbn [exec foldl]. fold (exec acts (step a w)).
  destruct (IH (step a w)) as [IH1 IH2].
  destruct (step_effect_frame p a w n Ha Ht) as [H1 H2]. split.
  - intros Hn. by rewrite IH1, H1.
  - intros Hn. by apply IH2, H2.
Qed.

Lemma call_spawned (p : string) (wk : worker) (w : world) :
  w_spawned (exec (process_platform p false wk w).1 w)
  = w_spawned w + length (spawn_of wk).
Proof.
  pose proof (process_platform_shape p wk w) as Hshape. cbv zeta in Hshape.
  pose proof (ran_counts (tmp_name (platform_to_filename p)) wk) as [Hran _].
  rewrite (proj1 (exec_counts _ w)).
  destruct Hshape as
    [(writes & rc & stderr & f & m & Hwk & Hout & Hv & -> & Hres)
    |(Hfail & kills & -> & Hkills & Htimeout)].
  - rewrite (proj1 (count_app _ _)), Hran. simpl. lia.
  - rewrite (proj1 (count_app _ _)), (proj1 (count_app _ _)), Hran.
    destruct Hkills as [-> | ->]; simpl; lia.
Qed.

Lemma call_interrupted (p : string) (wk : worker) (w : world) :
  (process_platform p false wk w).2 = Raise_KeyboardInterrupt
  ↔ ∃ writes, wk = Runs writes KeyboardInterrupt.
Proof.
  unfold process_platform. cbv zeta. destruct wk as [|writes ret].
  { split; [done|by intros [? ?]]. }
  destruct ret as [rc stderr| | |].
  - destruct (w_fs _ !! _) as [f|]; [destruct (validate f)|];
      (split; [done|by intros [? ?]]).
  - split; [done|by intros [? ?]].
  - split; [by exists writes|done].
  - split; [done|by intros [? ?]].
Qed.

Lemma sequential_loop_quiet (oracle : nat → worker) (i : nat) (names : list string)
    (r : run) :
  sequential_loop oracle (λ _, NoSignal) i names r = run_sequential oracle i names r.
Proof.
  revert i r. induction names as [|p rest IH]; intros i r; [done|].
  cbn [sequential_loop run_sequential].
  destruct (process_platform p false (oracle i) (r_world r)) as [acts [q [|] msg|]];
    [apply IH..|done].
Qed.

Lemma cancelled_frame (r : run) (n : string) :
  is_temp_name n = false → w_fs (r_world (cancelled r)) !! n = w_fs (r_world r) !! n.
Proof. intros Hn. unfold cancelled. cbn [r_world w_fs]. by rewrite cleanup_lookup, Hn. Qed.

Lemma cancelled_clean (r : run) (n : string) :
  is_temp_name n = true → w_fs (r_world (cancelled r)) !! n = None.
Proof. intros Hn. unfold cancelled. cbn [r_world w_fs]. by rewrite cleanup_lookup, Hn. Qed.

(** The loop, iteration after iteration: what was dispatched, the workers
    started, the files kept, and how it ended. *)
Lemma sequential_loop_spec (oracle : nat → worker) (signals : nat → signal) (i : nat)
    (names : list string) (r : run) :
  let r' := sequential_loop oracle signals i names r in
  ∃ k, (k ≤ length names)%nat
    ∧ r_dispatched r' = r_dispatched r ++ take k names
    ∧ (w_spawned (r_world r') ≤ w_spawned (r_world r) + k)%nat
    ∧ ((∀ j, j < k → oracle (i + j) ≠ PopenRaises) →
       w_spawned (r_world r') = w_spawned (r_world r) + k)
    ∧ (∀ n, is_temp_name n = false →
         (is_Some (w_fs (r_world r) !! n) → is_Some (w_fs (r_world r') !! n))
         ∧ ((∀ q, q ∈ take k names → n ≠ platform_to_filename q) →
            w_fs (r_world r') !! n = w_fs (r_world r) !! n))
    ∧ ((k = length names
        ∧ success_count r' + fail_count r' = success_count r + fail_count r + k
        ∧ ∀ j, j < k →
            signals (i + j) = NoSignal
            ∧ ∀ writes, oracle (i + j) ≠ Runs writes KeyboardInterrupt)
       ∨ ((∀ n, is_temp_name n = true → w_fs (r_world r') !! n = None)
          ∧ ((k < length names ∧ signals (i + k) = AtPrint
              ∧ success_count r' + fail_count r' = success_count r + fail_count r + k)
             ∨ (0 < k ∧ signals (i + (k - 1)) = AtSleep
                ∧ success_count r' + fail_count r'
                  = success_count r + fail_count r + k)
             ∨ (0 < k
                ∧ (signals (i + (k - 1)) = AtMessage
                   ∨ ∃ writes, oracle (i + (k - 1)) = Runs writes KeyboardInterrupt)
                ∧ success_count r' + fail_count r'
                  = success_count r + fail_count r + (k - 1))))).
Proof.
  cbv zeta. revert i r. induction names as [|p rest IH]; intros i r.
  { exists 0. cbn [sequential_loop length take]. rewrite app_nil_r.
    split; [done|]. split; [done|]. split; [lia|]. split; [intros _; lia|].
    split; [done|]. left. split; [done|]. split; [lia|]. intros j Hj. lia. }
  cbn [sequential_loop].
  pose proof (call_spawned p (oracle i) (r_world r)) as Hspawn.
  pose proof (call_interrupted p (oracle i) (r_world r)) as Hint.
  pose proof (call_effects p (oracle i) (r_world r)) as Heff.
  assert (length (spawn_of (oracle i)) ≤ 1
          ∧ (oracle i ≠ PopenRaises → length (spawn_of (oracle i)) = 1))%nat
    as [Hle Heq] by (destruct (oracle i); simpl; split; (lia || done)).
  destruct (process_platform p false (oracle i) (r_world r)) as [acts out].
  cbn [fst snd] in *.
  assert (∀ n, is_temp_name n = false →
            (is_Some (w_fs (r_world r) !! n) → is_Some (w_fs (exec acts (r_world r)) !! n))
            ∧ (n ≠ platform_to_filename p →
               w_fs (exec acts (r_world r)) !! n = w_fs (r_world r) !! n)) as Hframe.
  { intros n Hn. destruct (exec_effects_frame p acts (r_world r) n Heff Hn). done. }
  (* the loop stops in this iteration, after the call *)
  assert (∀ sc fc,
    let r1 := cancelled (Run (exec acts (r_world r)) (r_dispatched r ++ [p]) sc fc) in
    (1 ≤ length (p :: rest))%nat
    ∧ r_dispatched r1 = r_dispatched r ++ take 1 (p :: rest)
    ∧ (w_spawned (r_world r1) ≤ w_spawned (r_world r) + 1)%nat
    ∧ ((∀ j, j < 1 → oracle (i + j) ≠ PopenRaises) →
       w_spawned (r_world r1) = w_spawned (r_world r) + 1)
    ∧ (∀ n, is_temp_name n = false →
         (is_Some (w_fs (r_world r) !! n) → is_Some (w_fs (r_world r1) !! n))
         ∧ ((∀ q, q ∈ take 1 (p :: rest) → n ≠ platform_to_filename q) →
            w_fs (r_world r1) !! n = w_fs (r_world r) !! n))
    ∧ (∀ n, is_temp_name n = true → w_fs (r_world r1) !! n = None)) as Hstop.
  { intros sc fc r1. subst r1. cbn [length take]. split; [lia|]. split; [done|].
    unfold cancelled at 1 2. cbn [r_world w_spawned]. split; [lia|]. split.
    - intros Hj. rewrite Hspawn, Heq; [done|]. rewrite <- (Nat.add_0_r i). apply Hj. lia.
    - split.
      + intros n Hn. rewrite cancelled_frame by done. cbn [r_world].
        destruct (Hframe n Hn) as [Hc1 Hc2]. split; [done|].
        intros Hq. apply Hc2, Hq. left.
      + intros n Hn. by apply cancelled_clean. }
  destruct (signals i) eqn:Hsig.
  - (* no signal in this iteration *)
    destruct out as [q b msg|].
    + assert (∀ writes, oracle i ≠ Runs writes KeyboardInterrupt) as Hi.
      { intros writes Hw. destruct Hint as [_ Hint].
        by specialize (Hint (ex_intro _ writes Hw)). }
      match goal with
      | |- context [sequential_loop oracle signals (S i) rest ?r1] =>
          destruct (IH (S i) r1) as (k & Hk & Hd & Hs & Hse & Hf & Hc)
      end.
      cbn [r_world r_dispatched success_count fail_count] in Hd, Hs, Hse, Hf, Hc.
      exists (S k). cbn [length take].
      split; [lia|]. split; [by rewrite Hd, <- app_assoc|].
      split; [lia|]. split.
      { intros Hj. rewrite Hse.
        - rewrite Hspawn, Heq; [lia|]. rewrite <- (Nat.add_0_r i). apply Hj. lia.
        - intros j Hlt. replace (S i + j) with (i + S j) by lia. apply Hj. lia. }
      split.
      { intros n Hn. destruct (Hf n Hn) as [Hf1 Hf2]. destruct (Hframe n Hn) as [Hc1 Hc2].
        split; [intros Hsome; by apply Hf1, Hc1|].
        intros Hq. rewrite Hf2.
        - apply Hc2, Hq. left.
        - intros q' Hin. apply Hq. by right. }
      destruct Hc as [(-> & Hsum & Hno)|(Htmp & Hcase)].
      * left. split; [done|]. split; [destruct b; lia|].
        intros [|j] Hj.
        -- rewrite Nat.add_0_r. done.
        -- replace (i + S j) with (S i + j) by lia. apply Hno. lia.
      * right. split; [done|].
        destruct Hcase as [(Hlt & Hsg & Hsum)|[(Hpos & Hsg & Hsum)|(Hpos & Hsg & Hsum)]].
        -- left. split; [lia|]. split; [by replace (i + S k) with (S i + k) by lia|].
           destruct b; lia.
        -- right. left. split; [lia|].
           split; [by replace (i + (S k - 1)) with (S i + (k - 1)) by lia|].
           destruct b; lia.
        -- right. right. split; [lia|].
           split; [by replace (i + (S k - 1)) with (S i + (k - 1)) by lia|].
           destruct b; lia.
    + destruct Hint as [[writes Hw] _]; [done|].
      destruct (Hstop (success_count r) (fail_count r)) as (H1 & H2 & H3 & H4 & H5 & H6).
      exists 1. do 5 (split; [done|]). right. split; [done|]. right. right.
      split; [lia|]. split; [right; exists writes; by rewrite Nat.add_0_r|].
      unfold cancelled. cbn [success_count fail_count]. lia.
  - (* interrupted before the call *)
    exists 0. cbn [take]. rewrite app_nil_r.
    split; [cbn [length]; lia|]. split; [done|].
    split; [unfold cancelled; cbn [r_world w_spawned]; lia|].
    split; [intros _; unfold cancelled; cbn [r_world w_spawned]; lia|].
    split; [intros n Hn; by rewrite cancelled_frame|].
    right. split; [intros n Hn; by apply cancelled_clean|]. left.
    split; [cbn [length]; lia|]. split; [by rewrite Nat.add_0_r|].
    unfold cancelled. cbn [success_count fail_count]. lia.
  - (* interrupted in [print(msg)] *)
    destruct (Hstop (success_count r) (fail_count r)) as (H1 & H2 & H3 & H4 & H5 & H6).
    exists 1. destruct out as [q b msg|].
    + do 5 (split; [done|]). right. split; [done|]. right. right.
      split; [lia|]. split; [left; by rewrite Nat.add_0_r|].
      unfold cancelled. cbn [success_count fail_count]. lia.
    + destruct Hint as [[writes Hw] _]; [done|].
      do 5 (split; [done|]). right. split; [done|]. right. right.
      split; [lia|]. split; [left; by rewrite Nat.add_0_r|].
      unfold cancelled. cbn [success_count fail_count]. lia.
  - (* interrupted in [time.sleep(1)] *)
    exists 1. destruct out as [q b msg|].
    + destruct (Hstop (if b then S (success_count r) else success_count r)
                      (if b then fail_count r else S (fail_count r)))
        as (H1 & H2 & H3 & H4 & H5 & H6).
      do 5 (split; [done|]). right. split; [done|]. right. left.
      split; [lia|]. split; [by rewrite Nat.add_0_r|].
      unfold cancelled. cbn [success_count fail_count]. destruct b; lia.
    + destruct (Hstop (success_count r) (fail_count r)) as (H1 & H2 & H3 & H4 & H5 & H6).
      destruct Hint as [[writes Hw] _]; [done|].
      do 5 (split; [done|]). right. split; [done|]. right. right.
      split; [lia|]. split; [right; exists writes; by rewrite Nat.add_0_r|].
      unfold cancelled. cbn [success_count fail_count]. lia.
Qed.

(** X8. The sequential loop calls the executor for the selected names in
    their order and stops early only at a keyboard interrupt, which can
    reach it inside a call or in the loop body itself (the two [print]s and
    [time.sleep(1)]).  Each call starts at most one worker process, exactly
    one when [Popen] does not raise.  No file other than a temporary one is
    ever removed, and a file that is neither temporary nor the filename key
    of a dispatched platform is left as it was.  Either no interrupt
    arrived: then every name was dispatched and the two counters together
    grew by the number of names.  Or the loop was interrupted: then the
    clean-up has left no temporary file, and the interrupt arrived before
    the next call (every dispatched call is counted), during the sleep
    after the last dispatched call (that call is counted too), or inside
    the last dispatched call or the printing of its message (that call is
    counted neither as a success nor as a failure).  Without interrupts in
    the loop body the loop is [run_sequential]. *)
Theorem X8_sequential_loop (oracle : nat → worker) (signals : nat → signal) (i : nat)
    (names : list string) (r : run) :
  let r' := sequential_loop oracle signals i names r in
  (∃ k, (k ≤ length names)%nat
    ∧ r_dispatched r' = r_dispatched r ++ take k names
    ∧ (w_spawned (r_world r') ≤ w_spawned (r_world r) + k)%nat
    ∧ ((∀ j, j < k → oracle (i + j) ≠ PopenRaises) →
       w_spawned (r_world r') = w_spawned (r_world r) + k)
    ∧ (∀ n, is_temp_name n = false →
         (is_Some (w_fs (r_world r) !! n) → is_Some (w_fs (r_world r') !! n))
         ∧ ((∀ q, q ∈ take k names → n ≠ platform_to_filename q) →
            w_fs (r_world r') !! n = w_fs (r_world r) !! n))
    ∧ ((k = length names
        ∧ success_count r' + fail_count r' = success_count r + fail_count r + k
        ∧ ∀ j, j < k →
            signals (i + j) = NoSignal
            ∧ ∀ writes, oracle (i + j) ≠ Runs writes KeyboardInterrupt)
       ∨ ((∀ n, is_temp_name n = true → w_fs (r_world r') !! n = None)
          ∧ ((k < length names ∧ signals (i + k) = AtPrint
              ∧ success_count r' + fail_count r' = success_count r + fail_count r + k)
             ∨ (0 < k ∧ signals (i + (k - 1)) = AtSleep
                ∧ success_count r' + fail_count r'
                  = success_count r + fail_count r + k)
             ∨ (0 < k
                ∧ (signals (i + (k - 1)) = AtMessage
                   ∨ ∃ writes, oracle (i + (k - 1)) = Runs writes KeyboardInterrupt)
                ∧ success_count r' + fail_count r'
                  = success_count r + fail_count r + (k - 1))))))
  ∧ sequential_loop oracle (λ _, NoSignal) i names r = run_sequential oracle i names r.
Proof.
  split; [apply sequential_loop_spec|apply sequential_loop_quiet].
Qed.

(** ** The bookkeeping of the pool loop *)

Lemma submit_next_accounted (names : list string) (s : Pool.state) :
  accounted names s → accounted names (Pool.submit_next s).
Proof.
  intros (Hc & Hp & (consumed & Hn & Hs) & Hm).
  unfold Pool.submit_next. destruct (Pool.remaining_iter s) as [|p rest] eqn:Hr.
  { unfold accounted. rewrite Hr. split; [done|]. split; [done|].
    split; [by exists consumed|done]. }
  destruct (String.eqb_spec p "") as [->|Hne]; unfold accounted; simpl.
  - split; [done|]. split; [done|]. split; [|done].
    exists (consumed ++ [""]). split; [by rewrite <- app_assoc|].
    rewrite filter_app, filter_cons, decide_False by (by intros H; apply H).
    by rewrite filter_nil, app_nil_r.
  - split; [done|]. split; [rewrite !length_app; simpl; lia|]. split.
    + exists (consumed ++ [p]). split; [by rewrite <- app_assoc|].
      rewrite filter_app, filter_cons, decide_True by done.
      by rewrite filter_nil, Hs.
    + intros f q [Hin|Hin%list_elem_of_singleton]%elem_of_app.
      * apply lookup_app_l_Some. by apply Hm.
      * injection Hin as -> ->. rewrite lookup_app_r by lia.
        by rewrite Nat.sub_diag.
Qed.

Lemma popped_accounted (names : list string) (s : Pool.state) (done : nat * bool) :
  futures_ok s → done.1 ∈ in_flight s →
  accounted names s → accounted names (popped s done).
Proof.
  intros [Hnd _] Hin (Hc & Hp & Hcons & Hm).
  pose proof (length_pop (Pool.pending s) done.1 Hnd Hin) as Hpop.
  unfold accounted, popped. simpl. split; [destruct done.2; lia|].
  split; [lia|]. split; [done|].
  intros f p [_ Hfp]%list_elem_of_filter. by apply Hm.
Qed.

Lemma handle_completed (s : Pool.state) (done : nat * bool) :
  Pool.completed (Pool.handle s done) = S (Pool.completed s).
Proof.
  rewrite handle_popped.
  destruct (submit_next_cases (popped s done))
    as [[_ ->]|[(rest & Hr & _)|(p & rest & Hp & Hr & _)]]; [done|..];
    unfold Pool.submit_next; rewrite Hr.
  - done.
  - by destruct (String.eqb p "").
Qed.

Lemma tick_accounted (names : list string) (s s' : Pool.state) :
  futures_ok s → accounted names s → Pool.tick s s' →
  accounted names s' ∧ Pool.completed s < Pool.completed s'.
Proof.
  intros Hok Hacc Htick. destruct Htick as [s done_futures Hne Hnd Hin].
  assert (accounted names (foldl Pool.handle s done_futures)
          ∧ Pool.completed (foldl Pool.handle s done_futures)
            = Pool.completed s + length done_futures) as [Ha Hc].
  { clear Hne. revert s Hok Hacc Hnd Hin.
    induction done_futures as [|d l IH]; intros s Hok Hacc Hnd Hin.
    - simpl. split; [done|lia].
    - simpl in Hnd. apply NoDup_cons in Hnd as [Hd Hnd]. cbn [foldl].
      assert (d.1 ∈ in_flight s) as Hdin by (apply Hin; left).
      destruct (IH (Pool.handle s d)) as [Ha Hc].
      + by apply handle_futures_ok.
      + rewrite handle_popped. by apply submit_next_accounted, popped_accounted.
      + done.
      + intros f Hf. apply handle_keeps; [apply Hin; by right|]. by intros ->.
      + split; [done|]. rewrite Hc, handle_completed. simpl. lia. }
  split; [done|]. rewrite Hc. destruct done_futures; [done|simpl; lia].
Qed.

Lemma pool_accounted (k : nat) (names : list string) (s : Pool.state) :
  Pool.reachable k names s → accounted names s.
Proof.
  induction 1 as [|s s' Hreach IH Htick].
  - unfold Pool.initial. induction k as [|k IHk]; simpl.
    + unfold accounted. simpl. split; [done|]. split; [done|].
      split; [by exists []|]. intros f p Hin. by apply not_elem_of_nil in Hin.
    + by apply submit_next_accounted.
  - apply (tick_accounted names s s'); [|done..]. by apply (pool_bound k names).
Qed.

(** X9. At the head of every iteration of the pool loop the bookkeeping is
    consistent: every completed future was counted once, as a success or as
    a failure; the futures completed and those in flight are exactly those
    submitted; the platforms submitted are the names the iterator has
    yielded, in order, without the empty ones; [pending] maps each future
    to the platform it was submitted for.  Every iteration completes at
    least one future, so the loop ends after at most as many iterations as
    there are names.  With at least one worker and no empty name, the loop
    ends only when every name has been submitted and completed. *)
Theorem X9_pool_accounting (k : nat) (names : list string) (s : Pool.state) :
  Pool.reachable k names s →
  Pool.completed s = Pool.successes s + Pool.failures s
  ∧ Pool.completed s + length (Pool.pending s) = length (Pool.submitted s)
  ∧ (∃ consumed, names = consumed ++ Pool.remaining_iter s
       ∧ Pool.submitted s = filter (λ p, p ≠ "") consumed)
  ∧ (∀ f p, (f, p) ∈ Pool.pending s → Pool.submitted s !! f = Some p)
  ∧ (Pool.completed s ≤ length names)%nat
  ∧ (∀ s', Pool.tick s s' → Pool.completed s < Pool.completed s')
  ∧ (0 < k → Forall (λ p, p ≠ "") names → Pool.pending s = [] →
     Pool.submitted s = names ∧ Pool.completed s = length names).
Proof.
  intros Hreach. pose proof (pool_accounted k names s Hreach) as Hacc.
  pose proof (pool_bound k names s Hreach) as [Hok _].
  destruct Hacc as (Hc & Hp & (consumed & Hn & Hs) & Hm).
  split; [done|]. split; [done|]. split; [by exists consumed|]. split; [done|].
  split; [|split].
  - pose proof (length_filter (λ p, p ≠ "") consumed) as Hle. rewrite <- Hs in Hle.
    rewrite Hn, length_app. lia.
  - intros s' Htick. apply (tick_accounted names s s'); [done| |done].
    by apply (pool_accounted k names).
  - intros Hk Hne Hnil.
    destruct (pool_saturated names Hne k s Hreach) as [Ho Hsat].
    unfold in_order, saturated, in_flight in *. rewrite Hnil in *. simpl in *.
    destruct Hsat as [Hr|Hr]; [|lia]. rewrite Hr, app_nil_r in Ho.
    split; [done|]. rewrite <- Ho. lia.
Qed.

Lemma X9_pool_accounting_witness :
  Pool.reachable 2 ["A"; "B"; "C"] pool_after_first
  ∧ Pool.completed pool_after_first + length (Pool.pending pool_after_first)
    = length (Pool.submitted pool_after_first)
  ∧ (Pool.completed pool_after_first ≤ 3)%nat.
Proof.
  assert (Pool.reachable 2 ["A"; "B"; "C"] pool_after_first) as Hreach.
  { unfold pool_after_first. eapply Pool.reach_tick; [apply Pool.reach_initial|].
    apply Pool.tick_intro.
    - discriminate.
    - apply NoDup_singleton.
    - intros f Hf. inversion Hf as [|? ? ? Hf2]; [|inversion Hf2].
      vm_compute. constructor. }
  split; [exact Hreach|].
  destruct (X9_pool_accounting 2 ["A"; "B"; "C"] pool_after_first Hreach)
    as (_ & Hp & _ & _ & Hle & _).
  split; [exact Hp|exact Hle].
Defined.

(** ** [main] with one worker *)

Lemma apply_limit_length (lim : Z) (names : list string) :
  (0 < lim)%Z → (length (apply_limit lim names) ≤ Z.to_nat lim)%nat.
Proof.
  intros Hlim. unfold apply_limit.
  rewrite (proj2 (Z.ltb_lt 0 lim) Hlim), length_take. lia.
Qed.

Lemma main_plan_process (a : args) (db : catalog) (fs : store) (names : list string) :
  main_plan a db fs = Process names →
  combine_only a = false ∧ dry_run a = false
  ∧ ((0 < limit a)%Z → (length names ≤ Z.to_nat (limit a))%nat)
  ∧ ∀ p, p ∈ names → ∃ count, (p, count) ∈ db ∧ (min_games a ≤ count)%Z.
Proof.
  unfold main_plan. destruct (combine_only a); [done|].
  assert (∀ sel,
    (∀ p, p ∈ sel → ∃ count, (p, count) ∈ db ∧ (min_games a ≤ count)%Z) →
    match apply_limit (limit a) sel with
    | [] => AllProcessed
    | _ :: _ =>
        if dry_run a then DryRun (apply_limit (limit a) sel)
        else Process (apply_limit (limit a) sel)
    end = Process names →
    false = false ∧ dry_run a = false
    ∧ ((0 < limit a)%Z → (length names ≤ Z.to_nat (limit a))%nat)
    ∧ ∀ p, p ∈ names → ∃ count, (p, count) ∈ db ∧ (min_games a ≤ count)%Z) as Hsel.
  { intros sel Hin Hplan.
    destruct (apply_limit (limit a) sel) as [|p0 l] eqn:El; [done|].
    destruct (dry_run a); [done|]. injection Hplan as <-.
    split; [done|]. split; [done|]. split.
    - intros Hlim. rewrite <- El. by apply apply_limit_length.
    - intros p Hp. rewrite <- El in Hp. by apply Hin, (elem_of_apply_limit (limit a)). }
  destruct (given (platform a)) as [p|].
  - pose proof (find_platform_spec db (min_games a) p) as Hfind.
    destruct (find_platform db (min_games a) p) as [[name how]|]; [|done].
    destruct Hfind as (-> & Hcount & _). apply Hsel.
    by intros q ->%list_elem_of_singleton.
  - apply Hsel. intros p [[count Hin] _]%elem_of_pending_names.
    apply elem_of_eligible in Hin as (Hin & Hle & _). by exists count.
Qed.

Lemma combine_frame (fs : store) (n : string) :
  (n ≠ COMBINED_CSV → combined_store (combine_all_csvs fs) !! n = fs !! n)
  ∧ (is_Some (fs !! n) → is_Some (combined_store (combine_all_csvs fs) !! n)).
Proof.
  rewrite combine_all_csvs_spec. cbv zeta.
  destruct (flat_map (read_rows fs) (scanned fs)) as [|r rows]; cbn [combined_store];
    [done|]. split.
  - intros Hn. by apply lookup_insert_ne.
  - intros Hn. destruct (decide (COMBINED_CSV = n)) as [<-|Hne].
    + rewrite lookup_insert_eq. by eexists.
    + by rewrite lookup_insert_ne.
Qed.

(** X10. A run of [main] with one worker, whatever the arguments, the
    catalog, the workers and the keyboard do.  Every platform it dispatches
    has a catalog entry that reaches the minimum game count; with a positive
    limit no more platforms are dispatched than the limit; a dry run or a
    combine-only run dispatches nothing.  At most one worker process is
    started per dispatched platform, exactly one when no [Popen] call
    raises, and none otherwise.  No file other than a temporary one is
    removed, and apart from the combined file the only files that can
    change are temporary ones and the filename keys of the dispatched
    platforms.  Exit status 1 leaves everything as it was. *)
Theorem X10_main_sequential (run_pool : Z → list string → world → run)
    (oracle : nat → worker) (signals : nat → signal) (a : args) (db : catalog)
    (w : world) :
  parallel a = 1%Z →
  let m := main run_pool oracle signals a db w in
  (∀ p, p ∈ dispatched m → ∃ count, (p, count) ∈ db ∧ (min_games a ≤ count)%Z)
  ∧ ((0 < limit a)%Z → (length (dispatched m) ≤ Z.to_nat (limit a))%nat)
  ∧ (dry_run a = true ∨ combine_only a = true → dispatched m = [])
  ∧ (w_spawned (final m) ≤ w_spawned w + length (dispatched m))%nat
  ∧ ((∀ i, oracle i ≠ PopenRaises) →
     w_spawned (final m) = w_spawned w + length (dispatched m))
  ∧ (∀ n, is_temp_name n = false →
       (is_Some (w_fs w !! n) → is_Some (w_fs (final m) !! n))
       ∧ (n ≠ COMBINED_CSV →
          (∀ q, q ∈ dispatched m → n ≠ platform_to_filename q) →
          w_fs (final m) !! n = w_fs w !! n))
  ∧ (exit_status m = 1%Z → final m = w ∧ dispatched m = []).
Proof.
  intros Hpar. cbv zeta. unfold main. rewrite Hpar. cbn [Z.eqb Pos.eqb].
  assert (∀ st, let m := finish st (Run w [] 0 0) in
    (∀ p, p ∈ dispatched m → ∃ count, (p, count) ∈ db ∧ (min_games a ≤ count)%Z)
    ∧ ((0 < limit a)%Z → (length (dispatched m) ≤ Z.to_nat (limit a))%nat)
    ∧ (dry_run a = true ∨ combine_only a = true → dispatched m = [])
    ∧ (w_spawned (final m) ≤ w_spawned w + length (dispatched m))%nat
    ∧ ((∀ i, oracle i ≠ PopenRaises) →
       w_spawned (final m) = w_spawned w + length (dispatched m))
    ∧ (∀ n, is_temp_name n = false →
         (is_Some (w_fs w !! n) → is_Some (w_fs (final m) !! n))
         ∧ (n ≠ COMBINED_CSV →
            (∀ q, q ∈ dispatched m → n ≠ platform_to_filename q) →
            w_fs (final m) !! n = w_fs w !! n))) as Hidle.
  { intros st. cbv zeta. unfold finish.
    cbn [r_world r_dispatched dispatched final w_fs w_spawned length].
    split; [intros p Hp; by apply not_elem_of_nil in Hp|]. split; [lia|].
    split; [done|]. split; [lia|]. split; [lia|]. intros n _.
    destruct (combine_frame (w_fs w) n) as [H1 H2]. split; [done|]. intros Hn _. by apply H1. }
  destruct (main_plan a db (w_fs w)) as [| | |names|names] eqn:Hplan.
  - destruct (Hidle 0%Z) as (H1 & H2 & H3 & H4 & H5 & H6).
    do 6 (split; [done|]). unfold finish. cbn [exit_status]. intros H. discriminate H.
  - cbn [dispatched final exit_status length].
    split; [intros p Hp; by apply not_elem_of_nil in Hp|]. split; [lia|].
    split; [done|]. split; [lia|]. split; [lia|]. split; [|done]. intros n _. done.
  - destruct (Hidle 0%Z) as (H1 & H2 & H3 & H4 & H5 & H6).
    do 6 (split; [done|]). unfold finish. cbn [exit_status]. intros H. discriminate H.
  - cbn [dispatched final exit_status length].
    split; [intros p Hp; by apply not_elem_of_nil in Hp|]. split; [lia|].
    split; [done|]. split; [lia|]. split; [lia|]. split; [|done]. intros n _. done.
  - apply main_plan_process in Hplan as (Hco & Hdry & Hlim & Hcat).
    destruct (sequential_loop_spec oracle signals 0 names (Run w [] 0 0))
      as (k & Hk & Hd & Hs & Hse & Hf & _).
    cbn [r_world r_dispatched app] in Hd, Hs, Hse, Hf.
    unfold finish. cbn [dispatched final exit_status w_fs w_spawned].
    rewrite Hd, length_take.
    split; [intros p Hp; by apply Hcat, (subseteq_take k names)|].
    split; [intros Hl; specialize (Hlim Hl); lia|].
    split; [intros [H|H]; congruence|]. split; [lia|].
    split; [intros Ho; rewrite Hse; [lia|]; intros j _; apply Ho|].
    split; [|done].
    intros n Hn. destruct (Hf n Hn) as [Hf1 Hf2].
    destruct (combine_frame
                (w_fs (r_world (sequential_loop oracle signals 0 names (Run w [] 0 0)))) n)
      as [Hc1 Hc2].
    split; [intros Hsome; by apply Hc2, Hf1|].
    intros Hne Hq. rewrite Hc1 by done. by apply Hf2.
Qed.

Lemma X10_main_sequential_witness :
  dispatched (main (λ _ _ w, Run w [] 0 0) (λ _, slow_writer) (λ _, NoSignal)
                   default_args [("B", 40%Z)] (World ∅ 0 0)) = ["B"]
  ∧ w_spawned (final (main (λ _ _ w, Run w [] 0 0) (λ _, slow_writer) (λ _, NoSignal)
                           default_args [("B", 40%Z)] (World ∅ 0 0))) = 1.
Proof.
  assert (dispatched (main (λ _ _ w, Run w [] 0 0) (λ _, slow_writer) (λ _, NoSignal)
                           default_args [("B", 40%Z)] (World ∅ 0 0)) = ["B"]) as Hd
    by (vm_compute; reflexivity).
  split; [exact Hd|].
  pose proof (X10_main_sequential (λ _ _ w, Run w [] 0 0) (λ _, slow_writer)
                (λ _, NoSignal) default_args [("B", 40%Z)] (World ∅ 0 0) eq_refl) as H.
  cbv zeta in H. destruct H as (_ & _ & _ & _ & Hs & _).
  rewrite Hs, Hd; [reflexivity|]. intros i. discriminate.
Defined.

(** * The sibling script *)

(** ** Its executor *)

Lemma last_written_cons (x : option file) (writes : list (option file))
    (prev : option file) :
  last_written (x :: writes) prev = last_written writes x.
Proof. unfold last_written. rewrite last_cons. by destruct (last writes). Qed.

Lemma exec_cons (a : action) (l : list action) (w : world) :
  exec (a :: l) w = exec l (step a w).
Proof. reflexivity. Qed.

Lemma exec_writes (path : string) (writes : list (option file)) (w : world) :
  (∀ n, n ≠ path → w_fs (exec (AWorkerWrite path <$> writes) w) !! n = w_fs w !! n)
  ∧ w_fs (exec (AWorkerWrite path <$> writes) w) !! path
    = last_written writes (w_fs w !! path)
  ∧ w_spawned (exec (AWorkerWrite path <$> writes) w) = w_spawned w.
Proof.
  revert w. induction writes as [|x writes IH]; intros w; [done|].
  rewrite fmap_cons, exec_cons.
  destruct (IH (step (AWorkerWrite path x) w)) as (IH1 & IH2 & IH3).
  rewrite last_written_cons. split; [|split].
  - intros n Hn. rewrite IH1 by done.
    destruct x; simpl; [by rewrite lookup_insert_ne|by rewrite lookup_delete_ne].
  - rewrite IH2. f_equal.
    destruct x; simpl; [by rewrite lookup_insert_eq|by rewrite lookup_delete_eq].
  - rewrite IH3. by destruct x.
Qed.

Lemma emulators_ran (path : string) (writes : list (option file)) (kills : list action)
    (w : world) :
  kills = [] ∨ kills = [AKill] →
  (∀ n, n ≠ path →
     w_fs (exec ((ASpawn :: (AWorkerWrite path <$> writes)) ++ kills) w) !! n = w_fs w !! n)
  ∧ w_fs (exec ((ASpawn :: (AWorkerWrite path <$> writes)) ++ kills) w) !! path
    = last_written writes (w_fs w !! path)
  ∧ w_spawned (exec ((ASpawn :: (AWorkerWrite path <$> writes)) ++ kills) w)
    = S (w_spawned w).
Proof.
  intros Hkills. rewrite exec_app.
  assert (∀ x, w_fs (exec kills x) = w_fs x ∧ w_spawned (exec kills x) = w_spawned x)
    as Hk by (intros x; by destruct Hkills as [-> | ->]).
  destruct (Hk (exec (ASpawn :: (AWorkerWrite path <$> writes)) w)) as [-> ->].
  rewrite exec_cons.
  destruct (exec_writes path writes (step ASpawn w)) as (H1 & H2 & H3).
  by rewrite H2, H3.
Qed.

Lemma last_written_snoc (writes : list (option file)) (x prev : option file) :
  last_written (writes ++ [x]) prev = x.
Proof. unfold last_written. by rewrite last_snoc. Qed.

(** X11. The executor of [scrape_all_emulators.py] lets the worker write
    the final file itself and never looks into it.  Whatever the outcome,
    the file of the platform is what the worker wrote last, or what was
    there before when it wrote nothing, and no other file changes.  At most
    one worker process is started: one when [subprocess.run] gets to start
    it, none when it raises before, and then the call fails.  The call
    succeeds exactly when the worker exited with code 0 and a file is
    there, be it an old one.  Any file the worker leaves marks the platform
    as done, also when the call timed out or failed. *)
Theorem X11_emulators_call (p : string) (wk : worker) (w : world) :
  let path := platform_to_filename p in
  let out := (Emulators.process_platform p false wk w).2 in
  let w' := exec (Emulators.process_platform p false wk w).1 w in
  (∀ n, n ≠ path → w_fs w' !! n = w_fs w !! n)
  ∧ w_fs w' !! path = last_written (writes_of wk) (w_fs w !! path)
  ∧ (wk = PopenRaises →
     w_spawned w' = w_spawned w ∧ Emulators.succeeded out = false)
  ∧ (wk ≠ PopenRaises → w_spawned w' = S (w_spawned w))
  ∧ (Emulators.succeeded out = true ↔
     ∃ writes stderr, wk = Runs writes (Exited 0 stderr) ∧ is_done (w_fs w') p = true)
  ∧ (∀ writes f ret, wk = Runs (writes ++ [Some f]) ret → is_done (w_fs w') p = true)
  ∧ (writes_of wk = [] → is_done (w_fs w') p = is_done (w_fs w) p).
Proof.
  cbv zeta.
  assert (∀ acts,
    w_fs (exec acts w) !! platform_to_filename p
    = last_written (writes_of wk) (w_fs w !! platform_to_filename p) →
    (∀ writes f ret, wk = Runs (writes ++ [Some f]) ret → is_done (w_fs (exec acts w)) p = true)
    ∧ (writes_of wk = [] → is_done (w_fs (exec acts w)) p = is_done (w_fs w) p)) as Hdone.
  { intros acts Hpath. unfold is_done. rewrite Hpath. split.
    - intros writes f ret ->. cbn [writes_of]. rewrite last_written_snoc.
      by apply bool_decide_eq_true_2.
    - by intros ->. }
  unfold Emulators.process_platform. cbv zeta.
  destruct wk as [|writes ret].
  { cbn [fst snd writes_of Emulators.succeeded].
    destruct (Hdone [] eq_refl) as [Hd1 Hd2].
    split; [done|]. split; [done|]. split; [done|]. split; [by intros H|].
    split; [|done]. split; [done|]. by intros (? & ? & ? & _). }
  cbn [writes_of].
  pose proof (emulators_ran (platform_to_filename p) writes [] w (or_introl eq_refl)) as Hnone.
  pose proof (emulators_ran (platform_to_filename p) writes [AKill] w (or_intror eq_refl))
    as Hkill.
  rewrite app_nil_r in Hnone.
  destruct ret as [rc stderr| | |].
  - destruct Hnone as (H1 & H2 & H3). destruct (Hdone _ H2) as [Hd1 Hd2]. unfold is_done.
    destruct ((rc =? 0)%Z
              && bool_decide (is_Some (w_fs (exec (ASpawn :: (AWorkerWrite
                   (platform_to_filename p) <$> writes)) w) !! platform_to_filename p)))
      eqn:Etest; cbn [fst snd Emulators.succeeded];
      (split; [done|]; split; [done|]; split; [by intros H|]; split; [done|];
       split; [|done]).
    + apply andb_true_iff in Etest as [Hrc%Z.eqb_eq Hex]. subst rc.
      split; [intros _; by exists writes, stderr|done].
    + split; [done|]. intros (writes' & stderr' & [= -> -> ->] & Hex).
      rewrite Hex in Etest. discriminate Etest.
  - destruct Hkill as (H1 & H2 & H3). destruct (Hdone _ H2) as [Hd1 Hd2].
    cbn [fst snd Emulators.succeeded].
    split; [done|]. split; [done|]. split; [by intros H|]. split; [done|].
    split; [|done]. split; [done|]. by intros (? & ? & ? & _).
  - destruct Hkill as (H1 & H2 & H3). destruct (Hdone _ H2) as [Hd1 Hd2].
    cbn [fst snd Emulators.succeeded].
    split; [done|]. split; [done|]. split; [by intros H|]. split; [done|].
    split; [|done]. split; [done|]. by intros (? & ? & ? & _).
  - destruct Hkill as (H1 & H2 & H3). destruct (Hdone _ H2) as [Hd1 Hd2].
    cbn [fst snd Emulators.succeeded].
    split; [done|]. split; [done|]. split; [by intros H|]. split; [done|].
    split; [|done]. split; [done|]. by intros (? & ? & ? & _).
Qed.

(** ** [platform_to_search_name] *)

Lemma has_char_replace (a b : ascii) (s : string) :
  a ≠ b → has_char a (Emulators.replace_char a b s) = false.
Proof.
  intros Hab. induction s as [|c s IH]; [done|]. cbn [Emulators.replace_char has_char].
  rewrite IH, orb_false_r. destruct (Ascii.eqb_spec c a) as [->|Hc].
  - apply Ascii.eqb_neq. congruence.
  - by apply Ascii.eqb_neq.
Qed.

Lemma has_char_replace_other (a c d : ascii) (s : string) :
  d ≠ a → has_char a s = false → has_char a (Emulators.replace_char c d s) = false.
Proof.
  intros Hda. induction s as [|e s IH]; [done|]. cbn [Emulators.replace_char has_char].
  intros [He Hs]%orb_false_iff. rewrite IH, orb_false_r by done.
  destruct (Ascii.eqb e c); [by apply Ascii.eqb_neq|done].
Qed.

Lemma length_replace_char (a b : ascii) (s : string) :
  String.length (Emulators.replace_char a b s) = String.length s.
Proof. induction s as [|c s IH]; [done|]. simpl. by rewrite IH. Qed.

Lemma replace_char_absent (a b : ascii) (s : string) :
  has_char a s = false → Emulators.replace_char a b s = s.
Proof.
  induction s as [|c s IH]; [done|]. cbn [Emulators.replace_char has_char].
  intros [-> Hs]%orb_false_iff. by rewrite IH.
Qed.

Lemma mappings_values_no_space (kv : string * string) :
  kv ∈ Emulators.mappings → has_char " " kv.2 = false.
Proof.
  assert (forallb (λ kv, negb (has_char " " kv.2)) Emulators.mappings = true) as Hall
    by (vm_compute; reflexivity).
  intros Hin%list_elem_of_In. apply negb_true_iff.
  by apply (proj1 (forallb_forall _ _) Hall).
Qed.

Lemma mappings_keys_nodup : NoDup Emulators.mappings.*1.
Proof. apply (bool_decide_unpack _). by vm_compute. Qed.

Lemma nodup_fst_functional {A B} (l : list (A * B)) (x : A) (y1 y2 : B) :
  NoDup l.*1 → (x, y1) ∈ l → (x, y2) ∈ l → y1 = y2.
Proof.
  induction l as [|[a b] l IH]; intros Hnd H1 H2; [by apply elem_of_nil in H1|].
  cbn [fmap list_fmap fst] in Hnd. apply NoDup_cons in Hnd as [Ha Hnd].
  apply elem_of_cons in H1 as [H1|H1]; apply elem_of_cons in H2 as [H2|H2].
  - congruence.
  - injection H1 as -> ->. exfalso. apply Ha, list_elem_of_fmap. by exists (a, y2).
  - injection H2 as -> ->. exfalso. apply Ha, list_elem_of_fmap. by exists (a, y1).
  - by apply IH.
Qed.

(** X12. The wiki search name never contains a space.  A platform named
    in the table gets its table entry (no name occurs twice there).  For
    any other platform the name keeps its length, contains no hyphen
    either, and is the platform name itself when that has neither spaces
    nor hyphens. *)
Theorem X12_search_name (p : string) :
  has_char " " (Emulators.platform_to_search_name p) = false
  ∧ (∀ v, (p, v) ∈ Emulators.mappings → Emulators.platform_to_search_name p = v)
  ∧ (p ∉ Emulators.mappings.*1 →
     String.length (Emulators.platform_to_search_name p) = String.length p
     ∧ has_char "-" (Emulators.platform_to_search_name p) = false
     ∧ (has_char " " p = false → has_char "-" p = false →
        Emulators.platform_to_search_name p = p)).
Proof.
  unfold Emulators.platform_to_search_name.
  destruct (filter (λ kv, kv.1 = p) Emulators.mappings) as [|kv l] eqn:Ef.
  - split; [|split].
    + apply has_char_replace_other; [done|]. by apply has_char_replace.
    + intros v Hv. assert ((p, v) ∈ filter (λ kv, kv.1 = p) Emulators.mappings) as Hin
        by by apply list_elem_of_filter.
      rewrite Ef in Hin. by apply elem_of_nil in Hin.
    + intros _. split; [by rewrite !length_replace_char|]. split.
      * by apply has_char_replace.
      * intros Hs Hh. by rewrite (replace_char_absent " "), (replace_char_absent "-").
  - assert (kv ∈ filter (λ kv, kv.1 = p) Emulators.mappings) as Hkv
      by (rewrite Ef; left).
    apply list_elem_of_filter in Hkv as [Hk Hin]. split; [|split].
    + by apply mappings_values_no_space.
    + intros v Hv. destruct kv as [k v']. simpl in *. subst k.
      by apply (nodup_fst_functional Emulators.mappings p v' v mappings_keys_nodup).
    + intros Hp. exfalso. apply Hp, list_elem_of_fmap. by exists kv.
Qed.

(** ** The selection of the sibling script *)

Lemma emulators_call_path (p : string) (wk : worker) (w : world) :
  w_fs (exec (Emulators.process_platform p false wk w).1 w) !! platform_to_filename p
  = last_written (writes_of wk) (w_fs w !! platform_to_filename p).
Proof.
  unfold Emulators.process_platform. cbv zeta. destruct wk as [|writes ret]; [done|].
  cbn [writes_of].
  pose proof (emulators_ran (platform_to_filename p) writes [] w (or_introl eq_refl))
    as (_ & Hnone & _).
  pose proof (emulators_ran (platform_to_filename p) writes [AKill] w (or_intror eq_refl))
    as (_ & Hkill & _).
  rewrite app_nil_r in Hnone.
  destruct ret as [rc stderr| | |]; [|done..].
  by destruct ((rc =? 0)%Z && _).
Qed.

Lemma emulators_remaining (a : Emulators.args) (db : list string) (fs : store)
    (names : list string) :
  given (Emulators.platform a) = None →
  Emulators.main_plan a db fs = Process names
  ∨ Emulators.main_plan a db fs = DryRun names →
  names = filter (λ p, is_done fs p = false) (Emulators.get_platforms db).
Proof.
  unfold Emulators.main_plan. cbv zeta. intros ->.
  destruct (Emulators.combine_only a); [by intros [?|?]|].
  destruct (filter _ (Emulators.get_platforms db)) as [|q l]; [by intros [?|?]|].
  destruct (Emulators.dry_run a); intros [H|H]; congruence.
Qed.

(** X13. The selection made by [scrape_all_emulators.py].  With
    [--platform] the named platform is accepted exactly when the catalog
    has it, and then it alone is selected whether or not its file exists;
    otherwise the run exits with status 1.  Without it the run never exits
    with status 1 and selects exactly the catalog's platforms that have no
    file, in the order of their names.  Hence a platform whose call left a
    file, even a call that timed out or failed, is not selected by a later
    run. *)
Theorem X13_emulators_selection (a : Emulators.args) (db : list string) (fs : store) :
  (∀ p, Emulators.combine_only a = false → given (Emulators.platform a) = Some p →
     (p ∈ db →
      Emulators.main_plan a db fs
      = if Emulators.dry_run a then DryRun [p] else Process [p])
     ∧ (p ∉ db → Emulators.main_plan a db fs = NotFound))
  ∧ (given (Emulators.platform a) = None → Emulators.main_plan a db fs ≠ NotFound)
  ∧ (∀ names, given (Emulators.platform a) = None →
       Emulators.main_plan a db fs = Process names
       ∨ Emulators.main_plan a db fs = DryRun names →
       (∀ p, p ∈ names ↔ p ∈ db ∧ is_done fs p = false)
       ∧ StronglySorted name_le names)
  ∧ (∀ p writes f ret w names, given (Emulators.platform a) = None →
       Emulators.main_plan a db
         (w_fs (exec (Emulators.process_platform p false
                        (Runs (writes ++ [Some f]) ret) w).1 w))
       = Process names →
       p ∉ names).
Proof.
  split; [|split; [|split]].
  - intros p Hc Hp. unfold Emulators.main_plan. cbv zeta. rewrite Hc, Hp.
    unfold Emulators.get_platforms. split; intros Hin.
    + by rewrite bool_decide_eq_true_2 by by apply elem_of_sort_by.
    + by rewrite bool_decide_eq_false_2 by by rewrite elem_of_sort_by.
  - intros Hg. unfold Emulators.main_plan. cbv zeta. rewrite Hg.
    destruct (Emulators.combine_only a); [done|].
    destruct (filter _ _); [done|]. by destruct (Emulators.dry_run a).
  - intros names Hg Hplan. rewrite (emulators_remaining a db fs names Hg Hplan).
    unfold Emulators.get_platforms. split.
    + intros p. rewrite list_elem_of_filter, elem_of_sort_by. tauto.
    + apply StronglySorted_filter, (sort_by_sorted id).
  - intros p writes f ret w names Hg Hplan.
    rewrite (emulators_remaining a db _ names Hg (or_introl Hplan)).
    intros [Hd _]%list_elem_of_filter. unfold is_done in Hd.
    rewrite emulators_call_path in Hd. cbn [writes_of] in Hd.
    rewrite last_written_snoc in Hd. apply bool_decide_eq_false in Hd.
    apply Hd. by eexists.
Qed.

(** * C3: resumption *)



